(** * Lowball Blitz: a shallow embedding of the simulation core

  The game is an endless runner written in JavaScript.  This development
  embeds the parts of it that carry gameplay state (GameState, EventBus,
  the entity collision predicates, Game._checkEnvelopeHits,
  StreetGenerator, and the slow-motion part of SpectacleSystem) and proves
  their specification.

  Numbers.  JavaScript has one number type.  Counters ([score], [lives],
  [combo], ...) only ever hold integers and are modelled in [Z].  Durations,
  speeds and coordinates are modelled as exact rationals [Q]: rounding of
  IEEE doubles is abstracted away, and NaN and the infinities are not
  represented.  Where [Math.sqrt] occurs in a test [Math.sqrt(s) < r], its
  exact real-number meaning is decidable on rationals, see [sqrt_lt]; where
  its result is stored, the function is a parameter.  Theorems that
  compare a timer with the sum of the frame times that have passed are
  stated for frame times that double arithmetic adds up without rounding,
  see [binary_time].

  Rendering (THREE.js meshes, materials, the scene graph), audio and the DOM
  are outside the model. *)

From Stdlib Require Import ZArith QArith Qabs Qround Lia List Bool String.
From Stdlib Require Import Reals Qreals Psatz.
From stdpp Require Import base gmap strings list.

Local Open Scope Z_scope.

(** ** JavaScript number helpers on [Q] *)

(** [a <= b] *)
Definition Qleb (a b : Q) : bool := Qle_bool a b.
(** [a < b] *)
Definition Qltb (a b : Q) : bool := negb (Qle_bool b a).
(** [a > b] *)
Definition Qgtb (a b : Q) : bool := Qltb b a.
(** [a >= b] *)
Definition Qgeb (a b : Q) : bool := Qleb b a.

(** ** core/Constants.js (the constants the embedded code reads) *)

Module GAMEPLAY.
Definition AUTO_SPEED : Q := 8.
Definition SPEED_INCREASE_RATE : Q := 0.15.
Definition MAX_SPEED : Q := 25.
Definition LIVES : Z := 3.
Definition THROW_ANIMATION_DURATION : Q := 0.4.
End GAMEPLAY.

Module COMBO.
Definition TIMEOUT_MS : Q := 3000.
Definition MULTIPLIER_CAP : Z := 10.
End COMBO.

(** ** core/GameState.js *)

Module GameState.

(** The fields of the [gameState] singleton. *)
Record state := mk {
  score : Z;
  bestScore : Z;
  started : bool;
  gameOver : bool;
  lives : Z;
  combo : Z;
  bestCombo : Z;
  currentSpeed : Q;
  housesHit : Z;
  totalThrown : Z;
  isMuted : bool;
  _comboTimer : Q
}.

(** [localStorage]: [None] when access throws (storage unavailable),
    otherwise the stored key/value pairs. *)
Definition Storage := option (gmap string string).

Definition MUTED_KEY : string := "lowball-blitz-muted".

(** [v || 0] for a numeric field that may still be [undefined]. *)
Definition or_zero (v : option Z) : Z :=
  match v with
  | Some x => if x =? 0 then 0 else x
  | None => 0
  end.

(** [try { localStorage.getItem(KEY) === 'true' } catch (_) { false }] *)
Definition read_muted (ls : Storage) : bool :=
  match ls with
  | Some m => bool_decide (m !! MUTED_KEY = Some "true"%string)
  | None => false
  end.

(** [reset()].  [this] is [None] for the freshly allocated object the
    constructor calls it on (every field [undefined]) and [Some s] for a
    later call. *)
Definition reset (ls : Storage) (this : option state) : state :=
  {| score := 0;
     bestScore := or_zero (bestScore <$> this);
     started := false;
     gameOver := false;
     lives := GAMEPLAY.LIVES;
     combo := 0;
     bestCombo := or_zero (bestCombo <$> this);
     currentSpeed := GAMEPLAY.AUTO_SPEED;
     housesHit := 0;
     totalThrown := 0;
     isMuted := match isMuted <$> this with
                | Some m => m
                | None => read_muted ls
                end;
     _comboTimer := 0 |}.

(** [new GameState()] *)
Definition new (ls : Storage) : state := reset ls None.

(** [addScore(points)]; returns [finalPoints] and the updated state. *)
Definition addScore (points : Z) (s : state) : Z * state :=
  let multiplier := Z.min (combo s) COMBO.MULTIPLIER_CAP in
  let finalPoints := points * Z.max 1 multiplier in
  let score' := score s + finalPoints in
  (finalPoints,
   {| score := score';
      bestScore := if bestScore s <? score' then score' else bestScore s;
      started := started s; gameOver := gameOver s; lives := lives s;
      combo := combo s; bestCombo := bestCombo s;
      currentSpeed := currentSpeed s; housesHit := housesHit s;
      totalThrown := totalThrown s; isMuted := isMuted s;
      _comboTimer := _comboTimer s |}).

(** [addScore()] with the default parameter [points = 1]. *)
Definition addScore_default (s : state) : Z * state := addScore 1 s.

Definition incrementCombo (s : state) : state :=
  let combo' := combo s + 1 in
  {| score := score s; bestScore := bestScore s;
     started := started s; gameOver := gameOver s; lives := lives s;
     combo := combo';
     bestCombo := if bestCombo s <? combo' then combo' else bestCombo s;
     currentSpeed := currentSpeed s; housesHit := housesHit s;
     totalThrown := totalThrown s; isMuted := isMuted s;
     _comboTimer := COMBO.TIMEOUT_MS |}.

Definition resetCombo (s : state) : state :=
  {| score := score s; bestScore := bestScore s;
     started := started s; gameOver := gameOver s; lives := lives s;
     combo := 0;
     bestCombo := bestCombo s;
     currentSpeed := currentSpeed s; housesHit := housesHit s;
     totalThrown := totalThrown s; isMuted := isMuted s;
     _comboTimer := 0 |}.

Definition set_comboTimer (t : Q) (s : state) : state :=
  {| score := score s; bestScore := bestScore s;
     started := started s; gameOver := gameOver s; lives := lives s;
     combo := combo s; bestCombo := bestCombo s;
     currentSpeed := currentSpeed s; housesHit := housesHit s;
     totalThrown := totalThrown s; isMuted := isMuted s;
     _comboTimer := t |}.

(** [updateComboTimer(deltaMs)]; returns whether the combo expired. *)
Definition updateComboTimer (deltaMs : Q) (s : state) : bool * state :=
  if (0 <? combo s) && Qgtb (_comboTimer s) 0 then
    let s1 := set_comboTimer (_comboTimer s - deltaMs) s in
    if Qleb (_comboTimer s1) 0 then (true, resetCombo s1)
    else (false, s1)
  else (false, s).

(** [loseLife()]; returns [this.lives <= 0] read after the decrement. *)
Definition loseLife (s : state) : bool * state :=
  let lives' := lives s - 1 in
  (lives' <=? 0,
   {| score := score s; bestScore := bestScore s;
      started := started s; gameOver := gameOver s; lives := lives';
      combo := combo s; bestCombo := bestCombo s;
      currentSpeed := currentSpeed s; housesHit := housesHit s;
      totalThrown := totalThrown s; isMuted := isMuted s;
      _comboTimer := _comboTimer s |}).

(** Field setters used by the other modules ([gameState.f = v]). *)
Definition set_started (b : bool) (s : state) : state :=
  {| score := score s; bestScore := bestScore s;
     started := b; gameOver := gameOver s; lives := lives s;
     combo := combo s; bestCombo := bestCombo s;
     currentSpeed := currentSpeed s; housesHit := housesHit s;
     totalThrown := totalThrown s; isMuted := isMuted s;
     _comboTimer := _comboTimer s |}.

Definition set_gameOver (b : bool) (s : state) : state :=
  {| score := score s; bestScore := bestScore s;
     started := started s; gameOver := b; lives := lives s;
     combo := combo s; bestCombo := bestCombo s;
     currentSpeed := currentSpeed s; housesHit := housesHit s;
     totalThrown := totalThrown s; isMuted := isMuted s;
     _comboTimer := _comboTimer s |}.

Definition set_lives (n : Z) (s : state) : state :=
  {| score := score s; bestScore := bestScore s;
     started := started s; gameOver := gameOver s; lives := n;
     combo := combo s; bestCombo := bestCombo s;
     currentSpeed := currentSpeed s; housesHit := housesHit s;
     totalThrown := totalThrown s; isMuted := isMuted s;
     _comboTimer := _comboTimer s |}.

Definition set_combo (n : Z) (s : state) : state :=
  {| score := score s; bestScore := bestScore s;
     started := started s; gameOver := gameOver s; lives := lives s;
     combo := n; bestCombo := bestCombo s;
     currentSpeed := currentSpeed s; housesHit := housesHit s;
     totalThrown := totalThrown s; isMuted := isMuted s;
     _comboTimer := _comboTimer s |}.

Definition set_currentSpeed (v : Q) (s : state) : state :=
  {| score := score s; bestScore := bestScore s;
     started := started s; gameOver := gameOver s; lives := lives s;
     combo := combo s; bestCombo := bestCombo s;
     currentSpeed := v; housesHit := housesHit s;
     totalThrown := totalThrown s; isMuted := isMuted s;
     _comboTimer := _comboTimer s |}.

Definition set_housesHit (n : Z) (s : state) : state :=
  {| score := score s; bestScore := bestScore s;
     started := started s; gameOver := gameOver s; lives := lives s;
     combo := combo s; bestCombo := bestCombo s;
     currentSpeed := currentSpeed s; housesHit := n;
     totalThrown := totalThrown s; isMuted := isMuted s;
     _comboTimer := _comboTimer s |}.

Definition set_bestScore (n : Z) (s : state) : state :=
  {| score := score s; bestScore := n;
     started := started s; gameOver := gameOver s; lives := lives s;
     combo := combo s; bestCombo := bestCombo s;
     currentSpeed := currentSpeed s; housesHit := housesHit s;
     totalThrown := totalThrown s; isMuted := isMuted s;
     _comboTimer := _comboTimer s |}.

(** The six mutators as a datatype, to speak about arbitrary call
    sequences on the singleton. *)
Inductive op :=
| OpReset
| OpAddScore (points : Z)
| OpIncrementCombo
| OpResetCombo
| OpUpdateComboTimer (deltaMs : Q)
| OpLoseLife.

Definition step (ls : Storage) (s : state) (o : op) : state :=
  match o with
  | OpReset => reset ls (Some s)
  | OpAddScore p => snd (addScore p s)
  | OpIncrementCombo => incrementCombo s
  | OpResetCombo => resetCombo s
  | OpUpdateComboTimer d => snd (updateComboTimer d s)
  | OpLoseLife => snd (loseLife s)
  end.

Definition run (ls : Storage) (ops : list op) (s : state) : state :=
  fold_left (step ls) ops s.

(** The invariant carried through every mutator: the combo is never negative,
    and it is positive exactly when its timer is. *)
Definition combo_inv (s : state) : Prop :=
  0 <= combo s /\ (0 < combo s <-> (0 < _comboTimer s)%Q).

(** Successive calls [updateComboTimer(d)], one for each delta of [ds],
    with nothing in between: the results in order, and the state left. *)
Fixpoint updateComboTimer_calls (ds : list Q) (s : state)
  : list bool * state :=
  match ds with
  | [] => ([], s)
  | d :: rest =>
      let '(expired, s1) := updateComboTimer d s in
      let '(later, s2) := updateComboTimer_calls rest s1 in
      (expired :: later, s2)
  end.

(** The time that has passed after the deltas of [ns]. *)
Definition elapsed_ms (ns : list Z) : Z := fold_right Z.add 0 ns.

(** What the specification says of such calls, in its words: the timer fires
    exactly once, when it first crosses zero.  With [remaining] whole
    milliseconds on the timer, call number [k] (counted from 0) of the calls
    with the whole deltas [ns] is the one that crosses zero when the time
    before it is still short of [remaining] and the time after it is not. *)
Definition spec_expired (remaining : Z) (ns : list Z) (k : nat) : bool :=
  (elapsed_ms (take k ns) <? remaining)
  && (remaining <=? elapsed_ms (take (S k) ns)).

End GameState.

(** ** Vectors and distances *)

Module Vector3.
Record t := mk { x : Q; y : Q; z : Q }.
Definition set_x (v : Q) (p : t) : t := {| x := v; y := y p; z := z p |}.
Definition set_y (v : Q) (p : t) : t := {| x := x p; y := v; z := z p |}.
Definition set_z (v : Q) (p : t) : t := {| x := x p; y := y p; z := v |}.

(** The square of the distance between [p] and [q] in the XZ plane. *)
Definition xz_distance_sq (p q : t) : Q :=
  (x p - x q) * (x p - x q) + (z p - z q) * (z p - z q).

(** Where the code keeps a square root as a value (a normalised direction,
    a flight distance) instead of comparing it, the function computing
    [Math.sqrt] is a parameter [sqrt : Q -> Q]; nothing is assumed about it
    unless a theorem says so. *)

(** three.js [Vector3.normalize()]: [divideScalar(length() || 1)], where
    [divideScalar(s)] multiplies by [1 / s]. *)
Definition normalize (sqrt : Q -> Q) (v : t) : t :=
  let len := sqrt (x v * x v + y v * y v + z v * z v)%Q in
  let d := if Qeq_bool len 0 then 1%Q else len in
  mk (x v * (1 / d)) (y v * (1 / d)) (z v * (1 / d)).
End Vector3.

(** [Math.sqrt(s) < r] for [s >= 0], in exact real arithmetic: the square
    root of [s] is below [r] exactly when [r] is positive and [s < r * r]
    (see [sqrt_lt_real] for the statement on Stdlib's reals). *)
Definition sqrt_lt (s r : Q) : bool := Qltb 0 r && Qltb s (r * r).

(** [Math.abs] *)
Definition Math_abs (a : Q) : Q := Qabs a.
(** [Math.max], [Math.min] *)
Definition Math_max (a b : Q) : Q := if Qleb a b then b else a.
Definition Math_min (a b : Q) : Q := if Qleb a b then a else b.
(** [Math.floor] *)
Definition Math_floor (a : Q) : Z := Qfloor a.

(** Frame times that double arithmetic adds up without rounding: the whole
    multiples of 1/1024 of a second.  A timer counted up from zero or down
    from one of the constants of Constants.js by such times passes the
    code's comparisons as the exact sums do, so that what is proved of the
    rationals below holds of the doubles as well. *)
Definition binary_time (d : Q) : bool :=
  Qleb 0 d && Qeq_bool (inject_Z (Qfloor (d * 1024))) (d * 1024).

(** The part of [Math] that is not arithmetic: the successive results of
    [Math.random()] (each in the interval from 0 to 1), [Math.sin] and
    [Math.PI], as rationals.  Code that calls [Math.random()] threads the
    number of draws made so far. *)
Record MathEnv := {
  random : nat -> Q;
  sin : Q -> Q;
  PI : Q
}.

(** ** More of core/Constants.js *)

Module STREET.
Definition WIDTH : Q := 10.
Definition HOUSE_OFFSET_X : Q := 7.
Definition SIDEWALK_WIDTH : Q := 2.
Definition SEGMENT_LENGTH : Q := 40.
Definition LANE_MARKING_LENGTH : Q := 2.
Definition LANE_MARKING_GAP : Q := 2.
Definition LANE_MIN : Q := -4.
Definition LANE_MAX : Q := 4.
End STREET.

Module ENVELOPE.
Definition SPEED : Q := 30.
Definition MAX_DISTANCE : Q := 40.
Definition ARC_HEIGHT : Q := 1.5.
Definition TARGET_RANGE : Q := 30.
Definition COLLISION_THRESHOLD : Q := 3.
Definition COOLDOWN : Q := 0.35.
End ENVELOPE.

Module HOUSE.
Definition SPACING_Z : Q := 6.
Definition SPAWN_DISTANCE : Q := 80.
Definition CLEANUP_DISTANCE : Q := 20.
Definition COLORS : list Z :=
  [0x7eb8d8; 0xf0e68c; 0xf4a6b8; 0x90c695; 0xf5f5f5; 0xd2b48c; 0xe8c4a0;
   0xb0c4de].
Definition ROOF_COLORS : list Z :=
  [0x8b4513; 0x696969; 0xa0522d; 0x556b2f; 0x800000].
Definition SHAKE_DURATION : Q := 0.3.
Definition SHAKE_INTENSITY : Q := 0.15.
Definition FLASH_DURATION : Q := 0.2.
End HOUSE.

Module PANIC_POINT.
Definition FLOAT_HEIGHT : Q := 0.8.
Definition BOB_AMPLITUDE : Q := 0.15.
Definition BOB_SPEED : Q := 3.
Definition COLLECT_RADIUS : Q := 1.2.
Definition LIFETIME : Q := 8.
Definition FLASH_DURATION : Q := 0.15.
End PANIC_POINT.

Module AGENT.
Definition SPEED : Q := 4.
Definition SPAWN_INTERVAL : Q := 3.
Definition SPAWN_DISTANCE : Q := 50.
Definition COLLISION_RADIUS : Q := 0.7.
Definition MIN_SPAWN_INTERVAL : Q := 1.
End AGENT.

Module PLAYER.
Definition INVINCIBILITY_DURATION : Q := 1.5.
Definition LANE_SPEED : Q := 8.
Definition START_X : Q := 0.
Definition START_Y : Q := 0.
Definition START_Z : Q := 0.
Definition FLASH_RATE : Q := 10.
End PLAYER.

Module SPECTACLE.
Definition NEAR_MISS_SLOWMO_FACTOR : Q := 0.7.
Definition NEAR_MISS_SLOWMO_DURATION : Q := 0.1.
End SPECTACLE.

Module HOMEOWNER.
Definition SPEED : Q := 3.
Definition PANIC_DURATION : Q := 3.
Definition DROP_INTERVAL : Q := 0.4.
End HOMEOWNER.

Module GAME.
Definition MAX_DELTA : Q := 0.05.
End GAME.

(** ** entities/House.js *)

Module House.

(** ['left'] and ['right'] *)
Inductive Side := side_left | side_right.

(** [mesh.position] is the position of the house's group; [bodyColor] is
    the current colour of [body.material]. *)
Record t := mk {
  isHit : bool;
  side : Side;
  position : Vector3.t;
  bodyColor : Z;
  roofColor : Z;
  _shakeTimer : Q;
  _flashTimer : Q;
  _originalBodyColor : Z;
  _baseX : Q
}.

(** [ARR[Math.floor(r * ARR.length)]] *)
Definition pick (arr : list Z) (r : Q) : Z :=
  nth (Z.to_nat (Math_floor (r * inject_Z (Z.of_nat (length arr))))) arr 0.

(** [new House(x, z, side)]: two [Math.random()] draws choose the colours.
    Returns the house and the new draw count. *)
Definition new (M : MathEnv) (rng : nat) (x z : Q) (sd : Side) : t * nat :=
  let bodyColor := pick HOUSE.COLORS (random M rng) in
  let roofColor := pick HOUSE.ROOF_COLORS (random M (S rng)) in
  ({| isHit := false; side := sd;
      position := Vector3.mk x 0 z;
      bodyColor := bodyColor; roofColor := roofColor;
      _shakeTimer := 0; _flashTimer := 0;
      _originalBodyColor := bodyColor; _baseX := x |},
   S (S rng)).

(** [hit()] *)
Definition hit (h : t) : t :=
  if isHit h then h
  else {| isHit := true; side := side h; position := position h;
          bodyColor := 0xffff00; roofColor := roofColor h;
          _shakeTimer := HOUSE.SHAKE_DURATION;
          _flashTimer := HOUSE.FLASH_DURATION;
          _originalBodyColor := _originalBodyColor h; _baseX := _baseX h |}.

Definition set_position (p : Vector3.t) (h : t) : t :=
  {| isHit := isHit h; side := side h; position := p;
     bodyColor := bodyColor h; roofColor := roofColor h;
     _shakeTimer := _shakeTimer h; _flashTimer := _flashTimer h;
     _originalBodyColor := _originalBodyColor h; _baseX := _baseX h |}.

(** The shake half of [update(delta)]. *)
Definition update_shake (M : MathEnv) (rng : nat) (delta : Q) (h : t)
  : t * nat :=
  if Qgtb (_shakeTimer h) 0 then
    let timer := (_shakeTimer h - delta)%Q in
    let intensity :=
      (HOUSE.SHAKE_INTENSITY * (timer / HOUSE.SHAKE_DURATION))%Q in
    let shaken := (_baseX h + (random M rng - 0.5) * intensity * 2)%Q in
    let px := if Qleb timer 0 then _baseX h else shaken in
    ({| isHit := isHit h; side := side h;
        position := Vector3.set_x px (position h);
        bodyColor := bodyColor h; roofColor := roofColor h;
        _shakeTimer := timer; _flashTimer := _flashTimer h;
        _originalBodyColor := _originalBodyColor h; _baseX := _baseX h |},
     S rng)
  else (h, rng).

(** The flash half of [update(delta)]. *)
Definition update_flash (delta : Q) (h : t) : t :=
  if Qgtb (_flashTimer h) 0 then
    let timer := (_flashTimer h - delta)%Q in
    {| isHit := isHit h; side := side h; position := position h;
       bodyColor := if Qleb timer 0 then 0x999999 else bodyColor h;
       roofColor := roofColor h;
       _shakeTimer := _shakeTimer h; _flashTimer := timer;
       _originalBodyColor := _originalBodyColor h; _baseX := _baseX h |}
  else h.

(** [update(delta)] *)
Definition update (M : MathEnv) (rng : nat) (delta : Q) (h : t) : t * nat :=
  let '(h1, rng1) := update_shake M rng delta h in
  (update_flash delta h1, rng1).

End House.

(** ** entities/Envelope.js *)

Module Envelope.

(** The constructor and [update] take square roots (to normalise the
    direction and to measure the flight distance), which have no rational
    value in general; an envelope is therefore represented by the values of
    its fields, and only [checkHouse] is embedded. *)
Record t := mk {
  position : Vector3.t;
  direction : Vector3.t;
  startPos : Vector3.t;
  alive : bool;
  distanceTraveled : Q;
  targetPos : option Vector3.t;
  totalFlightDist : Q
}.

Definition set_alive (b : bool) (e : t) : t :=
  {| position := position e; direction := direction e;
     startPos := startPos e; alive := b;
     distanceTraveled := distanceTraveled e; targetPos := targetPos e;
     totalFlightDist := totalFlightDist e |}.

Definition set_position (p : Vector3.t) (e : t) : t :=
  {| position := p; direction := direction e;
     startPos := startPos e; alive := alive e;
     distanceTraveled := distanceTraveled e; targetPos := targetPos e;
     totalFlightDist := totalFlightDist e |}.

(** [checkHouse(house)] *)
Definition checkHouse (e : t) (house : House.t) : bool :=
  if negb (alive e) || House.isHit house then false
  else
    let dx := (Vector3.x (position e) - Vector3.x (House.position house))%Q in
    let dz := (Vector3.z (position e) - Vector3.z (House.position house))%Q in
    sqrt_lt (dx * dx + dz * dz) ENVELOPE.COLLISION_THRESHOLD.

End Envelope.

(** ** entities/Agent.js *)

Module Agent.

Record t := mk {
  alive : bool;
  hasCollided : bool;
  position : Vector3.t;
  _walkTime : Q
}.

(** [new Agent(x, z)]: one [Math.random()] draw sets the walk phase. *)
Definition new (M : MathEnv) (rng : nat) (x z : Q) : t * nat :=
  ({| alive := true; hasCollided := false;
      position := Vector3.mk x 0 z;
      _walkTime := (random M rng * PI M * 2)%Q |},
   S rng).

(** [update(delta, playerZ)] (the rotations of the model are left out). *)
Definition update (M : MathEnv) (delta playerZ : Q) (a : t) : t :=
  if negb (alive a) then a
  else
    let z' := (Vector3.z (position a) + AGENT.SPEED * delta)%Q in
    let walk := (_walkTime a + delta * 8)%Q in
    let y' := (Math_abs (sin M walk) * 0.08)%Q in
    {| alive := if Qgtb z' (playerZ + 10) then false else true;
       hasCollided := hasCollided a;
       position := Vector3.mk (Vector3.x (position a)) y' z';
       _walkTime := walk |}.

Definition set_position (p : Vector3.t) (a : t) : t :=
  {| alive := alive a; hasCollided := hasCollided a; position := p;
     _walkTime := _walkTime a |}.

(** [checkPlayer(playerPos)] *)
Definition checkPlayer (a : t) (playerPos : Vector3.t) : bool :=
  if negb (alive a) || hasCollided a then false
  else
    let dx := (Vector3.x (position a) - Vector3.x playerPos)%Q in
    let dz := (Vector3.z (position a) - Vector3.z playerPos)%Q in
    sqrt_lt (dx * dx + dz * dz) AGENT.COLLISION_RADIUS.

End Agent.

(** ** entities/PanicPoint.js *)

Module PanicPoint.

Record t := mk {
  alive : bool;
  collected : bool;
  timeAlive : Q;
  _flashTimer : Q;
  position : Vector3.t;
  baseY : Q
}.

(** [new PanicPoint(x, z)] *)
Definition new (x z : Q) : t :=
  {| alive := true; collected := false; timeAlive := 0; _flashTimer := 0;
     position := Vector3.mk x PANIC_POINT.FLOAT_HEIGHT z;
     baseY := PANIC_POINT.FLOAT_HEIGHT |}.

(** [update(delta)] (spin, scale and opacity are left out). *)
Definition update (M : MathEnv) (delta : Q) (p : t) : t :=
  if negb (alive p) then p
  else
    let age := (timeAlive p + delta)%Q in
    let y' := (baseY p + sin M (age * PANIC_POINT.BOB_SPEED)
                         * PANIC_POINT.BOB_AMPLITUDE)%Q in
    let pos := Vector3.set_y y' (position p) in
    if Qgtb (_flashTimer p) 0 then
      let ft := (_flashTimer p - delta)%Q in
      {| alive := if Qleb ft 0 then false else true;
         collected := collected p; timeAlive := age; _flashTimer := ft;
         position := pos; baseY := baseY p |}
    else
      {| alive := if Qgeb age PANIC_POINT.LIFETIME then false else true;
         collected := collected p; timeAlive := age;
         _flashTimer := _flashTimer p;
         position := pos; baseY := baseY p |}.

(** [collect()] *)
Definition collect (p : t) : bool * t :=
  if collected p then (false, p)
  else (true,
        {| alive := alive p; collected := true; timeAlive := timeAlive p;
           _flashTimer := PANIC_POINT.FLASH_DURATION;
           position := position p; baseY := baseY p |}).

Definition set_position (q : Vector3.t) (p : t) : t :=
  {| alive := alive p; collected := collected p; timeAlive := timeAlive p;
     _flashTimer := _flashTimer p; position := q; baseY := baseY p |}.

(** [checkPlayer(playerPos)] *)
Definition checkPlayer (p : t) (playerPos : Vector3.t) : bool :=
  if collected p || negb (alive p) then false
  else
    let dx := (Vector3.x (position p) - Vector3.x playerPos)%Q in
    let dz := (Vector3.z (position p) - Vector3.z playerPos)%Q in
    sqrt_lt (dx * dx + dz * dz) PANIC_POINT.COLLECT_RADIUS.

End PanicPoint.

(** ** core/EventBus.js *)

Module Events.
Definition GAME_OVER : string := "game:over".
Definition PLAYER_DIED : string := "player:died".
Definition PLAYER_HIT : string := "player:hit".
Definition LIVES_CHANGED : string := "lives:changed".
Definition SCORE_CHANGED : string := "score:changed".
Definition HOUSE_HIT : string := "house:hit".
Definition HOMEOWNER_SPAWNED : string := "homeowner:spawned".
Definition COMBO_CHANGED : string := "combo:changed".
Definition SPECTACLE_HIT : string := "spectacle:hit".
Definition SPECTACLE_COMBO : string := "spectacle:combo".
Definition SPECTACLE_STREAK : string := "spectacle:streak".
Definition SPECTACLE_NEAR_MISS : string := "spectacle:near_miss".
Definition ENVELOPE_THROWN : string := "envelope:thrown".
Definition PANIC_COLLECTED : string := "panic:collected".
Definition AGENT_COLLISION : string := "agent:collision".
Definition SPECTACLE_ACTION : string := "spectacle:action".
End Events.

Module EventBus.

(** A callback is a JavaScript function object; [off] compares callbacks by
    identity, so a callback is represented by an identifier, and what the
    function does when called is given separately (see [behaviour]). *)
Definition callback := nat.

(** [this.listeners], a plain object used as a map: the own properties,
    event name to the array of callbacks in the order they were pushed. *)
Record t := mk { listeners : gmap string (list callback) }.

Definition new : t := {| listeners := ∅ |}.

(** The property names a plain object inherits from [Object.prototype]:
    reading [this.listeners[name]] for one of them yields a function (or the
    prototype itself), which is truthy and is not an array. *)
Definition Object_prototype : list string :=
  ["constructor"; "__defineGetter__"; "__defineSetter__"; "hasOwnProperty";
   "__lookupGetter__"; "__lookupSetter__"; "isPrototypeOf";
   "propertyIsEnumerable"; "toString"; "valueOf"; "__proto__";
   "toLocaleString"]%string.

Definition inherited (event : string) : bool :=
  bool_decide (event ∈ Object_prototype).

(** The three things [this.listeners[event]] can be. *)
Inductive property :=
| Undefined
| Listeners (arr : list callback)
| Inherited.

(** [this.listeners[event]] *)
Definition get (b : t) (event : string) : property :=
  match listeners b !! event with
  | Some arr => Listeners arr
  | None => if inherited event then Inherited else Undefined
  end.

(** The callbacks subscribed to [event], in subscription order. *)
Definition subscribers (b : t) (event : string) : list callback :=
  match get b event with
  | Listeners arr => arr
  | _ => []
  end.

(** How a piece of JavaScript code ends: normally, or by throwing. *)
Inductive completion := Normal | Throw (err : string).

(** [on(event, callback)] *)
Definition on (event : string) (cb : callback) (b : t) : t * completion :=
  match get b event with
  | Undefined => ({| listeners := <[event := [cb]]> (listeners b) |}, Normal)
  | Listeners arr =>
      ({| listeners := <[event := arr ++ [cb]]> (listeners b) |}, Normal)
  | Inherited => (b, Throw "TypeError: push is not a function")
  end.

(** [off(event, callback)] *)
Definition off (event : string) (cb : callback) (b : t) : t * completion :=
  match get b event with
  | Undefined => (b, Normal)
  | Listeners arr =>
      ({| listeners :=
            <[event := filter (fun c => c <> cb) arr]> (listeners b) |},
       Normal)
  | Inherited => (b, Throw "TypeError: filter is not a function")
  end.

(** [removeAll()] *)
Definition removeAll (b : t) : t := {| listeners := ∅ |}.

(** Subscribing a list of callbacks one after the other. *)
Definition on_all (event : string) (cbs : list callback) (b : t) : t :=
  fold_left (fun b cb => fst (on event cb b)) cbs b.

Section Emit.
(** [Data] is the type of payloads; [App] is everything else a callback can
    read and write besides the bus and the console. *)
Context {Data App : Type}.

Record world := mkWorld {
  bus : t;
  app : App;
  console : list (string * string)
}.

(** What calling a callback with a payload does: any change of the world
    (subscribing and unsubscribing included), ending normally or throwing. *)
Definition behaviour := callback -> Data -> world -> world * completion.

(** [console.error(msg, err)] *)
Definition console_error (msg err : string) (w : world) : world * completion :=
  ({| bus := bus w; app := app w; console := console w ++ [(msg, err)] |},
   Normal).

(** [try { body } catch (err) { handler(err) }] *)
Definition try_catch (body : world -> world * completion)
  (handler : string -> world -> world * completion) (w : world)
  : world * completion :=
  match body w with
  | (w', Normal) => (w', Normal)
  | (w', Throw err) => handler err w'
  end.

(** [arr.forEach(f)]: [f] is called on the elements the array had when
    [forEach] started, in index order; if a call throws, [forEach] stops and
    throws too.  Besides the outcome, the list of elements [f] was called on
    is returned. *)
Fixpoint forEach (f : callback -> world -> world * completion)
  (arr : list callback) (w : world) : (world * completion) * list callback :=
  match arr with
  | [] => ((w, Normal), [])
  | c :: rest =>
      match f c w with
      | (w', Normal) =>
          let '(r, called) := forEach f rest w' in (r, c :: called)
      | (w', Throw err) => ((w', Throw err), [c])
      end
  end.

(** [emit(event, data)]; returns the outcome and the callbacks called. *)
Definition emit (run : behaviour) (event : string) (data : Data) (w : world)
  : (world * completion) * list callback :=
  match get (bus w) event with
  | Undefined => ((w, Normal), [])
  | Listeners arr =>
      forEach
        (fun cb =>
           try_catch (run cb data)
             (fun err =>
                console_error ("EventBus error in " ++ event ++ ":") err))
        arr w
  | Inherited => ((w, Throw "TypeError: forEach is not a function"), [])
  end.

End Emit.

End EventBus.

(** ** Emitted events, as Game.js records them *)

(** The payload objects passed to [eventBus.emit] by the embedded code. *)
Inductive payload :=
| ComboData (combo : Z)
| ScoreData (score earned : Z)
| HouseHitData (x z : Q) (combo : Z)
| PositionData (x z : Q)
| DistanceData (distance : Q)
| LivesData (lives : Z)
| GameOverData (score housesHit bestCombo : Z)
| NoData.

Record emitted := mkEmitted { topic : string; data : payload }.

(** ** entities/Homeowner.js *)

Module Homeowner.

(** The class [Homeowner] (the sources hold entities/Homeowner.js behind
    ui/Menu.js).  The meshes and their animation are left out; [position]
    is [mesh.position]; a pending drop is the pair of its [x] and [z]. *)
Record t := mk {
  alive : bool;
  timeAlive : Q;
  dropTimer : Q;
  pendingDrops : list (Q * Q);
  position : Vector3.t;
  runDir : Vector3.t
}.

(** [new Homeowner(housePos, side)].  [modelLoaded] tells whether the shared
    model template is there; without it [_buildPrimitive()] draws a random
    colour first. *)
Definition new (M : MathEnv) (sqrt : Q -> Q) (rng : nat) (modelLoaded : bool)
  (housePos : Vector3.t) (side : House.Side) : t * nat :=
  let exitX := match side with
               | House.side_left => (Vector3.x housePos + 2)%Q
               | House.side_right => (Vector3.x housePos - 2)%Q
               end in
  let rng1 := if modelLoaded then rng else S rng in
  let awayX := match side with
               | House.side_left => 1%Q
               | House.side_right => (-1)%Q
               end in
  ({| alive := true; timeAlive := 0; dropTimer := 0; pendingDrops := [];
      position := Vector3.mk exitX 0 (Vector3.z housePos);
      runDir :=
        Vector3.normalize sqrt
          (Vector3.mk (awayX * (0.5 + random M rng1 * 0.5)) 0
                      ((random M (S rng1) - 0.5) * 2)) |},
   S (S rng1)).

(** [update(delta)] *)
Definition update (M : MathEnv) (sqrt : Q -> Q) (rng : nat) (delta : Q)
  (h : t) : t * nat :=
  if negb (alive h) then (h, rng)
  else
    let age := (timeAlive h + delta)%Q in
    let step := (HOMEOWNER.SPEED * delta)%Q in
    let pos :=
      Vector3.mk (Vector3.x (position h) + Vector3.x (runDir h) * step)
                 (Vector3.y (position h) + Vector3.y (runDir h) * step)
                 (Vector3.z (position h) + Vector3.z (runDir h) * step) in
    let turn := Qltb (random M rng) (delta * 2) in
    let dir :=
      if turn then
        Vector3.normalize sqrt
          (Vector3.mk
             (Vector3.x (runDir h) + (random M (S rng) - 0.5) * 0.5)
             (Vector3.y (runDir h))
             (Vector3.z (runDir h) + (random M (S (S rng)) - 0.5) * 0.5))
      else runDir h in
    let rng1 := if turn then S (S (S rng)) else S rng in
    let timer := (dropTimer h + delta)%Q in
    let dropping := Qgeb timer HOMEOWNER.DROP_INTERVAL in
    ({| alive := if Qgeb age HOMEOWNER.PANIC_DURATION then false else true;
        timeAlive := age;
        dropTimer := if dropping then (timer - HOMEOWNER.DROP_INTERVAL)%Q
                     else timer;
        pendingDrops :=
          if dropping
          then pendingDrops h ++ [(Vector3.x pos, Vector3.z pos)]
          else pendingDrops h;
        position := pos;
        runDir := dir |},
     rng1).

(** [consumeDrops()] *)
Definition consumeDrops (h : t) : list (Q * Q) * t :=
  (pendingDrops h,
   {| alive := alive h; timeAlive := timeAlive h; dropTimer := dropTimer h;
      pendingDrops := []; position := position h; runDir := runDir h |}).

(** A homeowner's life: updates, and [consumeDrops()] calls in between.
    The state keeps the homeowner, the number of drops consumed so far, and
    the count of random draws. *)
Inductive op :=
| Update (delta : Q)
| Consume.

Definition step (M : MathEnv) (sqrt : Q -> Q) (st : t * nat * nat) (o : op)
  : t * nat * nat :=
  let '(h, consumed, rng) := st in
  match o with
  | Update delta =>
      let '(h', rng') := update M sqrt rng delta h in (h', consumed, rng')
  | Consume =>
      let '(drops, h') := consumeDrops h in
      (h', (consumed + length drops)%nat, rng)
  end.

Definition run (M : MathEnv) (sqrt : Q -> Q) (ops : list op)
  (st : t * nat * nat) : t * nat * nat :=
  fold_left (step M sqrt) ops st.

(** The frame times [Game.animate] passes on: between 0 and
    [GAME.MAX_DELTA]. *)
Definition frame_time (o : op) : Prop :=
  match o with
  | Update delta => (0 <= delta <= GAME.MAX_DELTA)%Q
  | Consume => True
  end.

(** All the drops of a homeowner so far, consumed or pending. *)
Definition dropped (st : t * nat * nat) : nat :=
  (snd (fst st) + length (pendingDrops (fst (fst st))))%nat.

(** In exact arithmetic the drop timer accounts for the whole age of the
    homeowner; the bound on the number of drops is proved from this. *)
Definition inv (st : t * nat * nat) : Prop :=
  (0 <= dropTimer (fst (fst st)))%Q
  /\ (HOMEOWNER.DROP_INTERVAL * inject_Z (Z.of_nat (dropped st))
      + dropTimer (fst (fst st))
      == timeAlive (fst (fst st)))%Q
  /\ (timeAlive (fst (fst st)) < HOMEOWNER.PANIC_DURATION + GAME.MAX_DELTA)%Q
  /\ (alive (fst (fst st)) = true ->
      (timeAlive (fst (fst st)) < HOMEOWNER.PANIC_DURATION)%Q).

End Homeowner.

(** ** systems/StreetGenerator.js *)

Module StreetGenerator.

(** [scene] and the shared materials are left out; a street segment is
    represented by the position of its mesh, which is all [_cleanup] reads.
    [draws] counts the calls of [Math.random()] made so far. *)
Record t := mk {
  houses : list House.t;
  agents : list Agent.t;
  streetSegments : list Vector3.t;
  _generatedZ : Q;
  _lastStreetEnd : Q;
  _agentTimer : Q;
  draws : nat
}.

Definition set_generatedZ (v : Q) (s : t) : t :=
  {| houses := houses s; agents := agents s;
     streetSegments := streetSegments s; _generatedZ := v;
     _lastStreetEnd := _lastStreetEnd s; _agentTimer := _agentTimer s;
     draws := draws s |}.

Definition set_houses (hs : list House.t) (n : nat) (s : t) : t :=
  {| houses := hs; agents := agents s;
     streetSegments := streetSegments s; _generatedZ := _generatedZ s;
     _lastStreetEnd := _lastStreetEnd s; _agentTimer := _agentTimer s;
     draws := n |}.

Definition set_agents (l : list Agent.t) (s : t) : t :=
  {| houses := houses s; agents := l;
     streetSegments := streetSegments s; _generatedZ := _generatedZ s;
     _lastStreetEnd := _lastStreetEnd s; _agentTimer := _agentTimer s;
     draws := draws s |}.

Definition set_streetSegments (l : list Vector3.t) (s : t) : t :=
  {| houses := houses s; agents := agents s;
     streetSegments := l; _generatedZ := _generatedZ s;
     _lastStreetEnd := _lastStreetEnd s; _agentTimer := _agentTimer s;
     draws := draws s |}.

(** An upper bound on the number of passes of a loop
    [for (v = start; v > stop; v -= step)] with [step > 0]. *)
Definition passes (start stop step : Q) : nat :=
  Z.to_nat (Qceiling ((start - stop) / step)).

(** One side of [_generateRow]: [if (Math.random() > 0.2)] build and push a
    house. *)
Definition maybe_house (M : MathEnv) (x z : Q) (sd : House.Side) (s : t) : t :=
  let r := random M (draws s) in
  let n := S (draws s) in
  if Qgtb r 0.2 then
    let '(house, n') := House.new M n x z sd in
    set_houses (houses s ++ [house]) n' s
  else set_houses (houses s) n s.

(** [_generateRow(z)] *)
Definition _generateRow (M : MathEnv) (z : Q) (s : t) : t :=
  let s1 := maybe_house M (- STREET.HOUSE_OFFSET_X) z House.side_left s in
  maybe_house M STREET.HOUSE_OFFSET_X z House.side_right s1.

(** [while (this._generatedZ > limit) { this._generateRow(this._generatedZ);
    this._generatedZ -= HOUSE.SPACING_Z; }], run for at most [fuel] passes. *)
Fixpoint generate_rows (M : MathEnv) (fuel : nat) (limit : Q) (s : t) : t :=
  match fuel with
  | O => s
  | S fuel' =>
      if Qgtb (_generatedZ s) limit then
        let s1 := _generateRow M (_generatedZ s) s in
        generate_rows M fuel' limit
          (set_generatedZ (_generatedZ s1 - HOUSE.SPACING_Z) s1)
      else s
  end.

(** What the row loop does to the high-water mark alone. *)
Fixpoint rows_z (fuel : nat) (limit g : Q) : Q :=
  match fuel with
  | O => g
  | S fuel' =>
      if Qgtb g limit then rows_z fuel' limit (g - HOUSE.SPACING_Z) else g
  end.

(** The row loop with the number of passes it needs. *)
Definition generate_rows_until (M : MathEnv) (limit : Q) (s : t) : t :=
  generate_rows M (passes (_generatedZ s) limit HOUSE.SPACING_Z) limit s.

(** The lane markings of [_generateStreetSurface]:
    [for (let z = startZ; z > endZ; z -= LENGTH + GAP)]. *)
Fixpoint lane_markings (fuel : nat) (z endZ : Q) : list Vector3.t :=
  match fuel with
  | O => []
  | S fuel' =>
      if Qgtb z endZ then
        Vector3.mk 0 0.03 z
        :: lane_markings fuel'
             (z - (STREET.LANE_MARKING_LENGTH + STREET.LANE_MARKING_GAP)) endZ
      else []
  end.

(** [_generateStreetSurface(startZ, endZ)] *)
Definition _generateStreetSurface (startZ endZ : Q) (s : t) : t :=
  let centerZ := ((startZ + endZ) / 2)%Q in
  let side := (STREET.WIDTH / 2 + STREET.SIDEWALK_WIDTH / 2)%Q in
  let grass := (STREET.WIDTH / 2 + STREET.SIDEWALK_WIDTH + 4)%Q in
  set_streetSegments
    (streetSegments s
     ++ [Vector3.mk 0 0.01 centerZ;
         Vector3.mk (- side) 0.02 centerZ;
         Vector3.mk side 0.02 centerZ;
         Vector3.mk (- grass) 0 centerZ;
         Vector3.mk grass 0 centerZ]
     ++ lane_markings
          (passes startZ endZ
             (STREET.LANE_MARKING_LENGTH + STREET.LANE_MARKING_GAP))
          startZ endZ)
    s.

(** [_generateInitial()] *)
Definition _generateInitial (M : MathEnv) (s : t) : t :=
  let s1 := generate_rows_until M (- HOUSE.SPAWN_DISTANCE) s in
  _generateStreetSurface 20 (_lastStreetEnd s1) s1.

(** The field initialisers shared by the constructor and [reset()]. *)
Definition blank (n : nat) : t :=
  {| houses := []; agents := []; streetSegments := [];
     _generatedZ := 10;
     _lastStreetEnd := - HOUSE.SPAWN_DISTANCE - 20;
     _agentTimer := AGENT.SPAWN_INTERVAL;
     draws := n |}.

(** [new StreetGenerator(scene)], with [n] random draws made before. *)
Definition new (M : MathEnv) (n : nat) : t := _generateInitial M (blank n).

(** [reset()] *)
Definition reset (M : MathEnv) (s : t) : t :=
  _generateInitial M (blank (draws s)).

(** [for (const house of this.houses) house.update(delta)] *)
Fixpoint update_houses (M : MathEnv) (delta : Q) (hs : list House.t)
  (n : nat) : list House.t * nat :=
  match hs with
  | [] => ([], n)
  | h :: rest =>
      let '(h', n1) := House.update M n delta h in
      let '(rest', n2) := update_houses M delta rest n1 in
      (h' :: rest', n2)
  end.

(** [_spawnAgent(playerZ)] *)
Definition _spawnAgent (M : MathEnv) (playerZ : Q) (s : t) : t :=
  let laneX := ((random M (draws s) - 0.5) * (STREET.WIDTH - 1))%Q in
  let spawnZ := (playerZ - AGENT.SPAWN_DISTANCE)%Q in
  let '(agent, n) := Agent.new M (S (draws s)) laneX spawnZ in
  {| houses := houses s; agents := agents s ++ [agent];
     streetSegments := streetSegments s; _generatedZ := _generatedZ s;
     _lastStreetEnd := _lastStreetEnd s; _agentTimer := _agentTimer s;
     draws := n |}.

(** The agent-spawning part of [update]. *)
Definition spawn_tick (M : MathEnv) (currentSpeed delta playerZ : Q) (s : t)
  : t :=
  let timer := (_agentTimer s - delta)%Q in
  if Qleb timer 0 then
    let s1 := _spawnAgent M playerZ s in
    let speedRatio := (currentSpeed / 25)%Q in
    let interval :=
      Math_max AGENT.MIN_SPAWN_INTERVAL
               (AGENT.SPAWN_INTERVAL * (1 - speedRatio * 0.5)) in
    {| houses := houses s1; agents := agents s1;
       streetSegments := streetSegments s1; _generatedZ := _generatedZ s1;
       _lastStreetEnd := _lastStreetEnd s1;
       _agentTimer :=
         (interval + (random M (draws s1) - 0.5) * interval * 0.5)%Q;
       draws := S (draws s1) |}
  else
    {| houses := houses s; agents := agents s;
       streetSegments := streetSegments s; _generatedZ := _generatedZ s;
       _lastStreetEnd := _lastStreetEnd s; _agentTimer := timer;
       draws := draws s |}.

(** [_cleanup(playerZ)]: the three backward [splice] loops keep, in order,
    the elements that fail the removal test. *)
Definition _cleanup (playerZ : Q) (s : t) : t :=
  {| houses :=
       List.filter
         (fun h => negb (Qgtb (Vector3.z (House.position h))
                              (playerZ + HOUSE.CLEANUP_DISTANCE)))
         (houses s);
     agents := List.filter Agent.alive (agents s);
     streetSegments :=
       List.filter (fun seg => negb (Qgtb (Vector3.z seg) (playerZ + 40)))
                   (streetSegments s);
     _generatedZ := _generatedZ s;
     _lastStreetEnd := _lastStreetEnd s; _agentTimer := _agentTimer s;
     draws := draws s |}.

(** The street-extension part of [update]. *)
Definition extend_street (playerZ : Q) (s : t) : t :=
  if Qltb (playerZ - 40) (_lastStreetEnd s) then
    let newEnd := (_lastStreetEnd s - STREET.SEGMENT_LENGTH)%Q in
    let s1 := _generateStreetSurface (_lastStreetEnd s) newEnd s in
    {| houses := houses s1; agents := agents s1;
       streetSegments := streetSegments s1; _generatedZ := _generatedZ s1;
       _lastStreetEnd := newEnd; _agentTimer := _agentTimer s1;
       draws := draws s1 |}
  else s.

(** [update(delta, playerZ)]; [currentSpeed] is [gameState.currentSpeed]. *)
Definition update (M : MathEnv) (currentSpeed delta playerZ : Q) (s : t) : t :=
  let s1 := generate_rows_until M (playerZ - HOUSE.SPAWN_DISTANCE) s in
  let s2 := extend_street playerZ s1 in
  let '(hs, n) := update_houses M delta (houses s2) (draws s2) in
  let s3 := set_houses hs n s2 in
  let s4 := spawn_tick M currentSpeed delta playerZ s3 in
  let s5 := set_agents (map (Agent.update M delta playerZ) (agents s4)) s4 in
  _cleanup playerZ s5.

(** One frame's arguments to [update]. *)
Record frame := mkFrame {
  frame_speed : Q;
  frame_delta : Q;
  frame_playerZ : Q
}.

(** A sequence of [update] calls, one per frame. *)
Definition run_updates (M : MathEnv) (frames : list frame) (s : t) : t :=
  fold_left
    (fun s f => update M (frame_speed f) (frame_delta f) (frame_playerZ f) s)
    frames s.

(** The positions in [l], counted from [i], of the elements that pass [p]:
    a filtered array holds references to the objects of the original one. *)
Fixpoint indices_where {A : Type} (p : A -> bool) (l : list A) (i : nat)
  : list nat :=
  match l with
  | [] => []
  | a :: rest =>
      if p a then i :: indices_where p rest (S i)
      else indices_where p rest (S i)
  end.

(** [getHousesInRange(z, range)], as indices into [houses]. *)
Definition getHousesInRange (z range : Q) (hs : list House.t) : list nat :=
  indices_where
    (fun h => negb (House.isHit h)
              && Qltb (Math_abs (Vector3.z (House.position h) - z)) range)
    hs 0.

(** [getAgentsInRange(z, range)], as indices into [agents]. *)
Definition getAgentsInRange (z range : Q) (l : list Agent.t) : list nat :=
  indices_where
    (fun a => Agent.alive a && negb (Agent.hasCollided a)
              && Qltb (Math_abs (Vector3.z (Agent.position a) - z)) range)
    l 0.

End StreetGenerator.

(** ** The layout of the houses along the street *)

Module Layout.

(** The X coordinate of the row of houses on one side of the street. *)
Definition row_x (sd : House.Side) : Q :=
  match sd with
  | House.side_left => - STREET.HOUSE_OFFSET_X
  | House.side_right => STREET.HOUSE_OFFSET_X
  end.

(** A house that has not been hit has never shaken: it stands on its row. *)
Definition at_rest (h : House.t) : Prop :=
  House.isHit h = false ->
  House._shakeTimer h = 0%Q
  /\ Vector3.x (House.position h) = row_x (House.side h).

(** [h] stands at least one row spacing further back than [h'], or on the
    other side of the street. *)
Definition apart (h h' : House.t) : Prop :=
  (HOUSE.SPACING_Z
   <= Vector3.z (House.position h) - Vector3.z (House.position h'))%Q
  \/ House.side h <> House.side h'.

(** Every house is [apart] from the houses that come after it in the
    array. *)
Fixpoint rows_apart (hs : list House.t) : Prop :=
  match hs with
  | [] => True
  | h :: rest => Forall (apart h) rest /\ rows_apart rest
  end.

(** The layout of [streetGen.houses]. *)
Definition street (hs : list House.t) : Prop :=
  Forall at_rest hs /\ rows_apart hs.

(** [h] stands in a row generated before the row at [g]. *)
Definition behind (g : Q) (h : House.t) : Prop :=
  (g + HOUSE.SPACING_Z <= Vector3.z (House.position h))%Q.

(** The layout together with the high-water mark [_generatedZ]. *)
Definition ok (g : Q) (hs : list House.t) : Prop :=
  street hs /\ Forall (behind g) hs.

(** [h'] is the house [h] at a later time: on the same plot, and still at
    rest if it was. *)
Definition later (h h' : House.t) : Prop :=
  Vector3.z (House.position h') = Vector3.z (House.position h)
  /\ House.side h' = House.side h
  /\ (at_rest h -> at_rest h').

(** Everything that writes [streetGen.houses] or a house in it: the
    generator's [update] and [reset], and [house.hit()] from the collision
    pass of [Game]. *)
Inductive change :=
| Updated (f : StreetGenerator.frame)
| HouseHit (i : nat)
| WasReset.

Definition apply (M : MathEnv) (s : StreetGenerator.t) (c : change)
  : StreetGenerator.t :=
  match c with
  | Updated f =>
      StreetGenerator.update M (StreetGenerator.frame_speed f)
        (StreetGenerator.frame_delta f) (StreetGenerator.frame_playerZ f) s
  | HouseHit i =>
      match StreetGenerator.houses s !! i with
      | Some h =>
          StreetGenerator.set_houses
            (<[i := House.hit h]> (StreetGenerator.houses s))
            (StreetGenerator.draws s) s
      | None => s
      end
  | WasReset => StreetGenerator.reset M s
  end.

(** The generator after a history of changes, starting from its
    construction with [n] random draws made before. *)
Definition history (M : MathEnv) (n : nat) (cs : list change)
  : StreetGenerator.t :=
  fold_left (apply M) cs (StreetGenerator.new M n).

End Layout.

(** ** core/Game.js: the envelope/house collision pass *)

Module Game.

(** What [_checkEnvelopeHits] depends on besides the objects it reads and
    writes: [Math]; the square root behind [Vector3.normalize()]; whether
    the shared homeowner model is there ([_modelTemplate &&
    !_modelLoadFailed] in entities/Homeowner.js, which no code of the pass
    changes); and the subscribers of the events, of which only their calls
    of [Math.random()] matter here (the particle effects of SpectacleSystem
    draw random numbers): [heard evs] is how many such calls the
    subscribers make when the last event of [evs] is emitted after the
    earlier ones. *)
Record env := mkEnv {
  math : MathEnv;
  sqrt : Q -> Q;
  modelLoaded : bool;
  heard : list emitted -> nat
}.

(** The objects [_checkEnvelopeHits] reads and writes: the [gameState]
    singleton, [player.envelopes] and the player's position,
    [streetGen.houses], [this.homeowners], the events passed to
    [eventBus.emit], oldest first, and the number of [Math.random()] calls
    made so far.  The subscribers of these events do not write to any of
    the other objects. *)
Record t := mk {
  gameState : GameState.state;
  envelopes : list Envelope.t;
  playerPos : Vector3.t;
  houses : list House.t;
  homeowners : list Homeowner.t;
  events : list emitted;
  draws : nat
}.

Definition emit (E : env) (topic : string) (data : payload) (g : t) : t :=
  let evs := events g ++ [mkEmitted topic data] in
  {| gameState := gameState g; envelopes := envelopes g;
     playerPos := playerPos g; houses := houses g;
     homeowners := homeowners g;
     events := evs; draws := (draws g + heard E evs)%nat |}.

Definition set_gameState (gs : GameState.state) (g : t) : t :=
  {| gameState := gs; envelopes := envelopes g;
     playerPos := playerPos g; houses := houses g;
     homeowners := homeowners g; events := events g; draws := draws g |}.

Definition set_envelopes (es : list Envelope.t) (g : t) : t :=
  {| gameState := gameState g; envelopes := es;
     playerPos := playerPos g; houses := houses g;
     homeowners := homeowners g; events := events g; draws := draws g |}.

Definition set_houses (hs : list House.t) (g : t) : t :=
  {| gameState := gameState g; envelopes := envelopes g;
     playerPos := playerPos g; houses := hs;
     homeowners := homeowners g; events := events g; draws := draws g |}.

Definition set_draws (rng : nat) (g : t) : t :=
  {| gameState := gameState g; envelopes := envelopes g;
     playerPos := playerPos g; houses := houses g;
     homeowners := homeowners g; events := events g; draws := rng |}.

Definition push_homeowner (hw : Homeowner.t) (g : t) : t :=
  {| gameState := gameState g; envelopes := envelopes g;
     playerPos := playerPos g; houses := houses g;
     homeowners := homeowners g ++ [hw]; events := events g;
     draws := draws g |}.

(** [_spawnHomeowner(house)] *)
Definition _spawnHomeowner (E : env) (house : House.t) (g : t) : t :=
  let spawned := Homeowner.new (math E) (sqrt E) (draws g) (modelLoaded E)
                               (House.position house) (House.side house) in
  let g1 := push_homeowner (fst spawned) (set_draws (snd spawned) g) in
  emit E Events.HOMEOWNER_SPAWNED
       (PositionData (Vector3.x (House.position house))
                     (Vector3.z (House.position house))) g1.

(** [if (c) eventBus.emit(topic, data)] *)
Definition emit_if (E : env) (c : bool) (topic : string) (data : payload)
  (g : t) : t :=
  if c then emit E topic data g else g.

(** The body of [if (envelope.checkHouse(house)) { ... }], apart from
    [envelope.alive = false] and the [break]; [i] is where [house] sits in
    [houses]. *)
Definition register_hit (E : env) (i : nat) (house : House.t) (g : t) : t :=
  let house' := House.hit house in
  let g1 := set_houses (<[i := house']> (houses g)) g in
  let gs1 := GameState.set_housesHit
               (GameState.housesHit (gameState g1) + 1) (gameState g1) in
  let gs2 := GameState.incrementCombo gs1 in
  let combo := GameState.combo gs2 in
  let g2 := emit E Events.COMBO_CHANGED (ComboData combo)
                 (set_gameState gs2 g1) in
  let '(earned, gs3) := GameState.addScore 1 gs2 in
  let g3 := emit E Events.SCORE_CHANGED
                 (ScoreData (GameState.score gs3) earned)
                 (set_gameState gs3 g2) in
  let g4 := emit E Events.HOUSE_HIT
                 (HouseHitData (Vector3.x (House.position house'))
                               (Vector3.z (House.position house')) combo)
                 g3 in
  let g5 := emit E Events.SPECTACLE_HIT (ComboData combo) g4 in
  let g6 :=
    emit_if E (3 <=? combo) Events.SPECTACLE_COMBO (ComboData combo) g5 in
  let g7 :=
    emit_if E (5 <=? combo) Events.SPECTACLE_STREAK (ComboData combo) g6 in
  _spawnHomeowner E house' g7.

(** The inner loop [for (const house of nearbyHouses)] for one live
    envelope.  [nearby] holds references into [houses], so the loop sees
    the hits registered earlier in the same pass. *)
Fixpoint scan_houses (E : env) (nearby : list nat) (envelope : Envelope.t)
  (g : t) : Envelope.t * t :=
  match nearby with
  | [] => (envelope, g)
  | i :: rest =>
      match houses g !! i with
      | None => scan_houses E rest envelope g
      | Some house =>
          if House.isHit house then scan_houses E rest envelope g
          else if Envelope.checkHouse envelope house then
            (Envelope.set_alive false envelope, register_hit E i house g)
          else scan_houses E rest envelope g
      end
  end.

(** The outer loop [for (const envelope of this.player.envelopes)]. *)
Fixpoint scan_envelopes (E : env) (nearby : list nat) (es : list Envelope.t)
  (g : t) : list Envelope.t * t :=
  match es with
  | [] => ([], g)
  | envelope :: rest =>
      if negb (Envelope.alive envelope) then
        let '(rest', g') := scan_envelopes E nearby rest g in
        (envelope :: rest', g')
      else
        let '(envelope', g1) := scan_houses E nearby envelope g in
        let '(rest', g2) := scan_envelopes E nearby rest g1 in
        (envelope' :: rest', g2)
  end.

(** [_checkEnvelopeHits()] *)
Definition _checkEnvelopeHits (E : env) (g : t) : t :=
  let playerZ := Vector3.z (playerPos g) in
  let nearbyHouses := StreetGenerator.getHousesInRange playerZ 50 (houses g) in
  let '(es, g') := scan_envelopes E nearbyHouses (envelopes g) g in
  set_envelopes es g'.

(** How many houses are hit, how many envelopes are alive. *)
Definition count_hit (hs : list House.t) : nat :=
  length (List.filter House.isHit hs).
Definition count_alive (es : list Envelope.t) : nat :=
  length (List.filter Envelope.alive es).

(** How many of the events carry the given topic. *)
Definition count_topic (tp : string) (l : list emitted) : nat :=
  length (List.filter (fun ev => String.eqb (topic ev) tp) l).

End Game.

(** ** gameplay/Player.js: the speed ramp of [update] *)

Module Player.

(** The damage state of the player; position, envelopes and animation are
    not needed here. *)
Record t := mk {
  _invincibleTimer : Q;
  _flashAccum : Q
}.

(** The constructor's values. *)
Definition new : t := {| _invincibleTimer := 0; _flashAccum := 0 |}.

(** [takeDamage()]; returns the events emitted as well. *)
Definition takeDamage (pl : t) (gs : GameState.state)
  : t * GameState.state * list emitted :=
  if Qgtb (_invincibleTimer pl) 0 then (pl, gs, [])
  else
    let '(isDead, gs1) := GameState.loseLife gs in
    let pl1 := {| _invincibleTimer := PLAYER.INVINCIBILITY_DURATION;
                  _flashAccum := 0 |} in
    let hit_events :=
      [mkEmitted Events.PLAYER_HIT (LivesData (GameState.lives gs1));
       mkEmitted Events.LIVES_CHANGED (LivesData (GameState.lives gs1))] in
    if isDead then
      let gs2 := GameState.set_gameOver true gs1 in
      (pl1, gs2,
       hit_events
       ++ [mkEmitted Events.PLAYER_DIED NoData;
           mkEmitted Events.GAME_OVER
             (GameOverData (GameState.score gs2) (GameState.housesHit gs2)
                           (GameState.bestCombo gs2))])
    else (pl1, gs1, hit_events).

(** The invincibility countdown of [update]. *)
Definition tick_invincibility (delta : Q) (pl : t) : t :=
  if Qgtb (_invincibleTimer pl) 0 then
    {| _invincibleTimer := (_invincibleTimer pl - delta)%Q;
       _flashAccum := (_flashAccum pl + delta)%Q |}
  else pl.

(** [if (gameState.currentSpeed < MAX_SPEED) { currentSpeed += RATE * delta;
    if (currentSpeed > MAX_SPEED) currentSpeed = MAX_SPEED; }] *)
Definition increase_speed (delta : Q) (gs : GameState.state)
  : GameState.state :=
  if Qltb (GameState.currentSpeed gs) GAMEPLAY.MAX_SPEED then
    let v := (GameState.currentSpeed gs
              + GAMEPLAY.SPEED_INCREASE_RATE * delta)%Q in
    GameState.set_currentSpeed
      (if Qgtb v GAMEPLAY.MAX_SPEED then GAMEPLAY.MAX_SPEED else v) gs
  else gs.

End Player.

(** ** The life count over a whole play session *)

Module Session.

(** The player's damage state and the [gameState] singleton. *)
Definition state : Type := Player.t * GameState.state.

(** [Game.startGame()]: [gameState.reset(); gameState.started = true;] and a
    new player. *)
Definition startGame (ls : GameState.Storage) (gs : GameState.state) : state :=
  (Player.new, GameState.set_started true (GameState.reset ls (Some gs))).

(** The first [startGame()], from the constructor of [Game]. *)
Definition boot (ls : GameState.Storage) : state :=
  startGame ls (GameState.new ls).

(** [gameState.started && !gameState.gameOver] ([this.player] is set by
    [startGame]). *)
Definition gate (st : state) : bool :=
  GameState.started (snd st) && negb (GameState.gameOver (snd st)).

(** [Player.update(delta, input)] as far as it writes the damage state and
    [gameState]; it returns at once while the model is still loading. *)
Definition player_update (ready : bool) (delta : Q) (st : state) : state :=
  if ready then
    (Player.tick_invincibility delta (fst st),
     snd (GameState.updateComboTimer (delta * 1000)
            (Player.increase_speed delta (snd st))))
  else st.

(** One hit registered by [_checkEnvelopeHits]. *)
Definition house_hit (st : state) : state :=
  let gs1 := GameState.set_housesHit
               (GameState.housesHit (snd st) + 1) (snd st) in
  (fst st, snd (GameState.addScore 1 (GameState.incrementCombo gs1))).

(** [_checkAgentCollisions()] when some agent in reach overlaps the player:
    the first such agent is handled and the loop breaks. *)
Definition agent_collision (st : state) : state :=
  if Qgtb (Player._invincibleTimer (fst st)) 0 then st
  else
    let '(pl, gs, _) := Player.takeDamage (fst st) (snd st) in
    (pl, GameState.resetCombo gs).

(** One pickup collected by [_checkPanicCollection]. *)
Definition panic_collected (st : state) : state :=
  (fst st, snd (GameState.addScore 1 (snd st))).

(** What happens in one frame: whether the player model is loaded, the
    frame time, how many envelopes hit a house, whether an agent overlaps
    the player, how many pickups are collected. *)
Record frame := mkFrame {
  ready : bool;
  delta : Q;
  houseHits : nat;
  agentOverlap : bool;
  pickups : nat
}.

(** The part of [Game.animate()] behind the gate, as far as it writes the
    damage state and [gameState] (the slow motion of the spectacle system
    only writes [currentSpeed]). *)
Definition animate (f : frame) (st : state) : state :=
  if gate st then
    let st1 := player_update (ready f) (delta f) st in
    let st2 := Nat.iter (houseHits f) house_hit st1 in
    let st3 := if agentOverlap f then agent_collision st2 else st2 in
    Nat.iter (pickups f) panic_collected st3
  else st.

(** A session is a sequence of frames and restarts ([Game.restart()]). *)
Inductive action :=
| Frame (f : frame)
| Restart.

Definition step (ls : GameState.Storage) (st : state) (a : action) : state :=
  match a with
  | Frame f => animate f st
  | Restart => startGame ls (snd st)
  end.

Definition run (ls : GameState.Storage) (acts : list action) (st : state)
  : state :=
  fold_left (step ls) acts st.

(** Alive players have at least one life; nobody has fewer than none. *)
Definition lives_inv (st : state) : Prop :=
  0 <= GameState.lives (snd st)
  /\ (GameState.gameOver (snd st) = false -> 1 <= GameState.lives (snd st)).

(** Same life count and same game-over flag. *)
Definition same_lives (st st' : state) : Prop :=
  GameState.lives (snd st') = GameState.lives (snd st)
  /\ GameState.gameOver (snd st') = GameState.gameOver (snd st).

End Session.

(** ** systems/SpectacleSystem.js: near-miss slow motion *)

Module SpectacleSystem.

(** The fields the slow-motion effect uses; particles, flashes, shake,
    lights, floating texts and camera offsets are presentation only. *)
Record t := mk {
  _slowMoTimer : Q;
  _slowMoDuration : Q;
  _slowMoOriginalSpeed : Q;
  _lastPlayerPos : option Vector3.t
}.

(** The constructor leaves [_lastPlayerPos] undefined. *)
Definition new : t :=
  {| _slowMoTimer := 0; _slowMoDuration := 0; _slowMoOriginalSpeed := 0;
     _lastPlayerPos := None |}.

(** [_onNearMiss()] (the particle burst is left out). *)
Definition _onNearMiss (sp : t) (gs : GameState.state)
  : t * GameState.state :=
  match _lastPlayerPos sp with
  | None => (sp, gs)
  | Some _ =>
      if Qleb (_slowMoTimer sp) 0 then
        ({| _slowMoTimer := SPECTACLE.NEAR_MISS_SLOWMO_DURATION;
            _slowMoDuration := SPECTACLE.NEAR_MISS_SLOWMO_DURATION;
            _slowMoOriginalSpeed := GameState.currentSpeed gs;
            _lastPlayerPos := _lastPlayerPos sp |},
         GameState.set_currentSpeed
           (GameState.currentSpeed gs * SPECTACLE.NEAR_MISS_SLOWMO_FACTOR)
           gs)
      else (sp, gs)
  end.

(** [update(delta, playerPos, envelopes)]: the bookkeeping of
    [_lastPlayerPos] and the slow-motion recovery. *)
Definition update (delta : Q) (playerPos : option Vector3.t) (sp : t)
  (gs : GameState.state) : t * GameState.state :=
  let last := match playerPos with
              | Some p => Some p
              | None => _lastPlayerPos sp
              end in
  if Qgtb (_slowMoTimer sp) 0 then
    let timer := (_slowMoTimer sp - delta)%Q in
    ({| _slowMoTimer := timer; _slowMoDuration := _slowMoDuration sp;
        _slowMoOriginalSpeed := _slowMoOriginalSpeed sp;
        _lastPlayerPos := last |},
     if Qleb timer 0 then
       GameState.set_currentSpeed (_slowMoOriginalSpeed sp) gs
     else gs)
  else
    ({| _slowMoTimer := _slowMoTimer sp;
        _slowMoDuration := _slowMoDuration sp;
        _slowMoOriginalSpeed := _slowMoOriginalSpeed sp;
        _lastPlayerPos := last |},
     gs).

(** What can happen to the speed while a slow motion runs: the player's
    speed ramp, further near-miss events, and the system's own updates. *)
Inductive action :=
| PlayerSpeedRamp (delta : Q)
| NearMiss
| Update (delta : Q) (playerPos : option Vector3.t).

Definition step (a : action) (st : t * GameState.state)
  : t * GameState.state :=
  match a with
  | PlayerSpeedRamp delta => (fst st, Player.increase_speed delta (snd st))
  | NearMiss => _onNearMiss (fst st) (snd st)
  | Update delta pos => update delta pos (fst st) (snd st)
  end.

(** Whether the step from [st] to [st'] is the one in which the slow-motion
    timer ran out. *)
Definition expired (st st' : t * GameState.state) : bool :=
  Qgtb (_slowMoTimer (fst st)) 0 && Qleb (_slowMoTimer (fst st')) 0.

(** [currentSpeed] right after the first step of [acts] in which the timer
    runs out, if there is one. *)
Fixpoint speed_at_expiry (acts : list action) (st : t * GameState.state)
  : option Q :=
  match acts with
  | [] => None
  | a :: rest =>
      let st' := step a st in
      if expired st st' then Some (GameState.currentSpeed (snd st'))
      else speed_at_expiry rest st'
  end.

(** While a slow motion that saved [s0] is running. *)
Definition running (s0 : Q) (st : t * GameState.state) : Prop :=
  (0 < _slowMoTimer (fst st))%Q /\ _slowMoOriginalSpeed (fst st) = s0.

End SpectacleSystem.

(** ** Scenarios used to exercise the theorems *)

Module Scenario.

(** An unhit house on the right of the street, 20 units ahead. *)
Definition house : House.t :=
  House.mk false House.side_right (Vector3.mk 7 0 (-20))
           0x7eb8d8 0x8b4513 0 0 0x7eb8d8 7.

(** A live, untargeted envelope at the given position. *)
Definition envelope (x y z : Q) : Envelope.t :=
  Envelope.mk (Vector3.mk x y z) (Vector3.mk 0 0 (-1)) (Vector3.mk 0 1 0)
              true 20 None 0.

(** Two envelopes within reach of [house] in the same frame. *)
Definition game : Game.t :=
  Game.mk (GameState.new None)
          [envelope 6 1 (-19); envelope 5.5 2.5 (-20.5)]
          (Vector3.mk 0 0 0) [house] [] [] 0.

(** Every [Math.random()] gives 1/2, the square root is taken as the
    identity, the homeowner model is loaded, and the subscribers of
    HOUSE_HIT draw three random numbers for their particles. *)
Definition env : Game.env :=
  Game.mkEnv {| random := fun _ => 0.5%Q; sin := fun _ => 0%Q;
                PI := 3.14159%Q |}
             (fun q => q) true
             (fun evs => match last evs with
                         | Some ev =>
                             if String.eqb (topic ev) Events.HOUSE_HIT
                             then 3%nat else 0%nat
                         | None => 0%nat
                         end).

(** A spectacle system that has seen the player, with no slow motion
    running. *)
Definition spectacle : SpectacleSystem.t :=
  SpectacleSystem.mk 0 0 0 (Some (Vector3.mk 0 0 0)).

(** A near miss, then two frames of 50 ms with a second near miss in
    between. *)
Definition frames : list SpectacleSystem.action :=
  [SpectacleSystem.PlayerSpeedRamp 0.05;
   SpectacleSystem.Update 0.05 (Some (Vector3.mk 0 0 (-0.4)));
   SpectacleSystem.NearMiss;
   SpectacleSystem.PlayerSpeedRamp 0.05;
   SpectacleSystem.Update 0.05 (Some (Vector3.mk 0 0 (-0.8)))].

(** Callbacks that record their identifier and payload in the application
    state; callback 20 throws after doing so. *)
Definition behaviour : EventBus.behaviour (Data:=nat) (App:=list (nat * nat)) :=
  fun cb data w =>
    (EventBus.mkWorld (EventBus.bus w) ((cb, data) :: EventBus.app w)
                      (EventBus.console w),
     if Nat.eqb cb 20 then EventBus.Throw "boom" else EventBus.Normal).

(** Callbacks 10, 20 and 30 subscribed to HOUSE_HIT, in this order. *)
Definition bus_world : EventBus.world (App:=list (nat * nat)) :=
  EventBus.mkWorld
    (EventBus.on_all Events.HOUSE_HIT [10; 20; 30]%nat EventBus.new) [] [].

End Scenario.

(** ** Invariants of the singleton's high-water marks *)

Module BestMarks.

(** The score and the combo stay below their recorded bests, and the bests
    are never negative. *)
Definition inv (s : GameState.state) : Prop :=
  GameState.score s <= GameState.bestScore s
  /\ 0 <= GameState.bestScore s
  /\ GameState.combo s <= GameState.bestCombo s
  /\ 0 <= GameState.bestCombo s.

End BestMarks.

(** ** Hits in a row *)

Module Streak.

(** The score after [n] hits in a row without a combo timeout, doubled:
    the k-th hit earns k points up to the cap, and the cap from then on. *)
Definition twice_score (n : Z) : Z :=
  if n <=? COMBO.MULTIPLIER_CAP then n * (n + 1)
  else COMBO.MULTIPLIER_CAP * (COMBO.MULTIPLIER_CAP + 1)
       + 2 * COMBO.MULTIPLIER_CAP * (n - COMBO.MULTIPLIER_CAP).

End Streak.

(** ** The damage state over time *)

Module Damage.

(** What touches the invincibility timer: the countdown in
    [Player.update(delta)] and [Player.takeDamage()]. *)
Inductive act :=
| Tick (delta : Q)
| Hit.

Definition step (st : Player.t * GameState.state) (a : act)
  : Player.t * GameState.state :=
  match a with
  | Tick delta => (Player.tick_invincibility delta (fst st), snd st)
  | Hit =>
      let '(pl, gs, _) := Player.takeDamage (fst st) (snd st) in (pl, gs)
  end.

Definition run (acts : list act) (st : Player.t * GameState.state)
  : Player.t * GameState.state :=
  fold_left step acts st.

(** The frame time that passes during [acts]. *)
Fixpoint elapsed (acts : list act) : Q :=
  match acts with
  | [] => 0
  | Tick delta :: rest => delta + elapsed rest
  | Hit :: rest => elapsed rest
  end.

(** Frame times are not negative. *)
Definition forward (a : act) : Prop :=
  match a with
  | Tick delta => (0 <= delta)%Q
  | Hit => True
  end.

(** Frame times are whole multiples of 1/1024 s. *)
Definition binary (a : act) : bool :=
  match a with
  | Tick delta => binary_time delta
  | Hit => true
  end.

End Damage.

(** ** The flags of [gameState] over a whole play session *)

Module SessionFlags.

(** The session invariant on the flags: the game has started, the lives
    are between none and [GAMEPLAY.LIVES], and the game is over exactly
    when none is left. *)
Definition flags_inv (st : Session.state) : Prop :=
  GameState.started (snd st) = true
  /\ 0 <= GameState.lives (snd st) <= GAMEPLAY.LIVES
  /\ (GameState.gameOver (snd st) = true <-> GameState.lives (snd st) = 0).

(** Same flags and same life count. *)
Definition same_flags (st st' : Session.state) : Prop :=
  GameState.started (snd st') = GameState.started (snd st)
  /\ GameState.lives (snd st') = GameState.lives (snd st)
  /\ GameState.gameOver (snd st') = GameState.gameOver (snd st).

End SessionFlags.

(** ** core/Game.js: [restart()] and the slow motion *)

Module Replay.

(** [SpectacleSystem.reset()], on the slow-motion fields: it clears the
    timer and leaves the saved speed as it is. *)
Definition spectacle_reset (sp : SpectacleSystem.t) : SpectacleSystem.t :=
  {| SpectacleSystem._slowMoTimer := 0;
     SpectacleSystem._slowMoDuration := SpectacleSystem._slowMoDuration sp;
     SpectacleSystem._slowMoOriginalSpeed :=
       SpectacleSystem._slowMoOriginalSpeed sp;
     SpectacleSystem._lastPlayerPos := SpectacleSystem._lastPlayerPos sp |}.

(** [Game.restart()], as far as it writes the slow-motion state and
    [gameState]: [this.spectacle.reset(); this.startGame();]. *)
Definition restart (ls : GameState.Storage)
  (st : SpectacleSystem.t * GameState.state)
  : SpectacleSystem.t * GameState.state :=
  (spectacle_reset (fst st), snd (Session.startGame ls (snd st))).

(** Everything that writes [gameState.currentSpeed]. *)
Inductive event :=
| Did (a : SpectacleSystem.action)
| Restarted.

Definition step (ls : GameState.Storage)
  (st : SpectacleSystem.t * GameState.state) (e : event)
  : SpectacleSystem.t * GameState.state :=
  match e with
  | Did a => SpectacleSystem.step a st
  | Restarted => restart ls st
  end.

Definition run (ls : GameState.Storage) (es : list event)
  (st : SpectacleSystem.t * GameState.state)
  : SpectacleSystem.t * GameState.state :=
  fold_left (step ls) es st.

(** The state [Game]'s constructor leaves behind. *)
Definition boot (ls : GameState.Storage)
  : SpectacleSystem.t * GameState.state :=
  (SpectacleSystem.new, snd (Session.boot ls)).

(** The speed ramp is never run with a negative frame time. *)
Definition forward (e : event) : Prop :=
  match e with
  | Did (SpectacleSystem.PlayerSpeedRamp delta) => (0 <= delta)%Q
  | _ => True
  end.

(** No near miss. *)
Definition calm (a : SpectacleSystem.action) : Prop :=
  match a with
  | SpectacleSystem.NearMiss => False
  | _ => True
  end.

(** The speed ramps of [acts] alone. *)
Definition ramps_only (acts : list SpectacleSystem.action)
  (gs : GameState.state) : GameState.state :=
  fold_left
    (fun gs a =>
       match a with
       | SpectacleSystem.PlayerSpeedRamp delta => Player.increase_speed delta gs
       | _ => gs
       end)
    acts gs.

(** Between the slowed speed and the cap; while a slow motion runs, the
    saved speed is in the band too. *)
Definition speed_inv (st : SpectacleSystem.t * GameState.state) : Prop :=
  (GameState.currentSpeed (snd st) <= GAMEPLAY.MAX_SPEED)%Q
  /\ (if Qgtb (SpectacleSystem._slowMoTimer (fst st)) 0
      then (GAMEPLAY.AUTO_SPEED <= SpectacleSystem._slowMoOriginalSpeed (fst st)
            <= GAMEPLAY.MAX_SPEED)%Q
           /\ (SPECTACLE.NEAR_MISS_SLOWMO_FACTOR * GAMEPLAY.AUTO_SPEED
               <= GameState.currentSpeed (snd st))%Q
      else (GAMEPLAY.AUTO_SPEED <= GameState.currentSpeed (snd st))%Q).

(** A near miss between two frames, a restart in the middle of the slow
    motion, and two more frames. *)
Definition replay : list event :=
  [Did (SpectacleSystem.Update 0.05 (Some (Vector3.mk 0 0 (-0.4))));
   Did SpectacleSystem.NearMiss;
   Did (SpectacleSystem.PlayerSpeedRamp 0.05);
   Restarted;
   Did (SpectacleSystem.PlayerSpeedRamp 0.05);
   Did (SpectacleSystem.Update 0.05 (Some (Vector3.mk 0 0 (-0.4))))].

End Replay.
(** ** entities/Envelope.js: the constructor and [update] *)

Module Flight.

(** [new Envelope(startPos, direction, targetPos)] *)
Definition new (sqrt : Q -> Q) (startPos direction : Vector3.t)
  (targetPos : option Vector3.t) : Envelope.t :=
  let start := Vector3.set_y (Vector3.y startPos + 1) startPos in
  {| Envelope.position := start;
     Envelope.direction := Vector3.normalize sqrt direction;
     Envelope.startPos := start;
     Envelope.alive := true;
     Envelope.distanceTraveled := 0;
     Envelope.targetPos := Vector3.set_y 1 <$> targetPos;
     Envelope.totalFlightDist :=
       match targetPos with
       | Some target =>
           let dx := (Vector3.x target - Vector3.x start)%Q in
           let dz := (Vector3.z target - Vector3.z start)%Q in
           sqrt (dx * dx + dz * dz)%Q
       | None => 0
       end |}.

(** [update(delta)] (the spin of the mesh is left out). *)
Definition update (delta : Q) (e : Envelope.t) : Envelope.t :=
  if negb (Envelope.alive e) then e
  else
    let moveAmount := (ENVELOPE.SPEED * delta)%Q in
    let p := Envelope.position e in
    let d := Envelope.direction e in
    let moved :=
      Vector3.mk (Vector3.x p + Vector3.x d * moveAmount)
                 (Vector3.y p + Vector3.y d * moveAmount)
                 (Vector3.z p + Vector3.z d * moveAmount) in
    let travelled := (Envelope.distanceTraveled e + moveAmount)%Q in
    let arced :=
      match Envelope.targetPos e with
      | Some _ =>
          if Qgtb (Envelope.totalFlightDist e) 0 then
            let t := Math_min (travelled / Envelope.totalFlightDist e) 1 in
            let arcY := (4 * ENVELOPE.ARC_HEIGHT * t * (1 - t))%Q in
            Vector3.set_y (Vector3.y (Envelope.startPos e) + arcY) moved
          else moved
      | None => moved
      end in
    {| Envelope.position := arced;
       Envelope.direction := d;
       Envelope.startPos := Envelope.startPos e;
       Envelope.alive :=
         if Qgeb travelled ENVELOPE.MAX_DISTANCE then false else true;
       Envelope.distanceTraveled := travelled;
       Envelope.targetPos := Envelope.targetPos e;
       Envelope.totalFlightDist := Envelope.totalFlightDist e |}.

(** [update] once per frame, for the given frame times. *)
Definition updates (deltas : list Q) (e : Envelope.t) : Envelope.t :=
  fold_left (fun e delta => update delta e) deltas e.


End Flight.

(** ** gameplay/Player.js: the whole object *)

Module PlayerObject.

(** [mesh.position] and [mesh.visible], the envelopes in flight, the throw
    timers, and the damage state (see [Player.t]); the animation mixer and
    the model's rotation are left out.  [ready] is set when the model has
    loaded. *)
Record t := mk {
  ready : bool;
  position : Vector3.t;
  visible : bool;
  envelopes : list Envelope.t;
  _throwCooldown : Q;
  _throwAnimTimer : Q;
  _isThrowAnim : bool;
  damage : Player.t
}.

(** The fields of the input system that [update] reads. *)
Record input := mkInput { left : bool; right : bool }.

(** What the player passes to [eventBus.emit]: the payloads of [payload],
    and [{ type: ... }] for SPECTACLE_ACTION. *)
Inductive notice :=
| Published (e : emitted)
| Action (topic type : string).

(** [new Player(scene)]; the model loads later. *)
Definition new : t :=
  {| ready := false;
     position := Vector3.mk PLAYER.START_X PLAYER.START_Y PLAYER.START_Z;
     visible := true;
     envelopes := [];
     _throwCooldown := 0; _throwAnimTimer := 0; _isThrowAnim := false;
     damage := Player.new |}.

(** The end of [_loadModel()], on either path: [this.ready = true]. *)
Definition loaded (p : t) : t :=
  {| ready := true; position := position p; visible := visible p;
     envelopes := envelopes p; _throwCooldown := _throwCooldown p;
     _throwAnimTimer := _throwAnimTimer p; _isThrowAnim := _isThrowAnim p;
     damage := damage p |}.

(** [throwEnvelope(targetPos)] *)
Definition throwEnvelope (sqrt : Q -> Q) (targetPos : option Vector3.t)
  (p : t) (gs : GameState.state) : t * GameState.state * list notice :=
  if Qgtb (_throwCooldown p) 0 then (p, gs, [])
  else if GameState.gameOver gs then (p, gs, [])
  else
    let gs1 :=
      {| GameState.score := GameState.score gs;
         GameState.bestScore := GameState.bestScore gs;
         GameState.started := GameState.started gs;
         GameState.gameOver := GameState.gameOver gs;
         GameState.lives := GameState.lives gs;
         GameState.combo := GameState.combo gs;
         GameState.bestCombo := GameState.bestCombo gs;
         GameState.currentSpeed := GameState.currentSpeed gs;
         GameState.housesHit := GameState.housesHit gs;
         GameState.totalThrown := GameState.totalThrown gs + 1;
         GameState.isMuted := GameState.isMuted gs;
         GameState._comboTimer := GameState._comboTimer gs |} in
    let dir :=
      match targetPos with
      | Some target =>
          Vector3.normalize sqrt
            (Vector3.mk (Vector3.x target - Vector3.x (position p)) 0
                        (Vector3.z target - Vector3.z (position p)))
      | None => Vector3.mk 0 0 (-1)
      end in
    let envelope := Flight.new sqrt (position p) dir targetPos in
    ({| ready := ready p; position := position p; visible := visible p;
        envelopes := envelopes p ++ [envelope];
        _throwCooldown := ENVELOPE.COOLDOWN;
        _throwAnimTimer := GAMEPLAY.THROW_ANIMATION_DURATION;
        _isThrowAnim := true;
        damage := damage p |},
     gs1,
     [Published
        (mkEmitted Events.ENVELOPE_THROWN
           (PositionData (Vector3.x (position p)) (Vector3.z (position p))));
      Action Events.SPECTACLE_ACTION "throw"]).

(** [takeDamage()] *)
Definition takeDamage (p : t) (gs : GameState.state)
  : t * GameState.state * list notice :=
  let '(d, gs1, evs) := Player.takeDamage (damage p) gs in
  ({| ready := ready p; position := position p; visible := visible p;
      envelopes := envelopes p; _throwCooldown := _throwCooldown p;
      _throwAnimTimer := _throwAnimTimer p; _isThrowAnim := _isThrowAnim p;
      damage := d |},
   gs1, map Published evs).

(** [ix]: -1, 0 or 1. *)
Definition steer (i : input) : Z :=
  (if left i then -1 else 0) + (if right i then 1 else 0).

(** [Math.floor(this._flashAccum * PLAYER.FLASH_RATE) % 2 === 0] *)
Definition flash_visible (flashAccum : Q) : bool :=
  Z.rem (Math_floor (flashAccum * PLAYER.FLASH_RATE)) 2 =? 0.

(** [update(delta, input)] *)
Definition update (delta : Q) (i : input) (p : t) (gs : GameState.state)
  : t * GameState.state * list notice :=
  if negb (ready p) then (p, gs, [])
  else
    let cooldown :=
      if Qgtb (_throwCooldown p) 0 then (_throwCooldown p - delta)%Q
      else _throwCooldown p in
    let animTimer :=
      if _isThrowAnim p then (_throwAnimTimer p - delta)%Q
      else _throwAnimTimer p in
    let isThrowAnim :=
      if _isThrowAnim p then (if Qleb animTimer 0 then false else true)
      else false in
    let z1 := (Vector3.z (position p) - GameState.currentSpeed gs * delta)%Q in
    let ix := steer i in
    let x1 :=
      if ix =? 0 then Vector3.x (position p)
      else
        Math_max STREET.LANE_MIN
          (Math_min STREET.LANE_MAX
             (Vector3.x (position p)
              + inject_Z ix * PLAYER.LANE_SPEED * delta)) in
    let d1 := Player.tick_invincibility delta (damage p) in
    let visible1 :=
      if Qgtb (Player._invincibleTimer (damage p)) 0 then
        if Qleb (Player._invincibleTimer d1) 0 then true
        else flash_visible (Player._flashAccum d1)
      else visible p in
    let flying :=
      List.filter Envelope.alive (map (Flight.update delta) (envelopes p)) in
    let gs1 := Player.increase_speed delta gs in
    let '(comboExpired, gs2) :=
      GameState.updateComboTimer (delta * 1000) gs1 in
    ({| ready := ready p;
        position := Vector3.mk x1 (Vector3.y (position p)) z1;
        visible := visible1;
        envelopes := flying;
        _throwCooldown := cooldown;
        _throwAnimTimer := animTimer;
        _isThrowAnim := isThrowAnim;
        damage := d1 |},
     gs2,
     if comboExpired
     then [Published (mkEmitted Events.COMBO_CHANGED (ComboData 0))]
     else []).

(** [reset()] *)
Definition reset (p : t) : t :=
  {| ready := ready p;
     position := Vector3.mk PLAYER.START_X PLAYER.START_Y PLAYER.START_Z;
     visible := true;
     envelopes := [];
     _throwCooldown := 0;
     _throwAnimTimer := _throwAnimTimer p;
     _isThrowAnim := false;
     damage := {| Player._invincibleTimer := 0;
                  Player._flashAccum := Player._flashAccum (damage p) |} |}.

(** The [isInvincible] getter. *)
Definition isInvincible (p : t) : bool :=
  Qgtb (Player._invincibleTimer (damage p)) 0.

(** What is done to a player between its construction and its destruction:
    the model finishes loading, a throw, a frame, damage, [reset()], and
    [envelope.alive = false] from the collision pass of [Game] on the
    envelope at index [i]. *)
Inductive op :=
| Loaded
| Throw (targetPos : option Vector3.t)
| Frame (delta : Q) (i : input)
| Damage
| ResetPlayer
| EnvelopeSpent (i : nat).

Definition step (sqrt : Q -> Q) (st : t * GameState.state) (o : op)
  : t * GameState.state * list notice :=
  match o with
  | Loaded => (loaded (fst st), snd st, [])
  | Throw targetPos => throwEnvelope sqrt targetPos (fst st) (snd st)
  | Frame delta i => update delta i (fst st) (snd st)
  | Damage => takeDamage (fst st) (snd st)
  | ResetPlayer => (reset (fst st), snd st, [])
  | EnvelopeSpent i =>
      let p := fst st in
      ({| ready := ready p; position := position p; visible := visible p;
          envelopes :=
            match envelopes p !! i with
            | Some e => <[i := Envelope.set_alive false e]> (envelopes p)
            | None => envelopes p
            end;
          _throwCooldown := _throwCooldown p;
          _throwAnimTimer := _throwAnimTimer p;
          _isThrowAnim := _isThrowAnim p; damage := damage p |},
       snd st, [])
  end.

(** The state after [ops], and everything emitted on the way. *)
Fixpoint run (sqrt : Q -> Q) (ops : list op) (st : t * GameState.state)
  : t * GameState.state * list notice :=
  match ops with
  | [] => (fst st, snd st, [])
  | o :: rest =>
      let '(p, gs, evs) := step sqrt st o in
      let '(p', gs', evs') := run sqrt rest (p, gs) in
      (p', gs', evs ++ evs')
  end.

(** How many of the notices are ENVELOPE_THROWN events. *)
Definition count_thrown (l : list notice) : Z :=
  Z.of_nat
    (length
       (List.filter
          (fun n =>
             match n with
             | Published e => String.eqb (topic e) Events.ENVELOPE_THROWN
             | Action _ _ => false
             end)
          l)).

(** The frame time that passes during [ops]. *)
Fixpoint elapsed (ops : list op) : Q :=
  match ops with
  | [] => 0
  | Frame delta _ :: rest => delta + elapsed rest
  | _ :: rest => elapsed rest
  end.


(** Frame times are whole multiples of 1/1024 s. *)
Definition binary (o : op) : bool :=
  match o with
  | Frame delta _ => binary_time delta
  | _ => true
  end.

(** The player is between the street boundaries, is visible unless
    invincible, and every envelope in the list has travelled less than its
    maximum distance. *)
Definition inv (p : t) : Prop :=
  (STREET.LANE_MIN <= Vector3.x (position p) <= STREET.LANE_MAX)%Q
  /\ (isInvincible p = false -> visible p = true)
  /\ Forall (fun e => (Envelope.distanceTraveled e < ENVELOPE.MAX_DISTANCE)%Q)
            (envelopes p).

End PlayerObject.
(** [Math.sqrt(s) > r] for [s >= 0], in exact real arithmetic: the square
    root of [s] is above [r] exactly when [r] is negative or [r * r < s]
    (see [sqrt_gt_real]). *)
Definition sqrt_gt (s r : Q) : bool := Qltb r 0 || Qltb (r * r) s.

(** The objects of [l] that a list of indices into it refers to. *)
Definition referenced {A : Type} (l : list A) (idxs : list nat) : list A :=
  omap (fun i => l !! i) idxs.

(** ** core/Game.js: the panic points *)

Module Pickups.

(** [_checkPanicCollection()]: the panic points and [gameState] after the
    pass, and the events emitted, oldest first.  The subscribers of these
    events write neither. *)
Fixpoint _checkPanicCollection (playerPos : Vector3.t)
  (pps : list PanicPoint.t) (gs : GameState.state)
  : list PanicPoint.t * GameState.state * list emitted :=
  match pps with
  | [] => ([], gs, [])
  | pp :: rest =>
      if PanicPoint.checkPlayer pp playerPos then
        let '(fresh, pp1) := PanicPoint.collect pp in
        if fresh then
          let '(earned, gs1) := GameState.addScore 1 gs in
          let '(rest', gs2, evs) :=
            _checkPanicCollection playerPos rest gs1 in
          (pp1 :: rest', gs2,
           mkEmitted Events.PANIC_COLLECTED
             (ScoreData (GameState.score gs1) earned)
           :: mkEmitted Events.SCORE_CHANGED
                (ScoreData (GameState.score gs1) earned)
           :: evs)
        else
          let '(rest', gs2, evs) := _checkPanicCollection playerPos rest gs in
          (pp1 :: rest', gs2, evs)
      else
        let '(rest', gs2, evs) := _checkPanicCollection playerPos rest gs in
        (pp :: rest', gs2, evs)
  end.

(** [_updatePanicPoints(delta)]: every panic point is updated, and the dead
    ones are spliced out. *)
Definition _updatePanicPoints (M : MathEnv) (delta : Q)
  (pps : list PanicPoint.t) : list PanicPoint.t :=
  List.filter PanicPoint.alive (map (PanicPoint.update M delta) pps).

(** [update] once per frame, for the given frame times. *)
Definition updates (M : MathEnv) (deltas : list Q) (p : PanicPoint.t)
  : PanicPoint.t :=
  fold_left (fun p delta => PanicPoint.update M delta p) deltas p.

(** How many panic points have been collected. *)
Definition count_collected (pps : list PanicPoint.t) : nat :=
  length (List.filter PanicPoint.collected pps).

End Pickups.

(** ** core/Game.js: the player/agent collision pass *)

Module Encounters.

(** What [_checkAgentCollisions] reads and writes: the player's damage
    state and position, [gameState], [streetGen.agents], and, through its
    SPECTACLE_NEAR_MISS handler, the slow-motion state of the spectacle
    system.  No other subscriber of the events of this pass writes to any of
    these. *)
Record t := mk {
  player : Player.t;
  gameState : GameState.state;
  spectacle : SpectacleSystem.t;
  agents : list Agent.t;
  playerPos : Vector3.t
}.

(** [agent.hasCollided = true] *)
Definition collided (a : Agent.t) : Agent.t :=
  {| Agent.alive := Agent.alive a; Agent.hasCollided := true;
     Agent.position := Agent.position a; Agent._walkTime := Agent._walkTime a |}.

(** The first loop: the first agent of [nearbyAgents] that overlaps the
    player is marked, the player takes damage, the combo is reset, and the
    loop breaks.  [nearby] holds references into [agents]. *)
Fixpoint collide (nearby : list nat) (st : t) : t * list emitted :=
  match nearby with
  | [] => (st, [])
  | i :: rest =>
      match agents st !! i with
      | None => collide rest st
      | Some agent =>
          if Agent.checkPlayer agent (playerPos st) then
            let '(pl, gs1, evs) :=
              Player.takeDamage (player st) (gameState st) in
            ({| player := pl;
                gameState := GameState.resetCombo gs1;
                spectacle := spectacle st;
                agents := <[i := collided agent]> (agents st);
                playerPos := playerPos st |},
             evs
             ++ [mkEmitted Events.AGENT_COLLISION
                   (PositionData (Vector3.x (Agent.position agent))
                                 (Vector3.z (Agent.position agent)));
                 mkEmitted Events.COMBO_CHANGED (ComboData 0)])
          else collide rest st
      end
  end.

(** [dist < 1.5 && dist > 0.7] for [dist = Math.sqrt(s)] *)
Definition in_near_miss_band (s : Q) : bool :=
  sqrt_lt s 1.5 && sqrt_gt s 0.7.

(** The square of the distance handed to [Math.sqrt] in the second loop. *)
Definition gap_sq (a : Agent.t) (playerPos : Vector3.t) : Q :=
  let dx := (Vector3.x (Agent.position a) - Vector3.x playerPos)%Q in
  let dz := (Vector3.z (Agent.position a) - Vector3.z playerPos)%Q in
  (dx * dx + dz * dz)%Q.

(** The second loop: near-miss detection.  Each SPECTACLE_NEAR_MISS event
    runs the spectacle system's handler at once. *)
Fixpoint near_misses (sqrt : Q -> Q) (nearby : list nat) (st : t)
  : t * list emitted :=
  match nearby with
  | [] => (st, [])
  | i :: rest =>
      match agents st !! i with
      | None => near_misses sqrt rest st
      | Some agent =>
          if negb (Agent.hasCollided agent) && Agent.alive agent then
            if in_near_miss_band (gap_sq agent (playerPos st)) then
              let '(sp, gs) :=
                SpectacleSystem._onNearMiss (spectacle st) (gameState st) in
              let '(st', evs) :=
                near_misses sqrt rest
                  {| player := player st; gameState := gs; spectacle := sp;
                     agents := agents st; playerPos := playerPos st |} in
              (st',
               mkEmitted Events.SPECTACLE_NEAR_MISS
                 (DistanceData (sqrt (gap_sq agent (playerPos st))))
               :: evs)
            else near_misses sqrt rest st
          else near_misses sqrt rest st
      end
  end.

(** [_checkAgentCollisions()] *)
Definition _checkAgentCollisions (sqrt : Q -> Q) (st : t) : t * list emitted :=
  if Qgtb (Player._invincibleTimer (player st)) 0 then (st, [])
  else
    let nearbyAgents :=
      StreetGenerator.getAgentsInRange (Vector3.z (playerPos st)) 5
                                       (agents st) in
    let '(st1, evs1) := collide nearbyAgents st in
    let '(st2, evs2) := near_misses sqrt nearbyAgents st1 in
    (st2, evs1 ++ evs2).

(** Whether a near miss would start a slow motion: the spectacle system has
    seen the player and no slow motion is running. *)
Definition armed (sp : SpectacleSystem.t) : bool :=
  match SpectacleSystem._lastPlayerPos sp with
  | Some _ => Qleb (SpectacleSystem._slowMoTimer sp) 0
  | None => false
  end.

(** How many agents have collided with the player. *)
Definition count_collided (l : list Agent.t) : nat :=
  length (List.filter Agent.hasCollided l).

(** A near-miss event reports an agent in the band between the collision
    radius and 1.5. *)
Definition near_miss_in_band (sqrt : Q -> Q) (e : emitted) : Prop :=
  topic e = Events.SPECTACLE_NEAR_MISS ->
  exists s : Q,
    data e = DistanceData (sqrt s)
    /\ (AGENT.COLLISION_RADIUS * AGENT.COLLISION_RADIUS < s < 1.5 * 1.5)%Q.

End Encounters.

(** ** core/Game.js: choosing the house to throw at *)

Module Targeting.

(** The square of the distance handed to [Math.sqrt] in the scan. *)
Definition gap_sq (h : House.t) (playerPos : Vector3.t) : Q :=
  let dx := (Vector3.x (House.position h) - Vector3.x playerPos)%Q in
  let dz := (Vector3.z (House.position h) - Vector3.z playerPos)%Q in
  (dx * dx + dz * dz)%Q.

(** The sort key: [Math.abs(h.mesh.position.z - playerPos.z)]. *)
Definition ahead_by (playerPos : Vector3.t) (h : House.t) : Q :=
  Math_abs (Vector3.z (House.position h) - Vector3.z playerPos).

(** [Array.prototype.sort] with the comparator [(a, b) => key(a) - key(b)]:
    ascending by key, and stable.  Insertion sort computes that order. *)
Fixpoint insert_by (key : House.t -> Q) (h : House.t) (l : list House.t)
  : list House.t :=
  match l with
  | [] => [h]
  | h' :: rest =>
      if Qleb (key h) (key h') then h :: l else h' :: insert_by key h rest
  end.

Definition sort_by (key : House.t -> Q) (l : list House.t) : list House.t :=
  fold_right (insert_by key) [] l.

(** The scan [for (const house of ahead) if (dist < bestDist) ...].
    [bestDist] is kept as the square of the best distance so far, [None]
    standing for [Infinity]: of two square roots the smaller is the one of
    the smaller number. *)
Fixpoint nearest (playerPos : Vector3.t) (l : list House.t)
  (best : option House.t) (bestDist : option Q) : option House.t :=
  match l with
  | [] => best
  | house :: rest =>
      let d := gap_sq house playerPos in
      let closer := match bestDist with
                    | None => true
                    | Some b => Qltb d b
                    end in
      if closer then nearest playerPos rest (Some house) (Some d)
      else nearest playerPos rest best bestDist
  end.

(** [_findThrowTarget(playerPos)] *)
Definition _findThrowTarget (playerPos : Vector3.t) (hs : list House.t)
  : option Vector3.t :=
  let houses :=
    referenced hs
      (StreetGenerator.getHousesInRange (Vector3.z playerPos)
                                        ENVELOPE.TARGET_RANGE hs) in
  let ahead :=
    List.filter
      (fun h => Qltb (Vector3.z (House.position h)) (Vector3.z playerPos))
      houses in
  match ahead with
  | [] => None
  | _ =>
      House.position
        <$> nearest playerPos (sort_by (ahead_by playerPos) ahead) None None
  end.

(** The houses [_findThrowTarget] chooses among: not hit, within
    [TARGET_RANGE] along the street, and ahead of the player. *)
Definition eligible (playerPos : Vector3.t) (h : House.t) : Prop :=
  House.isHit h = false
  /\ (Math_abs (Vector3.z (House.position h) - Vector3.z playerPos)
      < ENVELOPE.TARGET_RANGE)%Q
  /\ (Vector3.z (House.position h) < Vector3.z playerPos)%Q.

End Targeting.

(** ** core/Game.js: [_updateHomeowners] *)

Module Panic.

(** One pass of the loop body of [_updateHomeowners], for the homeowner
    [hw]: update it, turn its drops into panic points, and say whether it
    stays. *)
Definition visit (M : MathEnv) (sqrt : Q -> Q) (delta : Q)
  (hw : Homeowner.t) (pps : list PanicPoint.t) (rng : nat)
  : option Homeowner.t * list PanicPoint.t * nat :=
  let '(hw1, rng1) := Homeowner.update M sqrt rng delta hw in
  let '(drops, hw2) := Homeowner.consumeDrops hw1 in
  let pps1 :=
    pps ++ map (fun drop => PanicPoint.new (fst drop) (snd drop)) drops in
  (if Homeowner.alive hw2 then Some hw2 else None, pps1, rng1).

(** The loop [for (let i = length - 1; i >= 0; i--)] over the homeowners
    given last first; the ones that stay are returned last first as
    well. *)
Fixpoint visit_backwards (M : MathEnv) (sqrt : Q -> Q) (delta : Q)
  (backwards : list Homeowner.t) (pps : list PanicPoint.t) (rng : nat)
  : list Homeowner.t * list PanicPoint.t * nat :=
  match backwards with
  | [] => ([], pps, rng)
  | hw :: rest =>
      let '(kept, pps1, rng1) := visit M sqrt delta hw pps rng in
      let '(rest', pps2, rng2) :=
        visit_backwards M sqrt delta rest pps1 rng1 in
      (match kept with
       | Some hw' => hw' :: rest'
       | None => rest'
       end, pps2, rng2)
  end.

(** [_updateHomeowners(delta)] on [this.homeowners] and
    [this.panicPoints]. *)
Definition _updateHomeowners (M : MathEnv) (sqrt : Q -> Q) (delta : Q)
  (homeowners : list Homeowner.t) (pps : list PanicPoint.t) (rng : nat)
  : list Homeowner.t * list PanicPoint.t * nat :=
  let '(kept, pps', rng') :=
    visit_backwards M sqrt delta (rev homeowners) pps rng in
  (rev kept, pps', rng').

End Panic.
(** ** The player's progress along the street *)

Module Pace.

(** From one frame to the next the player moves forward (towards lower
    Z) by at most one street segment; [prev] is the player's Z before the
    first of the frames. *)
Fixpoint paced (prev : Q) (frames : list StreetGenerator.frame) : Prop :=
  match frames with
  | [] => True
  | f :: rest =>
      (prev - STREET.SEGMENT_LENGTH <= StreetGenerator.frame_playerZ f)%Q
      /\ paced (StreetGenerator.frame_playerZ f) rest
  end.

(** The player's Z in the last of the frames. *)
Fixpoint last_playerZ (prev : Q) (frames : list StreetGenerator.frame) : Q :=
  match frames with
  | [] => prev
  | f :: rest => last_playerZ (StreetGenerator.frame_playerZ f) rest
  end.

(** [Math.random()] returns a number from 0 inclusive to 1 exclusive. *)
Definition unit_random (M : MathEnv) : Prop :=
  forall n : nat, (0 <= random M n < 1)%Q.

End Pace.
(** ** The bus over time *)

Module BusHistory.

(** What changes the subscriptions. *)
Inductive op :=
| On (event : string) (cb : EventBus.callback)
| Off (event : string) (cb : EventBus.callback)
| RemoveAll.

(** The bus after the call; a call that throws leaves it as it was. *)
Definition step (b : EventBus.t) (o : op) : EventBus.t :=
  match o with
  | On event cb => fst (EventBus.on event cb b)
  | Off event cb => fst (EventBus.off event cb b)
  | RemoveAll => EventBus.removeAll b
  end.

(** The singleton [eventBus] after a history of calls. *)
Definition run (ops : list op) : EventBus.t :=
  fold_left step ops EventBus.new.

End BusHistory.
(** ** entities/House.js over several frames *)

Module Sold.

(** [house.update(delta)] once per frame, for the given frame times;
    [rng] counts the random draws. *)
Fixpoint updates (M : MathEnv) (rng : nat) (deltas : list Q) (h : House.t)
  : House.t * nat :=
  match deltas with
  | [] => (h, rng)
  | delta :: rest =>
      let '(h1, rng1) := House.update M rng delta h in
      updates M rng1 rest h1
  end.

(** A house whose shake is over stands at its base position, and one whose
    flash is over has the dimmed colour; while it shakes it is within the
    shake intensity of its base position. *)
Definition inv (h : House.t) : Prop :=
  ((House._shakeTimer h <= 0)%Q ->
   Vector3.x (House.position h) = House._baseX h)
  /\ ((House._flashTimer h <= 0)%Q -> House.bodyColor h = 0x999999)
  /\ (House._shakeTimer h <= HOUSE.SHAKE_DURATION)%Q
  /\ (Qabs (Vector3.x (House.position h) - House._baseX h)
      <= HOUSE.SHAKE_INTENSITY)%Q.

End Sold.

(** ** systems/InputSystem.js: keys, the throw button and the joystick *)

Module InputSystem.

(** [keys] maps a key code to whether the key is down; the DOM elements of
    the joystick are left out. *)
Record t := mk {
  keys : gmap string bool;
  _throwJustPressed : bool;
  _throwConsumed : bool;
  _gameActive : bool;
  _touchLeft : bool;
  _touchRight : bool;
  _joystickCenterX : Q;
  _joystickDeltaX : Q
}.

(** The constructor. *)
Definition new : t :=
  {| keys := ∅; _throwJustPressed := false; _throwConsumed := false;
     _gameActive := false; _touchLeft := false; _touchRight := false;
     _joystickCenterX := 0; _joystickDeltaX := 0 |}.

(** The [keydown] listener. *)
Definition keydown (code : string) (s : t) : t :=
  let fresh := String.eqb code "Space" && negb (_throwConsumed s) in
  {| keys := <[code := true]> (keys s);
     _throwJustPressed := if fresh then true else _throwJustPressed s;
     _throwConsumed := if fresh then true else _throwConsumed s;
     _gameActive := _gameActive s;
     _touchLeft := _touchLeft s; _touchRight := _touchRight s;
     _joystickCenterX := _joystickCenterX s;
     _joystickDeltaX := _joystickDeltaX s |}.

(** The [keyup] listener. *)
Definition keyup (code : string) (s : t) : t :=
  {| keys := <[code := false]> (keys s);
     _throwJustPressed := _throwJustPressed s;
     _throwConsumed :=
       if String.eqb code "Space" then false else _throwConsumed s;
     _gameActive := _gameActive s;
     _touchLeft := _touchLeft s; _touchRight := _touchRight s;
     _joystickCenterX := _joystickCenterX s;
     _joystickDeltaX := _joystickDeltaX s |}.

(** The [touchstart] listener of the throw button. *)
Definition throw_touchstart (s : t) : t :=
  {| keys := keys s;
     _throwJustPressed := if _gameActive s then true else _throwJustPressed s;
     _throwConsumed := _throwConsumed s;
     _gameActive := _gameActive s;
     _touchLeft := _touchLeft s; _touchRight := _touchRight s;
     _joystickCenterX := _joystickCenterX s;
     _joystickDeltaX := _joystickDeltaX s |}.

(** [setGameActive(active)] *)
Definition setGameActive (active : bool) (s : t) : t :=
  {| keys := keys s; _throwJustPressed := _throwJustPressed s;
     _throwConsumed := _throwConsumed s; _gameActive := active;
     _touchLeft := _touchLeft s; _touchRight := _touchRight s;
     _joystickCenterX := _joystickCenterX s;
     _joystickDeltaX := _joystickDeltaX s |}.

(** The getter [throwPressed]: reading it consumes the press. *)
Definition throwPressed (s : t) : bool * t :=
  if _throwJustPressed s then
    (true,
     {| keys := keys s; _throwJustPressed := false;
        _throwConsumed := _throwConsumed s; _gameActive := _gameActive s;
        _touchLeft := _touchLeft s; _touchRight := _touchRight s;
        _joystickCenterX := _joystickCenterX s;
        _joystickDeltaX := _joystickDeltaX s |})
  else (false, s).

(** [isDown(code)]: [!!this.keys[code]] *)
Definition isDown (code : string) (s : t) : bool :=
  match keys s !! code with
  | Some b => b
  | None => false
  end.

(** The getters [left] and [right]. *)
Definition left (s : t) : bool :=
  isDown "KeyA" s || isDown "ArrowLeft" s || _touchLeft s.
Definition right (s : t) : bool :=
  isDown "KeyD" s || isDown "ArrowRight" s || _touchRight s.

(** [_updateJoystick(touchX, touchY, thumbEl, maxDelta)] (the thumb's
    style is left out). *)
Definition _updateJoystick (touchX maxDelta : Q) (s : t) : t :=
  let dx := (touchX - _joystickCenterX s)%Q in
  let clampedDx := Math_max (- maxDelta) (Math_min maxDelta dx) in
  let deltaX := (clampedDx / maxDelta)%Q in
  let deadZone := 0.2%Q in
  {| keys := keys s; _throwJustPressed := _throwJustPressed s;
     _throwConsumed := _throwConsumed s; _gameActive := _gameActive s;
     _touchLeft := Qltb deltaX (- deadZone);
     _touchRight := Qgtb deltaX deadZone;
     _joystickCenterX := _joystickCenterX s;
     _joystickDeltaX := deltaX |}.

(** What happens to the input system: DOM events, [setGameActive], and
    [Game.animate] reading [throwPressed]. *)
Inductive op :=
| KeyDown (code : string)
| KeyUp (code : string)
| ThrowTouch
| SetGameActive (active : bool)
| JoystickMove (touchX maxDelta : Q)
| ReadThrow.

(** The state after the step, and whether a throw was read. *)
Definition step (s : t) (o : op) : t * bool :=
  match o with
  | KeyDown code => (keydown code s, false)
  | KeyUp code => (keyup code s, false)
  | ThrowTouch => (throw_touchstart s, false)
  | SetGameActive active => (setGameActive active s, false)
  | JoystickMove touchX maxDelta => (_updateJoystick touchX maxDelta s, false)
  | ReadThrow => let '(pressed, s') := throwPressed s in (s', pressed)
  end.

(** The state after [ops] and the number of throws read. *)
Fixpoint run (ops : list op) (s : t) : t * nat :=
  match ops with
  | [] => (s, O)
  | o :: rest =>
      let '(s1, pressed) := step s o in
      let '(s2, n) := run rest s1 in
      (s2, if pressed then S n else n)
  end.

(** How many times the space bar is released, how many times the throw
    button is touched. *)
Definition releases (ops : list op) : nat :=
  length (List.filter
            (fun o => match o with
                      | KeyUp code => String.eqb code "Space"
                      | _ => false
                      end) ops).
Definition touches (ops : list op) : nat :=
  length (List.filter
            (fun o => match o with ThrowTouch => true | _ => false end) ops).

(** The presses not yet read, plus one if the space bar is up. *)
Definition pending (s : t) : nat :=
  ((if _throwJustPressed s then 1 else 0)
   + (if _throwConsumed s then 0 else 1))%nat.

End InputSystem.
(** ** audio/AudioBridge.js: the mute toggle *)

Module AudioBridge.

(** [String(b)], which [setItem] applies to its value. *)
Definition String_of_bool (b : bool) : string :=
  if b then "true"%string else "false"%string.

(** [try { localStorage.setItem(key, value) } catch (_) {}] *)
Definition setItem (key value : string) (ls : GameState.Storage)
  : GameState.Storage :=
  match ls with
  | Some m => Some (<[key := value]> m)
  | None => None
  end.

(** The AUDIO_TOGGLE_MUTE handler, as far as it writes [gameState] and
    [localStorage]; the music and the button are left out. *)
Definition toggle_mute (st : GameState.state * GameState.Storage)
  : GameState.state * GameState.Storage :=
  let gs := fst st in
  let muted := negb (GameState.isMuted gs) in
  ({| GameState.score := GameState.score gs;
      GameState.bestScore := GameState.bestScore gs;
      GameState.started := GameState.started gs;
      GameState.gameOver := GameState.gameOver gs;
      GameState.lives := GameState.lives gs;
      GameState.combo := GameState.combo gs;
      GameState.bestCombo := GameState.bestCombo gs;
      GameState.currentSpeed := GameState.currentSpeed gs;
      GameState.housesHit := GameState.housesHit gs;
      GameState.totalThrown := GameState.totalThrown gs;
      GameState.isMuted := muted;
      GameState._comboTimer := GameState._comboTimer gs |},
   setItem GameState.MUTED_KEY (String_of_bool muted) (snd st)).

End AudioBridge.
(** ** More scenarios used to exercise the theorems *)

Module Scenes.





(** A [Math] whose random numbers are all one half. *)
Definition math : MathEnv :=
  {| random := fun _ => 0.5%Q; sin := fun _ => 0%Q; PI := 3.14159 |}.

(** Nine frames of 50 ms in the life of a homeowner, the drops consumed
    after each. *)
Definition nine_frames : list Homeowner.op :=
  concat (replicate 9 [Homeowner.Update 0.05; Homeowner.Consume]).

(** Two frames of a player running at 8 units a second. *)
Definition jog : list StreetGenerator.frame :=
  [StreetGenerator.mkFrame 8 0.05 (-0.4);
   StreetGenerator.mkFrame 8 0.05 (-0.8)].

(** The first row of a new street under [math]: both houses are built,
    with the fifth body colour and the third roof colour. *)
Definition first_left : House.t :=
  House.mk false House.side_left (Vector3.mk (-7) 0 10)
           0xf5f5f5 0xa0522d 0 0 0xf5f5f5 (-7).
Definition first_right : House.t :=
  House.mk false House.side_right (Vector3.mk 7 0 10)
           0xf5f5f5 0xa0522d 0 0 0xf5f5f5 7.

End Scenes.

(** * Specification *)

(** ** Comparison helpers *)

Lemma Qleb_le (a b : Q) : Qleb a b = true <-> (a <= b)%Q.
Proof. apply Qle_bool_iff. Qed.

Lemma Qleb_gt (a b : Q) : Qleb a b = false <-> (b < a)%Q.
Proof.
unfold Qleb. split; intros H.
- apply Qnot_le_lt. intros Hle. apply Qle_bool_iff in Hle. congruence.
- destruct (Qle_bool a b) eqn:E; [|reflexivity].
  apply Qle_bool_iff in E. exfalso. apply (Qlt_not_le _ _ H E).
Qed.

Lemma Qltb_lt (a b : Q) : Qltb a b = true <-> (a < b)%Q.
Proof.
unfold Qltb. rewrite negb_true_iff. apply Qleb_gt.
Qed.

Lemma Qltb_ge (a b : Q) : Qltb a b = false <-> (b <= a)%Q.
Proof.
unfold Qltb. rewrite negb_false_iff. apply Qleb_le.
Qed.

Lemma Qgtb_gt (a b : Q) : Qgtb a b = true <-> (b < a)%Q.
Proof. apply Qltb_lt. Qed.

Lemma Qgtb_le (a b : Q) : Qgtb a b = false <-> (a <= b)%Q.
Proof. apply Qltb_ge. Qed.

(** ** Distances *)


Lemma Q2R_zero : Q2R 0 = 0%R.
Proof. unfold Q2R. cbn. lra. Qed.

(** [sqrt_lt] is the comparison [Math.sqrt(s) < r] on the reals. *)
Lemma sqrt_lt_real (s r : Q) :
  (0 <= s)%Q -> sqrt_lt s r = true <-> (sqrt (Q2R s) < Q2R r)%R.
Proof.
  intros Hs. unfold sqrt_lt.
  rewrite andb_true_iff, !Qltb_lt.
  apply Qle_Rle in Hs. rewrite Q2R_zero in Hs.
  split.
  - intros [Hr Hlt].
    apply Qlt_Rlt in Hr. apply Qlt_Rlt in Hlt.
    rewrite Q2R_zero in Hr. rewrite Q2R_mult in Hlt.
    rewrite <- (sqrt_square (Q2R r)) by lra.
    apply sqrt_lt_1_alt. lra.
  - intros Hlt.
    pose proof (sqrt_pos (Q2R s)) as Hpos.
    pose proof (sqrt_sqrt (Q2R s) Hs) as Hsq.
    split; apply Rlt_Qlt.
    + rewrite Q2R_zero. lra.
    + rewrite Q2R_mult. rewrite <- Hsq. nra.
Qed.

Lemma sum_of_squares_nonneg (a b : Q) : (0 <= a * a + b * b)%Q.
Proof. nra. Qed.

(** ** GameState *)

Section GameStateSpec.
Import GameState.

Lemma multiplier_bounds (c : Z) :
  1 <= Z.max 1 (Z.min c COMBO.MULTIPLIER_CAP) <= COMBO.MULTIPLIER_CAP.
Proof. unfold COMBO.MULTIPLIER_CAP. lia. Qed.

(** C1: for every combo value and every base amount, [addScore(base)]
    returns [base * max(1, min(combo, MULTIPLIER_CAP))], adds exactly that
    amount to [score], and the multiplier lies between 1 and
    [MULTIPLIER_CAP]; with the cap 10 a combo of 15 multiplies by 10. *)
Theorem addScore_multiplier_capped (s : state) (base : Z) :
  let m := Z.max 1 (Z.min (combo s) COMBO.MULTIPLIER_CAP) in
  fst (addScore base s) = base * m
  /\ score (snd (addScore base s)) = score s + base * m
  /\ 1 <= m <= COMBO.MULTIPLIER_CAP
  /\ fst (addScore base (set_combo 15 s)) = base * 10.
Proof.
  cbv zeta. repeat split; try reflexivity; apply multiplier_bounds.
Qed.


Lemma or_zero_Some (x : Z) : or_zero (Some x) = x.
Proof. unfold or_zero. destruct (Z.eqb_spec x 0); congruence. Qed.

(** C3, where it fails: starting with one life, the first
    [loseLife()] reports death and leaves 0 lives, and a second call takes
    [lives] to -1. *)
Lemma loseLife_twice_goes_negative :
  fst (loseLife (set_lives 1 (new None))) = true
  /\ lives (snd (loseLife (set_lives 1 (new None)))) = 0
  /\ lives (snd (loseLife (snd (loseLife (set_lives 1 (new None)))))) = -1.
Proof. repeat split. Qed.

(** [combo <= 0] is stable under every mutator except [incrementCombo]. *)
Lemma step_keeps_combo_nonpos (ls : Storage) (s : state) (o : op) :
  o <> OpIncrementCombo -> combo s <= 0 -> combo (step ls s o) <= 0.
Proof.
  intros Hne Hc. destruct o; cbn; try lia; try congruence.
  unfold updateComboTimer.
  destruct (Z.ltb_spec 0 (combo s)); [lia|]. cbn. lia.
Qed.

Lemma run_keeps_combo_nonpos (ls : Storage) (ops : list op) :
  forall s, Forall (fun o => o <> OpIncrementCombo) ops ->
            combo s <= 0 -> combo (run ls ops s) <= 0.
Proof.
  induction ops as [|o ops IH]; intros s Hall Hc; cbn; [exact Hc|].
  inversion Hall as [|? ? Ho Hrest]; subst.
  apply IH; [exact Hrest|]. now apply step_keeps_combo_nonpos.
Qed.

Lemma updateComboTimer_idle (d : Q) (s : state) :
  combo s <= 0 -> updateComboTimer d s = (false, s).
Proof.
  intros Hc. unfold updateComboTimer.
  destruct (Z.ltb_spec 0 (combo s)); [lia|]. reflexivity.
Qed.

Lemma updateComboTimer_true_iff (d : Q) (s : state) :
  fst (updateComboTimer d s) = true <->
  0 < combo s /\ (0 < _comboTimer s)%Q /\ (_comboTimer s - d <= 0)%Q.
Proof.
  unfold updateComboTimer.
  destruct (Z.ltb_spec 0 (combo s)) as [Hc|Hc]; cbn [andb].
  - destruct (Qgtb (_comboTimer s) 0) eqn:Ht.
    + apply Qgtb_gt in Ht. cbn [set_comboTimer _comboTimer].
      destruct (Qleb (_comboTimer s - d) 0) eqn:He; cbn [fst].
      * apply Qleb_le in He. tauto.
      * apply Qleb_gt in He. split; [discriminate|].
        intros (_ & _ & Hle). exfalso. apply (Qlt_not_le _ _ He Hle).
    + apply Qgtb_le in Ht. cbn [fst]. split; [discriminate|].
      intros (_ & Hlt & _). exfalso. apply (Qlt_not_le _ _ Hlt Ht).
  - cbn [fst]. split; [discriminate|]. intros (H0 & _). lia.
Qed.

Lemma updateComboTimer_true_resets (d : Q) (s : state) :
  fst (updateComboTimer d s) = true ->
  combo (snd (updateComboTimer d s)) = 0
  /\ _comboTimer (snd (updateComboTimer d s)) = 0%Q.
Proof.
  unfold updateComboTimer.
  destruct ((0 <? combo s) && Qgtb (_comboTimer s) 0); [|discriminate].
  cbn [set_comboTimer _comboTimer].
  destruct (Qleb (_comboTimer s - d) 0); [|discriminate].
  intros _. split; reflexivity.
Qed.

Lemma updateComboTimer_running (d : Q) (s : state) :
  0 < combo s -> (0 < _comboTimer s)%Q -> (0 < _comboTimer s - d)%Q ->
  updateComboTimer d s = (false, set_comboTimer (_comboTimer s - d) s).
Proof.
  intros Hc Ht Hd. unfold updateComboTimer.
  destruct (Z.ltb_spec 0 (combo s)) as [_|Hn]; [|lia]. cbn [andb].
  destruct (Qgtb (_comboTimer s) 0) eqn:Hg.
  - cbn [set_comboTimer _comboTimer].
    destruct (Qleb (_comboTimer s - d) 0) eqn:He; [|reflexivity].
    apply Qleb_le in He. exfalso. apply (Qlt_not_le _ _ Hd He).
  - apply Qgtb_le in Hg. exfalso. apply (Qlt_not_le _ _ Ht Hg).
Qed.

Lemma updateComboTimer_stopped (d : Q) (s : state) :
  (_comboTimer s <= 0)%Q -> updateComboTimer d s = (false, s).
Proof.
  intros Ht. unfold updateComboTimer.
  destruct (Qgtb (_comboTimer s) 0) eqn:Hg.
  - apply Qgtb_gt in Hg. exfalso. apply (Qlt_not_le _ _ Hg Ht).
  - now rewrite andb_false_r.
Qed.

Lemma updateComboTimer_true_state (d : Q) (s : state) :
  fst (updateComboTimer d s) = true ->
  snd (updateComboTimer d s)
  = resetCombo (set_comboTimer (_comboTimer s - d) s).
Proof.
  unfold updateComboTimer.
  destruct ((0 <? combo s) && Qgtb (_comboTimer s) 0); [|discriminate].
  cbn [set_comboTimer _comboTimer].
  destruct (Qleb (_comboTimer s - d) 0); [|discriminate].
  reflexivity.
Qed.

Lemma calls_length (ds : list Q) :
  forall s, length (fst (updateComboTimer_calls ds s)) = length ds.
Proof.
  induction ds as [|d ds IH]; intros s; cbn [updateComboTimer_calls];
    [reflexivity|].
  destruct (updateComboTimer d s) as [b s1].
  specialize (IH s1). destruct (updateComboTimer_calls ds s1) as [bs s2].
  cbn in *. now rewrite IH.
Qed.

(** Without a combo every call of a row of calls returns [false]. *)
Lemma calls_idle (ds : list Q) :
  forall s, combo s <= 0 ->
    updateComboTimer_calls ds s = (map (fun _ => false) ds, s).
Proof.
  induction ds as [|d ds IH]; intros s Hc; cbn [updateComboTimer_calls];
    [reflexivity|].
  rewrite (updateComboTimer_idle d s Hc), (IH s Hc). reflexivity.
Qed.

Lemma count_true_falses {A : Type} (l : list A) :
  count_occ bool_dec (map (fun _ => false) l) true = 0%nat.
Proof. induction l as [|a l IH]; [reflexivity|exact IH]. Qed.

(** In a row of calls at most one returns [true]. *)
Lemma calls_fire_at_most_once (ds : list Q) :
  forall s,
    (count_occ bool_dec (fst (updateComboTimer_calls ds s)) true <= 1)%nat.
Proof.
  induction ds as [|d ds IH]; intros s; cbn [updateComboTimer_calls];
    [cbn; lia|].
  destruct (updateComboTimer d s) as [b s1] eqn:Hu.
  destruct b.
  - assert (Hc : combo s1 = 0).
    { pose proof (updateComboTimer_true_resets d s) as H.
      rewrite Hu in H. now destruct (H eq_refl). }
    rewrite (calls_idle ds s1) by lia. cbn [fst].
    rewrite count_occ_cons_eq by reflexivity.
    rewrite count_true_falses. lia.
  - specialize (IH s1). destruct (updateComboTimer_calls ds s1) as [bs s2].
    cbn [fst] in *. rewrite count_occ_cons_neq by discriminate. exact IH.
Qed.

Lemma elapsed_ms_nonneg (ns : list Z) :
  Forall (fun n => 0 <= n) ns -> 0 <= elapsed_ms ns.
Proof.
  induction 1 as [|n ns Hn _ IH]; cbn; [lia|]. unfold elapsed_ms in IH. lia.
Qed.

Lemma nth_falses {A : Type} (l : list A) (k : nat) :
  nth k (map (fun _ => false) l) false = false.
Proof.
  revert k. induction l as [|a l IH]; intros [|k]; cbn; auto.
Qed.

(** With whole milliseconds the call that returns [true] is the one at
    which the time passed first reaches what was on the timer. *)
Lemma calls_whole (ns : list Z) :
  forall (s : state) (T : Z) (k : nat),
    0 < combo s -> (_comboTimer s == inject_Z T)%Q -> 0 < T ->
    Forall (fun n => 0 <= n) ns -> (k < length ns)%nat ->
    nth k (fst (updateComboTimer_calls (map inject_Z ns) s)) false
    = spec_expired T ns k.
Proof.
  induction ns as [|n ns IH]; intros s T k Hc Ht HT Hns Hk;
    [cbn in Hk; lia|].
  apply Forall_cons in Hns as [Hn Hns].
  assert (Hpos : (0 < _comboTimer s)%Q).
  { rewrite Ht. change 0%Q with (inject_Z 0). now rewrite <- Zlt_Qlt. }
  assert (Hsub : (_comboTimer s - inject_Z n == inject_Z (T - n))%Q).
  { rewrite Ht. unfold Z.sub. rewrite inject_Z_plus, inject_Z_opp.
    reflexivity. }
  cbn [map updateComboTimer_calls].
  destruct (Z.leb_spec (T - n) 0) as [Hle|Hgt].
  - (* this call uses up what remains *)
    assert (Hfire : fst (updateComboTimer (inject_Z n) s) = true).
    { apply updateComboTimer_true_iff. split; [exact Hc|].
      split; [exact Hpos|]. rewrite Hsub.
      change 0%Q with (inject_Z 0). now rewrite <- Zle_Qle. }
    destruct (updateComboTimer (inject_Z n) s) as [b s1] eqn:Hu.
    cbn [fst] in Hfire. subst b.
    assert (Hc1 : combo s1 = 0).
    { pose proof (updateComboTimer_true_resets (inject_Z n) s) as H.
      rewrite Hu in H. now destruct (H eq_refl). }
    rewrite (calls_idle _ s1) by lia. cbn [fst].
    unfold spec_expired. destruct k as [|k].
    + cbn [nth take]. rewrite !take_0. cbn [elapsed_ms fold_right].
      symmetry. apply andb_true_iff. split; [apply Z.ltb_lt|apply Z.leb_le]; lia.
    + cbn [nth]. rewrite map_map, nth_falses.
      symmetry. apply andb_false_iff. left. apply Z.ltb_ge.
      cbn [take elapsed_ms fold_right].
      pose proof (elapsed_ms_nonneg (take k ns)
                    ltac:(now apply Forall_take)) as H0.
      unfold elapsed_ms in H0. lia.
  - (* the timer goes on *)
    assert (Hrun : (0 < _comboTimer s - inject_Z n)%Q).
    { rewrite Hsub. change 0%Q with (inject_Z 0). now rewrite <- Zlt_Qlt. }
    rewrite (updateComboTimer_running _ s Hc Hpos Hrun).
    destruct (updateComboTimer_calls (map inject_Z ns)
                (set_comboTimer (_comboTimer s - inject_Z n) s))
      as [bs s2] eqn:Hrest.
    cbn [fst]. unfold spec_expired. destruct k as [|k].
    + cbn [nth take]. rewrite !take_0. cbn [elapsed_ms fold_right].
      symmetry. apply andb_false_iff. right. apply Z.leb_gt. lia.
    + cbn [nth].
      pose proof (IH (set_comboTimer (_comboTimer s - inject_Z n) s)
                    (T - n) k Hc Hsub ltac:(lia) Hns
                    ltac:(cbn in Hk; lia)) as H.
      rewrite Hrest in H. cbn [fst] in H. rewrite H.
      unfold spec_expired. cbn [take].
      change (elapsed_ms (n :: take k ns))
        with (n + elapsed_ms (take k ns)).
      change (elapsed_ms (n :: take (S k) ns))
        with (n + elapsed_ms (take (S k) ns)).
      f_equal.
      * destruct (Z.ltb_spec (elapsed_ms (take k ns)) (T - n)),
                 (Z.ltb_spec (n + elapsed_ms (take k ns)) T);
          try reflexivity; lia.
      * destruct (Z.leb_spec (T - n) (elapsed_ms (take (S k) ns))),
                 (Z.leb_spec T (n + elapsed_ms (take (S k) ns)));
          try reflexivity; lia.
Qed.

(** C4: [updateComboTimer] leaves the state alone unless [combo > 0] and the
    timer is running; a call that does not use up a running timer returns
    [false] and lowers the timer by exactly [deltaMs]; it returns [true]
    exactly when a running timer reaches or passes zero, and then combo and
    timer are reset to zero; after a [true] result every later call returns
    [false] as long as [incrementCombo] is not called in between, and in
    any row of calls at most one returns [true]; with whole milliseconds
    (as many as a double holds exactly) the call that returns [true] is the
    one at which the time passed first reaches what was on the timer; and
    from combo 1 with 3000 ms left, deltas of 3000 ms and then 1 ms give
    [true] and then [false]. *)
Theorem updateComboTimer_fires_once (ls : Storage) (s : state) (d : Q) :
  (combo s <= 0 -> updateComboTimer d s = (false, s))
  /\ ((_comboTimer s <= 0)%Q -> updateComboTimer d s = (false, s))
  /\ (0 < combo s -> (0 < _comboTimer s)%Q -> (0 < _comboTimer s - d)%Q ->
      updateComboTimer d s
      = (false, set_comboTimer (_comboTimer s - d) s))
  /\ (fst (updateComboTimer d s) = true <->
      0 < combo s /\ (0 < _comboTimer s)%Q /\ (_comboTimer s - d <= 0)%Q)
  /\ (fst (updateComboTimer d s) = true ->
      snd (updateComboTimer d s)
      = resetCombo (set_comboTimer (_comboTimer s - d) s))
  /\ (fst (updateComboTimer d s) = true ->
      forall (ops : list op) (d' : Q),
        Forall (fun o => o <> OpIncrementCombo) ops ->
        fst (updateComboTimer d' (run ls ops (snd (updateComboTimer d s))))
        = false)
  /\ (forall ds : list Q,
        (count_occ bool_dec (fst (updateComboTimer_calls ds s)) true
         <= 1)%nat)
  /\ (forall (T : Z) (ns : list Z) (k : nat),
        0 < combo s -> (_comboTimer s == inject_Z T)%Q ->
        0 < T <= 2 ^ 53 -> Forall (fun n => 0 <= n) ns ->
        (k < length ns)%nat ->
        nth k (fst (updateComboTimer_calls (map inject_Z ns) s)) false
        = spec_expired T ns k)
  /\ (let s0 := set_comboTimer 3000 (set_combo 1 s) in
      fst (updateComboTimer 3000 s0) = true
      /\ fst (updateComboTimer 1 (snd (updateComboTimer 3000 s0))) = false
      /\ fst (updateComboTimer_calls [1000; 1000; 1000; 1]%Q s0)
         = [false; false; true; false]).
Proof.
  split; [apply updateComboTimer_idle|].
  split; [apply updateComboTimer_stopped|].
  split; [apply updateComboTimer_running|].
  split; [apply updateComboTimer_true_iff|].
  split; [apply updateComboTimer_true_state|].
  split.
  { intros Hfire ops d' Hall.
    destruct (updateComboTimer_true_resets d s Hfire) as [Hc _].
    rewrite updateComboTimer_idle; [reflexivity|].
    apply run_keeps_combo_nonpos; [exact Hall|lia]. }
  split; [intros ds; apply calls_fire_at_most_once|].
  split.
  { intros T ns k Hc Ht [HT _] Hns Hk. now apply calls_whole. }
  cbv zeta. repeat split; reflexivity.
Qed.

(** The theorem at work on a concrete session: the combo expires after a
    3000 ms frame, and score and life changes afterwards do not make the
    timer fire again; and of four calls with 1000, 1000, 1000 and 1 ms
    after an [incrementCombo], the third is the one that returns [true]. *)
Lemma updateComboTimer_fires_once_witness :
  fst (updateComboTimer 1
         (run None [OpAddScore 1; OpLoseLife; OpUpdateComboTimer 16]
            (snd (updateComboTimer 3000 (incrementCombo (new None))))))
  = false
  /\ nth 2 (fst (updateComboTimer_calls
                   (map inject_Z [1000; 1000; 1000; 1])
                   (incrementCombo (new None)))) false
     = true.
Proof.
  destruct (updateComboTimer_fires_once None (incrementCombo (new None))
              3000)
    as (_ & _ & _ & _ & _ & Hnever & _ & Hwhole & _).
  split.
  - apply Hnever.
    + reflexivity.
    + repeat constructor; discriminate.
  - rewrite (Hwhole 3000 [1000; 1000; 1000; 1] 2%nat).
    + reflexivity.
    + reflexivity.
    + reflexivity.
    + split; [lia|]. vm_compute. discriminate.
    + repeat constructor; lia.
    + cbn. lia.
Defined.

Lemma combo_inv_step (ls : Storage) (s : state) (o : op) :
  combo_inv s -> combo_inv (step ls s o).
Proof.
  intros [Hnn Hiff]. destruct o; cbn [step].
  - (* reset *) split; cbn; [lia|]. split; [lia|]. intros H; inversion H.
  - (* addScore *) split; cbn; assumption.
  - (* incrementCombo *) split; cbn; [lia|]. split; [reflexivity|lia].
  - (* resetCombo *) split; cbn; [lia|]. split; [lia|]. intros H; inversion H.
  - (* updateComboTimer *)
    unfold updateComboTimer.
    destruct (Z.ltb_spec 0 (combo s)) as [Hc|Hc]; cbn [andb];
      [|split; assumption].
    destruct (Qgtb (_comboTimer s) 0) eqn:Ht; [|split; assumption].
    cbn [set_comboTimer _comboTimer].
    destruct (Qleb (_comboTimer s - deltaMs) 0) eqn:He; cbn [snd].
    + split; cbn; [lia|]. split; [lia|]. intros H; inversion H.
    + apply Qleb_gt in He. split; cbn; [lia|]. tauto.
  - (* loseLife *) split; cbn; assumption.
Qed.

Lemma combo_inv_run (ls : Storage) (ops : list op) :
  forall s, combo_inv s -> combo_inv (run ls ops s).
Proof.
  induction ops as [|o ops IH]; intros s Hs; cbn; [exact Hs|].
  apply IH. now apply combo_inv_step.
Qed.

Lemma combo_inv_new (ls : Storage) : combo_inv (new ls).
Proof.
  split; cbn; [lia|]. split; [lia|]. intros H; inversion H.
Qed.

(** C5: after any sequence of [reset], [addScore], [incrementCombo],
    [resetCombo], [updateComboTimer] and [loseLife] calls on a freshly
    constructed game state, [combo > 0] holds exactly when
    [_comboTimer > 0]. *)
Theorem combo_positive_iff_timer_positive (ls : Storage) (ops : list op) :
  0 < combo (run ls ops (new ls))
  <-> (0 < _comboTimer (run ls ops (new ls)))%Q.
Proof.
  destruct (combo_inv_run ls ops (new ls) (combo_inv_new ls)) as [_ H].
  exact H.
Qed.

(** C6: [reset()] on any prior state puts [score], [lives], [combo],
    [currentSpeed], [started], [gameOver] and the combo timer back to their
    initial values and leaves [bestScore], [bestCombo] and [isMuted] as they
    were; the best score after a restart followed by scoring [p] points is
    the larger of the old best and [p], so a best of 50 survives a session
    that only scores 10. *)
Theorem reset_keeps_bests (ls : Storage) (s : state) (p : Z) :
  let s' := reset ls (Some s) in
  score s' = 0 /\ lives s' = GAMEPLAY.LIVES /\ combo s' = 0
  /\ currentSpeed s' = GAMEPLAY.AUTO_SPEED
  /\ started s' = false /\ gameOver s' = false /\ _comboTimer s' = 0%Q
  /\ score s' = score (new ls) /\ lives s' = lives (new ls)
  /\ combo s' = combo (new ls) /\ currentSpeed s' = currentSpeed (new ls)
  /\ bestScore s' = bestScore s /\ bestCombo s' = bestCombo s
  /\ isMuted s' = isMuted s
  /\ bestScore (snd (addScore p s')) = Z.max (bestScore s) p
  /\ bestScore (snd (addScore 10 (reset ls (Some (set_bestScore 50 s))))) = 50.
Proof.
  cbv zeta. unfold reset. cbn -[or_zero Z.max Z.mul].
  rewrite !or_zero_Some.
  repeat split.
  change (Z.max 1 (Z.min 0 COMBO.MULTIPLIER_CAP)) with 1.
  rewrite Z.mul_1_r, Z.add_0_l.
  destruct (Z.ltb_spec (bestScore s) p); lia.
Qed.

End GameStateSpec.

(** ** Collision predicates *)

(** C10: the three collision predicates read only the X and Z coordinates:
    replacing the Y coordinates of both positions by any other values leaves
    each result unchanged, and each of the three predicates holds exactly
    when its two objects are still to be tested (a live envelope and an
    unhit house; a live agent that has not collided; a live panic point
    that is not collected) and the Euclidean distance in the XZ plane is
    below its threshold.  An envelope at the top of its arc (2.5 above the
    ground) at a house's XZ position counts as a hit. *)
Theorem collision_predicates_ignore_height
  (e : Envelope.t) (h : House.t) (a : Agent.t) (pp : PanicPoint.t)
  (player : Vector3.t) (y1 y2 : Q) :
  Envelope.checkHouse
    (Envelope.set_position (Vector3.set_y y1 (Envelope.position e)) e)
    (House.set_position (Vector3.set_y y2 (House.position h)) h)
  = Envelope.checkHouse e h
  /\ Agent.checkPlayer
       (Agent.set_position (Vector3.set_y y1 (Agent.position a)) a)
       (Vector3.set_y y2 player)
     = Agent.checkPlayer a player
  /\ PanicPoint.checkPlayer
       (PanicPoint.set_position (Vector3.set_y y1 (PanicPoint.position pp)) pp)
       (Vector3.set_y y2 player)
     = PanicPoint.checkPlayer pp player
  /\ (Envelope.checkHouse e h = true <->
      Envelope.alive e = true /\ House.isHit h = false /\
      (sqrt (Q2R (Vector3.xz_distance_sq (Envelope.position e)
                                         (House.position h)))
       < Q2R ENVELOPE.COLLISION_THRESHOLD)%R)
  /\ (Agent.checkPlayer a player = true <->
      Agent.alive a = true /\ Agent.hasCollided a = false /\
      (sqrt (Q2R (Vector3.xz_distance_sq (Agent.position a) player))
       < Q2R AGENT.COLLISION_RADIUS)%R)
  /\ (PanicPoint.checkPlayer pp player = true <->
      PanicPoint.collected pp = false /\ PanicPoint.alive pp = true /\
      (sqrt (Q2R (Vector3.xz_distance_sq (PanicPoint.position pp) player))
       < Q2R PANIC_POINT.COLLECT_RADIUS)%R)
  /\ Envelope.checkHouse
       (Envelope.set_position
          (Vector3.mk (Vector3.x (House.position h)) 2.5
                      (Vector3.z (House.position h)))
          (Envelope.set_alive true e))
       (House.set_position (Vector3.set_y 0 (House.position h)) h)
     = negb (House.isHit h).
Proof.
  split; [reflexivity|]. split; [reflexivity|]. split; [reflexivity|].
  split.
  { unfold Envelope.checkHouse.
    destruct (Envelope.alive e), (House.isHit h); cbn [negb orb];
      try (split; [discriminate | intros (? & ? & _); discriminate]).
    rewrite sqrt_lt_real by apply sum_of_squares_nonneg.
    tauto. }
  split.
  { unfold Agent.checkPlayer.
    destruct (Agent.alive a), (Agent.hasCollided a); cbn [negb orb];
      try (split; [discriminate | intros (? & ? & _); discriminate]).
    rewrite sqrt_lt_real by apply sum_of_squares_nonneg.
    tauto. }
  split.
  { unfold PanicPoint.checkPlayer.
    destruct (PanicPoint.collected pp), (PanicPoint.alive pp);
      cbn [negb orb];
      try (split; [discriminate | intros (? & ? & _); discriminate]).
    rewrite sqrt_lt_real by apply sum_of_squares_nonneg.
    tauto. }
  unfold Envelope.checkHouse. cbn.
  destruct (House.isHit h); [reflexivity|]. cbn [negb].
  destruct (House.position h) as [hx hy hz]. cbn.
  unfold sqrt_lt. rewrite andb_true_iff, !Qltb_lt.
  unfold ENVELOPE.COLLISION_THRESHOLD. split; [reflexivity|].
  nra.
Qed.

(** ** EventBus *)

Section EventBusSpec.
Context {Data App : Type}.
Import EventBus.

Local Abbreviation World := (@world App).

(** The callback wrapper of [emit] never throws. *)
Lemma try_catch_console_error_normal
  (body : World -> World * completion) (msg : string) (w : World) :
  snd (try_catch body (console_error msg) w) = Normal.
Proof.
  unfold try_catch. destruct (body w) as [w' [|err]]; reflexivity.
Qed.

(** [forEach] with a function that never throws visits the whole array. *)
Lemma forEach_total (f : callback -> World -> World * completion)
  (Hf : forall c w, snd (f c w) = Normal) (arr : list callback) :
  forall w, snd (fst (forEach f arr w)) = Normal
            /\ snd (forEach f arr w) = arr.
Proof.
  induction arr as [|c rest IH]; intros w; cbn; [split; reflexivity|].
  specialize (Hf c w). destruct (f c w) as [w' o]. cbn in Hf. subst o.
  specialize (IH w'). destruct (forEach f rest w') as [r called].
  cbn in *. destruct IH as [H1 H2]. split; [exact H1|]. now rewrite H2.
Qed.

Lemma emit_calls_subscribers (run : behaviour (Data:=Data) (App:=App))
  (event : string) (data : Data) (w : World) :
  inherited event = false ->
  snd (fst (emit run event data w)) = Normal
  /\ snd (emit run event data w) = subscribers (bus w) event.
Proof.
  intros Hin. unfold emit, subscribers, get. rewrite Hin.
  destruct (listeners (bus w) !! event) as [arr|]; cbn;
    [|split; reflexivity].
  apply forEach_total. intros c w0. apply try_catch_console_error_normal.
Qed.

Lemma on_subscribers (event : string) (cb : callback) (b : t) :
  inherited event = false ->
  subscribers (fst (on event cb b)) event = subscribers b event ++ [cb].
Proof.
  intros Hin. unfold on, subscribers, get. rewrite Hin.
  destruct (listeners b !! event) as [arr|]; cbn;
    rewrite lookup_insert_eq; reflexivity.
Qed.

Lemma on_all_subscribers (event : string) (hs : list callback) :
  inherited event = false ->
  forall b : t,
    subscribers (on_all event hs b) event = subscribers b event ++ hs.
Proof.
  intros Hin. unfold on_all.
  induction hs as [|h hs IH]; intros b; cbn.
  - now rewrite app_nil_r.
  - rewrite IH, on_subscribers, <- app_assoc by exact Hin. reflexivity.
Qed.

(** C9: for an event name that can carry subscriptions (any string that is
    not a property name of [Object.prototype]), whatever the callbacks do
    (throwing included), [emit] calls every callback subscribed to the
    event, once each and in the order in which [on] registered them, and
    itself ends normally; a callback that throws [err] is followed by a
    console entry and not by an exception. *)
Theorem emit_delivers_in_registration_order
  (run : behaviour (Data:=Data) (App:=App)) (event : string) (data : Data)
  (b0 : t) (hs : list callback) (a : App) (log : list (string * string))
  (err msg : string) :
  inherited event = false ->
  snd (emit run event data (mkWorld (on_all event hs b0) a log))
  = subscribers b0 event ++ hs
  /\ snd (fst (emit run event data (mkWorld (on_all event hs b0) a log)))
     = Normal
  /\ try_catch (fun w0 => (w0, Throw err)) (console_error msg)
       (mkWorld (on_all event hs b0) a log)
     = (mkWorld (on_all event hs b0) a (log ++ [(msg, err)]), Normal).
Proof.
  intros Hin.
  destruct (emit_calls_subscribers run event data
              (mkWorld (on_all event hs b0) a log) Hin) as [Hn Hc].
  split; [|split; [exact Hn | reflexivity]].
  rewrite Hc. cbn [bus]. now apply on_all_subscribers.
Qed.

End EventBusSpec.

(** The theorem on [Scenario.behaviour]: three callbacks subscribed to
    HOUSE_HIT, the second of which throws; all three are called, in order,
    the call ends normally and the error is on the console. *)
Lemma emit_delivers_in_registration_order_witness :
  snd (EventBus.emit Scenario.behaviour Events.HOUSE_HIT 7%nat
         Scenario.bus_world)
  = [10; 20; 30]%nat
  /\ EventBus.emit Scenario.behaviour Events.HOUSE_HIT 7%nat
       Scenario.bus_world
     = ((EventBus.mkWorld (EventBus.bus Scenario.bus_world)
           [(30, 7); (20, 7); (10, 7)]%nat
           [("EventBus error in house:hit:", "boom")]%string,
         EventBus.Normal),
        [10; 20; 30]%nat).
Proof.
  split; [|vm_compute; reflexivity].
  apply (proj1 (emit_delivers_in_registration_order
                  Scenario.behaviour Events.HOUSE_HIT 7%nat EventBus.new
                  [10; 20; 30]%nat [] [] "" "" eq_refl)).
Defined.


(** ** StreetGenerator *)

Section StreetGeneratorSpec.
Import StreetGenerator.
Variable M : MathEnv.

Lemma maybe_house_generatedZ (x z : Q) (sd : House.Side) (s : t) :
  _generatedZ (maybe_house M x z sd s) = _generatedZ s.
Proof.
  unfold maybe_house. destruct (Qgtb _ _); reflexivity.
Qed.

Lemma generateRow_generatedZ (z : Q) (s : t) :
  _generatedZ (_generateRow M z s) = _generatedZ s.
Proof.
  unfold _generateRow. now rewrite !maybe_house_generatedZ.
Qed.

Lemma generate_rows_generatedZ (fuel : nat) (limit : Q) :
  forall s, _generatedZ (generate_rows M fuel limit s)
            = rows_z fuel limit (_generatedZ s).
Proof.
  induction fuel as [|fuel IH]; intros s; cbn; [reflexivity|].
  destruct (Qgtb (_generatedZ s) limit); [|reflexivity].
  rewrite IH. cbn. now rewrite generateRow_generatedZ.
Qed.

Lemma rows_z_le (fuel : nat) (limit : Q) :
  forall g, (rows_z fuel limit g <= g)%Q.
Proof.
  induction fuel as [|fuel IH]; intros g; cbn; [apply Qle_refl|].
  destruct (Qgtb g limit); [|apply Qle_refl].
  specialize (IH (g - HOUSE.SPACING_Z)%Q).
  unfold HOUSE.SPACING_Z in *. lra.
Qed.

(** With enough fuel the loop stops because its condition fails. *)
Lemma rows_z_exit (fuel : nat) (limit : Q) :
  forall g, ((g - limit) / HOUSE.SPACING_Z <= inject_Z (Z.of_nat fuel))%Q ->
            (rows_z fuel limit g <= limit)%Q.
Proof.
  unfold HOUSE.SPACING_Z, Qdiv. change (/ 6)%Q with (1 # 6)%Q.
  induction fuel as [|fuel IH]; intros g Hfuel.
  - change (inject_Z (Z.of_nat 0)) with 0%Q in Hfuel. cbn [rows_z]. lra.
  - cbn [rows_z]. destruct (Qgtb g limit) eqn:Hg.
    + apply IH. rewrite Nat2Z.inj_succ in Hfuel.
      unfold Z.succ in Hfuel. rewrite inject_Z_plus in Hfuel.
      change (inject_Z 1) with 1%Q in Hfuel.
      unfold HOUSE.SPACING_Z. lra.
    + now apply Qgtb_le in Hg.
Qed.

Lemma passes_enough (start stop step : Q) :
  ((start - stop) / step <= inject_Z (Z.of_nat (passes start stop step)))%Q.
Proof.
  unfold passes.
  eapply Qle_trans; [apply Qle_ceiling|].
  rewrite <- Zle_Qle. lia.
Qed.

Lemma generate_rows_until_filled (limit : Q) (s : t) :
  (_generatedZ (generate_rows_until M limit s) <= limit)%Q
  /\ (_generatedZ (generate_rows_until M limit s) <= _generatedZ s)%Q.
Proof.
  unfold generate_rows_until. rewrite generate_rows_generatedZ.
  split; [apply rows_z_exit, passes_enough | apply rows_z_le].
Qed.

Lemma generateStreetSurface_generatedZ (a b : Q) (s : t) :
  _generatedZ (_generateStreetSurface a b s) = _generatedZ s.
Proof. reflexivity. Qed.

Lemma update_generatedZ (currentSpeed delta playerZ : Q) (s : t) :
  _generatedZ (update M currentSpeed delta playerZ s)
  = _generatedZ
      (generate_rows_until M (playerZ - HOUSE.SPAWN_DISTANCE) s).
Proof.
  unfold update.
  set (s1 := generate_rows_until M _ s).
  assert (H2 : _generatedZ (extend_street playerZ s1) = _generatedZ s1).
  { unfold extend_street. destruct (Qltb _ _); reflexivity. }
  set (s2 := extend_street playerZ s1) in *.
  destruct (update_houses M delta (houses s2) (draws s2)) as [hs n].
  set (s3 := set_houses hs n s2).
  assert (H4 : _generatedZ (spawn_tick M currentSpeed delta playerZ s3)
               = _generatedZ s3).
  { unfold spawn_tick. destruct (Qleb _ _); reflexivity. }
  cbn. rewrite H4. cbn. exact H2.
Qed.

Lemma initial_generatedZ (n : nat) :
  _generatedZ (_generateInitial M (blank n)) = (-80)%Q.
Proof.
  unfold _generateInitial. rewrite generateStreetSurface_generatedZ.
  unfold generate_rows_until. rewrite generate_rows_generatedZ.
  vm_compute. reflexivity.
Qed.

Lemma run_updates_generatedZ_le (frames : list frame) :
  forall s, (_generatedZ (run_updates M frames s) <= _generatedZ s)%Q.
Proof.
  induction frames as [|f frames IH]; intros s; cbn; [apply Qle_refl|].
  eapply Qle_trans; [apply IH|].
  rewrite update_generatedZ. apply generate_rows_until_filled.
Qed.

(** C7: an [update(delta, playerZ)] never increases [_generatedZ], and when
    it returns the rows reach the far end of the spawn window,
    [_generatedZ <= playerZ - SPAWN_DISTANCE]; the same holds along any
    sequence of updates; [reset()] leaves [_generatedZ] at the value the
    constructor leaves it at, -80. *)
Theorem generatedZ_window_refilled
  (currentSpeed delta playerZ : Q) (s : t) (n : nat)
  (frames : list frame) :
  (_generatedZ (update M currentSpeed delta playerZ s) <= _generatedZ s)%Q
  /\ (_generatedZ (update M currentSpeed delta playerZ s)
      <= playerZ - HOUSE.SPAWN_DISTANCE)%Q
  /\ (_generatedZ (run_updates M frames s) <= _generatedZ s)%Q
  /\ (_generatedZ
        (run_updates M (frames ++ [mkFrame currentSpeed delta playerZ]) s)
      <= playerZ - HOUSE.SPAWN_DISTANCE)%Q
  /\ _generatedZ (reset M s) = _generatedZ (new M n)
  /\ _generatedZ (new M n) = (-80)%Q.
Proof.
  split; [|split; [|split; [apply run_updates_generatedZ_le|split]]].
  - rewrite update_generatedZ. apply generate_rows_until_filled.
  - rewrite update_generatedZ. apply generate_rows_until_filled.
  - unfold run_updates. rewrite fold_left_app. cbn.
    rewrite update_generatedZ. apply generate_rows_until_filled.
  - unfold reset, new. rewrite !initial_generatedZ. split; reflexivity.
Qed.

End StreetGeneratorSpec.

(** ** The layout of the street *)

Section LayoutSpec.
Import Layout.
Variable M : MathEnv.

Lemma rows_apart_snoc (hs : list House.t) (x : House.t) :
  rows_apart hs -> Forall (fun h => apart h x) hs -> rows_apart (hs ++ [x]).
Proof.
  induction hs as [|h hs IH]; intros Hr Hx; cbn; [split; constructor|].
  destruct Hr as [Hh Hr]. inversion Hx as [|? ? Hhx Hx']; subst.
  split; [|now apply IH].
  apply Forall_app_2; [exact Hh|]. constructor; [exact Hhx|constructor].
Qed.

Lemma rows_apart_lookup (hs : list House.t) :
  rows_apart hs ->
  forall (i j : nat) (a b : House.t),
    (i < j)%nat -> hs !! i = Some a -> hs !! j = Some b -> apart a b.
Proof.
  induction hs as [|h hs IH]; intros Hr i j a b Hij Hi Hj; [discriminate|].
  destruct Hr as [Hh Hr].
  destruct j as [|j]; [lia|]. cbn in Hj.
  destruct i as [|i]; cbn in Hi.
  - injection Hi as ->. rewrite Forall_lookup in Hh. eapply Hh; eassumption.
  - apply (IH Hr i j a b); [lia|assumption|assumption].
Qed.

Lemma apart_later (a b a' b' : House.t) :
  later a a' -> later b b' -> apart a b -> apart a' b'.
Proof.
  intros (Hza & Hsa & _) (Hzb & Hsb & _). unfold apart.
  rewrite Hza, Hzb, Hsa, Hsb. tauto.
Qed.

Lemma Forall_apart_later (a a' : House.t) (hs hs' : list House.t) :
  later a a' -> Forall2 later hs hs' ->
  Forall (apart a) hs -> Forall (apart a') hs'.
Proof.
  intros Ha H2. induction H2 as [|b b' hs hs' Hb H2 IH]; intros Hf;
    [constructor|].
  inversion Hf as [|? ? Hab Hf']; subst.
  constructor; [eapply apart_later; eassumption|now apply IH].
Qed.

(** The layout only depends on the plots and on the houses being at rest. *)
Lemma street_later (hs hs' : list House.t) :
  Forall2 later hs hs' -> street hs -> street hs'.
Proof.
  intros H2. induction H2 as [|h h' hs hs' Hh H2 IH];
    intros [Hrest Hrows]; [split; constructor|].
  inversion Hrest as [|? ? Hr Hrest']; subst.
  destruct Hrows as [Hap Hrows].
  destruct (IH (conj Hrest' Hrows)) as [IH1 IH2].
  split; [|split].
  - constructor; [|exact IH1]. destruct Hh as (_ & _ & Hat). exact (Hat Hr).
  - eapply Forall_apart_later; eassumption.
  - exact IH2.
Qed.

Lemma behind_later (g : Q) (hs hs' : list House.t) :
  Forall2 later hs hs' -> Forall (behind g) hs -> Forall (behind g) hs'.
Proof.
  intros H2. induction H2 as [|h h' hs hs' Hh H2 IH]; intros Hb;
    [constructor|].
  inversion Hb as [|? ? Hbh Hb']; subst.
  constructor; [|now apply IH].
  destruct Hh as (Hz & _). unfold behind in *. now rewrite Hz.
Qed.

Lemma ok_later (g : Q) (hs hs' : list House.t) :
  Forall2 later hs hs' -> ok g hs -> ok g hs'.
Proof.
  intros H2 [Hs Hb].
  split; [eapply street_later|eapply behind_later]; eassumption.
Qed.

Lemma later_trans (a b c : House.t) : later a b -> later b c -> later a c.
Proof.
  intros (Hz1 & Hs1 & Hr1) (Hz2 & Hs2 & Hr2).
  split; [congruence|]. split; [congruence|]. auto.
Qed.

Lemma Forall2_later_trans (l1 l2 : list House.t) :
  Forall2 later l1 l2 ->
  forall l3, Forall2 later l2 l3 -> Forall2 later l1 l3.
Proof.
  induction 1 as [|a b l1 l2 Hab H12 IH]; intros l3 H23;
    inversion H23 as [|? c ? l3' Hbc H23']; subst; constructor.
  - eapply later_trans; eassumption.
  - now apply IH.
Qed.

Lemma later_refl (h : House.t) : later h h.
Proof. exact (conj eq_refl (conj eq_refl (fun H => H))). Qed.

Lemma Forall2_later_refl (hs : list House.t) : Forall2 later hs hs.
Proof. induction hs; constructor; [apply later_refl|assumption]. Qed.

(** Being hit keeps a house on its plot. *)
Lemma hit_later (h : House.t) : later h (House.hit h).
Proof.
  unfold House.hit. destruct (House.isHit h) eqn:E; [apply later_refl|].
  split; [reflexivity|]. split; [reflexivity|].
  intros _ Hhit. discriminate.
Qed.

Lemma insert_hit_later (hs : list House.t) :
  forall (i : nat) (h : House.t),
    hs !! i = Some h -> Forall2 later hs (<[i := House.hit h]> hs).
Proof.
  induction hs as [|k hs IH]; intros i h Hi; [discriminate|].
  destruct i as [|i]; cbn in Hi.
  - injection Hi as ->. constructor; [apply hit_later|].
    apply Forall2_later_refl.
  - constructor; [apply later_refl|]. now apply IH.
Qed.

(** A frame's [update] keeps a house on its plot: only houses that have
    been hit shake. *)
Lemma update_later (n : nat) (delta : Q) (h : House.t) :
  later h (fst (House.update M n delta h)).
Proof.
  unfold House.update.
  destruct (House.update_shake M n delta h) as [h1 n1] eqn:Hshake.
  cbn [fst].
  assert (H1 : Vector3.z (House.position h1) = Vector3.z (House.position h)
               /\ House.side h1 = House.side h
               /\ House.isHit h1 = House.isHit h
               /\ (House._shakeTimer h = 0%Q -> h1 = h)).
  { unfold House.update_shake in Hshake.
    destruct (Qgtb (House._shakeTimer h) 0) eqn:Hgt;
      injection Hshake as <- <-;
      (split; [reflexivity|]); (split; [reflexivity|]);
      (split; [reflexivity|]).
    - intros H0. rewrite H0 in Hgt. discriminate.
    - reflexivity. }
  destruct H1 as (Hz & Hs & Hhit & Hsame).
  assert (H2 : forall k : House.t,
             House.position (House.update_flash delta k) = House.position k
             /\ House.side (House.update_flash delta k) = House.side k
             /\ House.isHit (House.update_flash delta k) = House.isHit k
             /\ House._shakeTimer (House.update_flash delta k)
                = House._shakeTimer k).
  { intros k. unfold House.update_flash.
    destruct (Qgtb (House._flashTimer k) 0);
      (split; [reflexivity|]); (split; [reflexivity|]);
      split; reflexivity. }
  destruct (H2 h1) as (Hp2 & Hs2 & Hh2 & Ht2).
  unfold later, at_rest. rewrite Hp2, Hs2, Hh2, Ht2, Hz, Hs, Hhit.
  split; [reflexivity|]. split; [reflexivity|].
  intros Hrest Hunhit.
  destruct (Hrest Hunhit) as [H0 Hx].
  rewrite (Hsame H0). split; assumption.
Qed.

Lemma update_houses_later (delta : Q) (hs : list House.t) :
  forall n, Forall2 later hs (fst (StreetGenerator.update_houses M delta hs n)).
Proof.
  induction hs as [|h hs IH]; intros n; cbn; [constructor|].
  pose proof (update_later n delta h) as Hh.
  destruct (House.update M n delta h) as [h' n1].
  specialize (IH n1).
  destruct (StreetGenerator.update_houses M delta hs n1) as [hs' n2].
  constructor; assumption.
Qed.

Lemma filter_Forall {A : Type} (P : A -> Prop) (p : A -> bool) (l : list A) :
  Forall P l -> Forall P (List.filter p l).
Proof.
  induction 1 as [|a l Ha Hl IH]; cbn; [constructor|].
  destruct (p a); [constructor|]; assumption.
Qed.

Lemma filter_rows_apart (p : House.t -> bool) (hs : list House.t) :
  rows_apart hs -> rows_apart (List.filter p hs).
Proof.
  induction hs as [|h hs IH]; intros Hr; cbn; [exact I|].
  destruct Hr as [Hh Hr]. destruct (p h); [|now apply IH].
  split; [now apply filter_Forall|now apply IH].
Qed.

Lemma ok_filter (g : Q) (p : House.t -> bool) (hs : list House.t) :
  ok g hs -> ok g (List.filter p hs).
Proof.
  intros [[Hrest Hrows] Hbehind].
  repeat split;
    [now apply filter_Forall|now apply filter_rows_apart
    |now apply filter_Forall].
Qed.

(** A new house at the front row [g] fits the layout when the houses
    already there, all of which satisfy [P], stand in earlier rows or on the
    other side of the street. *)
Lemma maybe_house_street (g : Q) (sd : House.Side) (P : House.t -> Prop)
  (s : StreetGenerator.t) :
  street (StreetGenerator.houses s) ->
  Forall P (StreetGenerator.houses s) ->
  (forall h, P h -> behind g h
                    \/ (Vector3.z (House.position h) = g
                        /\ House.side h <> sd)) ->
  street (StreetGenerator.houses
            (StreetGenerator.maybe_house M (row_x sd) g sd s))
  /\ Forall (fun h => P h \/ (Vector3.z (House.position h) = g
                              /\ House.side h = sd))
            (StreetGenerator.houses
               (StreetGenerator.maybe_house M (row_x sd) g sd s)).
Proof.
  intros [Hrest Hrows] Hold HP.
  unfold StreetGenerator.maybe_house.
  destruct (Qgtb _ _); cbn [House.new StreetGenerator.set_houses
                            StreetGenerator.houses].
  - split; [split|].
    + apply Forall_app_2; [exact Hrest|].
      constructor; [|constructor]. intros _. split; reflexivity.
    + apply rows_apart_snoc; [exact Hrows|].
      eapply Forall_impl; [exact Hold|].
      intros h Hh. destruct (HP h Hh) as [Hb|[Hz Hs]]; unfold apart; cbn.
      * left. unfold behind in Hb. lra.
      * right. exact Hs.
    + apply Forall_app_2.
      * eapply Forall_impl; [exact Hold|]. intros h Hh. now left.
      * constructor; [|constructor]. right. split; reflexivity.
  - split; [split; assumption|].
    eapply Forall_impl; [exact Hold|]. intros h Hh. now left.
Qed.

(** A whole row at the high-water mark fits the layout, and the mark can
    move on by one spacing. *)
Lemma generateRow_ok (s : StreetGenerator.t) :
  ok (StreetGenerator._generatedZ s) (StreetGenerator.houses s) ->
  ok (StreetGenerator._generatedZ s - HOUSE.SPACING_Z)
     (StreetGenerator.houses
        (StreetGenerator._generateRow M (StreetGenerator._generatedZ s) s)).
Proof.
  intros [Hstreet Hbehind].
  set (g := StreetGenerator._generatedZ s) in *.
  unfold StreetGenerator._generateRow.
  destruct (maybe_house_street g House.side_left (behind g) s Hstreet Hbehind)
    as (Hs1 & H1); [intros h Hh; now left|].
  cbn [row_x] in Hs1, H1.
  set (s1 := StreetGenerator.maybe_house M (- STREET.HOUSE_OFFSET_X) g
               House.side_left s) in *.
  destruct (maybe_house_street g House.side_right _ s1 Hs1 H1) as (Hs2 & H2).
  { intros h [Hb|[Hz Hs]]; [now left|right].
    split; [exact Hz|]. rewrite Hs. discriminate. }
  cbn [row_x] in Hs2, H2.
  split; [exact Hs2|].
  eapply Forall_impl; [exact H2|].
  intros h [[Hb|[Hz _]]|[Hz _]]; unfold behind in *;
    unfold HOUSE.SPACING_Z in *; try rewrite Hz; lra.
Qed.

Lemma generate_rows_ok (fuel : nat) (limit : Q) :
  forall s,
    ok (StreetGenerator._generatedZ s) (StreetGenerator.houses s) ->
    ok (StreetGenerator._generatedZ
          (StreetGenerator.generate_rows M fuel limit s))
       (StreetGenerator.houses
          (StreetGenerator.generate_rows M fuel limit s)).
Proof.
  induction fuel as [|fuel IH]; intros s Hok; cbn; [exact Hok|].
  destruct (Qgtb _ _); [|exact Hok].
  apply IH. cbn. rewrite generateRow_generatedZ.
  now apply generateRow_ok.
Qed.

(** The generator keeps its houses laid out in rows, and the rows behind
    the high-water mark. *)
Lemma update_ok (currentSpeed delta playerZ : Q) (s : StreetGenerator.t) :
  ok (StreetGenerator._generatedZ s) (StreetGenerator.houses s) ->
  ok (StreetGenerator._generatedZ
        (StreetGenerator.update M currentSpeed delta playerZ s))
     (StreetGenerator.houses
        (StreetGenerator.update M currentSpeed delta playerZ s)).
Proof.
  intros Hok. unfold StreetGenerator.update.
  set (s1 := StreetGenerator.generate_rows_until M _ s).
  assert (H1 : ok (StreetGenerator._generatedZ s1)
                  (StreetGenerator.houses s1))
    by now apply generate_rows_ok.
  assert (H2 : StreetGenerator._generatedZ
                 (StreetGenerator.extend_street playerZ s1)
               = StreetGenerator._generatedZ s1
               /\ StreetGenerator.houses
                    (StreetGenerator.extend_street playerZ s1)
                  = StreetGenerator.houses s1).
  { unfold StreetGenerator.extend_street.
    destruct (Qltb _ _); split; reflexivity. }
  set (s2 := StreetGenerator.extend_street playerZ s1) in *.
  destruct H2 as [Hg2 Hh2].
  pose proof (update_houses_later delta (StreetGenerator.houses s2)
                (StreetGenerator.draws s2)) as Hlater.
  destruct (StreetGenerator.update_houses M delta (StreetGenerator.houses s2)
              (StreetGenerator.draws s2)) as [hs n].
  cbn [fst] in Hlater.
  set (s3 := StreetGenerator.set_houses hs n s2).
  assert (H4 : StreetGenerator._generatedZ
                 (StreetGenerator.spawn_tick M currentSpeed delta playerZ s3)
               = StreetGenerator._generatedZ s3
               /\ StreetGenerator.houses
                    (StreetGenerator.spawn_tick M currentSpeed delta playerZ s3)
                  = StreetGenerator.houses s3).
  { unfold StreetGenerator.spawn_tick.
    destruct (Qleb _ _); split; reflexivity. }
  destruct H4 as [Hg4 Hh4].
  cbn [StreetGenerator._cleanup StreetGenerator._generatedZ
       StreetGenerator.houses StreetGenerator.set_agents].
  rewrite Hg4, Hh4. cbn [s3 StreetGenerator.set_houses
                         StreetGenerator._generatedZ StreetGenerator.houses].
  rewrite Hg2. apply ok_filter.
  apply (ok_later _ (StreetGenerator.houses s2) hs Hlater).
  rewrite Hh2. exact H1.
Qed.

Lemma new_ok (n : nat) :
  ok (StreetGenerator._generatedZ (StreetGenerator.new M n))
     (StreetGenerator.houses (StreetGenerator.new M n)).
Proof.
  unfold StreetGenerator.new, StreetGenerator._generateInitial.
  cbn [StreetGenerator._generateStreetSurface
       StreetGenerator.set_streetSegments
       StreetGenerator._generatedZ StreetGenerator.houses].
  apply generate_rows_ok. cbn.
  split; [split|]; constructor.
Qed.

Lemma reset_ok (s : StreetGenerator.t) :
  ok (StreetGenerator._generatedZ (StreetGenerator.reset M s))
     (StreetGenerator.houses (StreetGenerator.reset M s)).
Proof. apply new_ok. Qed.

Lemma apply_ok (s : StreetGenerator.t) (c : change) :
  ok (StreetGenerator._generatedZ s) (StreetGenerator.houses s) ->
  ok (StreetGenerator._generatedZ (apply M s c))
     (StreetGenerator.houses (apply M s c)).
Proof.
  intros Hok. destruct c as [f|i|]; cbn [apply].
  - now apply update_ok.
  - destruct (StreetGenerator.houses s !! i) as [h|] eqn:Hi; [|exact Hok].
    cbn. eapply ok_later; [|exact Hok]. now apply insert_hit_later.
  - apply reset_ok.
Qed.

(** Whatever happened since the generator was built, its houses are laid
    out in rows. *)
Lemma history_street (n : nat) (cs : list change) :
  street (StreetGenerator.houses (history M n cs)).
Proof.
  assert (H : forall s,
             ok (StreetGenerator._generatedZ s) (StreetGenerator.houses s) ->
             ok (StreetGenerator._generatedZ (fold_left (apply M) cs s))
                (StreetGenerator.houses (fold_left (apply M) cs s))).
  { induction cs as [|c cs IH]; intros s Hok; cbn; [exact Hok|].
    apply IH. now apply apply_ok. }
  apply (H (StreetGenerator.new M n) (new_ok n)).
Qed.

End LayoutSpec.

(** ** The envelope/house collision pass *)

Section CheckEnvelopeHitsSpec.
Import Game.
Variable E : Game.env.

Lemma hit_already_hit (h : House.t) :
  House.isHit h = true -> House.hit h = h.
Proof. intros H. unfold House.hit. now rewrite H. Qed.

Lemma hit_isHit (h : House.t) : House.isHit (House.hit h) = true.
Proof.
  unfold House.hit. destruct (House.isHit h) eqn:Hh; [exact Hh|reflexivity].
Qed.

Lemma indices_where_lookup {A : Type} (p : A -> bool) (l : list A) :
  forall (n k : nat) (a : A),
    l !! n = Some a -> p a = true ->
    (k + n)%nat ∈ StreetGenerator.indices_where p l k.
Proof.
  induction l as [|b l IH]; intros n k a Hl Hp; [discriminate|].
  destruct n as [|n]; cbn in Hl.
  - injection Hl as ->. cbn. rewrite Hp, Nat.add_0_r. left.
  - cbn. replace (k + S n)%nat with (S k + n)%nat by lia.
    destruct (p b); [right|]; eapply IH; eassumption.
Qed.

Lemma getHousesInRange_lookup (pz : Q) (hs : list House.t) (i : nat)
  (h : House.t) :
  hs !! i = Some h -> House.isHit h = false ->
  Qltb (Math_abs (Vector3.z (House.position h) - pz)) 50 = true ->
  i ∈ StreetGenerator.getHousesInRange pz 50 hs.
Proof.
  intros Hl Hh Hr. unfold StreetGenerator.getHousesInRange.
  apply (indices_where_lookup _ hs i 0%nat h Hl).
  now rewrite Hh, Hr.
Qed.

Lemma count_topic_emit (tp t : string) (d : payload) (g : Game.t) :
  count_topic tp (events (emit E t d g))
  = (count_topic tp (events g) + (if String.eqb t tp then 1 else 0))%nat.
Proof.
  unfold count_topic, emit. cbn [events].
  rewrite List.filter_app, length_app. cbn.
  destruct (String.eqb t tp); reflexivity.
Qed.

Lemma register_hit_houses (i : nat) (h : House.t) (g : Game.t) :
  houses (register_hit E i h g) = <[i := House.hit h]> (houses g).
Proof.
  unfold register_hit, emit_if.
  destruct (3 <=? _), (5 <=? _); reflexivity.
Qed.

(** A registered hit puts one new homeowner, built by the constructor from
    the house, at the end of [homeowners]. *)
Lemma register_hit_homeowners (i : nat) (h : House.t) (g : Game.t) :
  exists rng : nat,
    homeowners (register_hit E i h g)
    = homeowners g
      ++ [fst (Homeowner.new (math E) (sqrt E) rng (modelLoaded E)
                 (House.position (House.hit h)) (House.side (House.hit h)))].
Proof.
  unfold register_hit, emit_if, _spawnHomeowner.
  destruct (3 <=? _), (5 <=? _); eexists; reflexivity.
Qed.

Lemma register_hit_events (i : nat) (h : House.t) (g : Game.t) :
  count_topic Events.HOUSE_HIT (events (register_hit E i h g))
  = S (count_topic Events.HOUSE_HIT (events g)).
Proof.
  unfold register_hit, _spawnHomeowner.
  unfold GameState.addScore. cbv zeta. cbn iota. unfold emit_if.
  destruct (3 <=? _), (5 <=? _);
    repeat first
      [ rewrite count_topic_emit
      | progress cbn [events push_homeowner set_gameState set_houses
                      set_draws] ];
    cbn; lia.
Qed.

(** An envelope that overlaps no unhit house in reach flies on untouched. *)
Lemma scan_houses_miss (e : Envelope.t) (nearby : list nat) :
  forall g : Game.t,
    (forall j h, j ∈ nearby -> houses g !! j = Some h ->
                 House.isHit h = true \/ Envelope.checkHouse e h = false) ->
    scan_houses E nearby e g = (e, g).
Proof.
  induction nearby as [|j rest IH]; intros g Hall; cbn; [reflexivity|].
  assert (Hrest : scan_houses E rest e g = (e, g)).
  { apply IH. intros k h Hk. apply Hall. now right. }
  destruct (houses g !! j) as [h|] eqn:Hj; [|exact Hrest].
  destruct (Hall j h (list_elem_of_here _ _) Hj) as [Hh|Hc].
  - now rewrite Hh.
  - rewrite Hc. destruct (House.isHit h); exact Hrest.
Qed.

(** An envelope whose only overlap is the unhit house at [i] hits it. *)
Lemma scan_houses_hit (e : Envelope.t) (i : nat) (h : House.t)
  (nearby : list nat) :
  forall g : Game.t,
    houses g !! i = Some h -> House.isHit h = false ->
    Envelope.checkHouse e h = true -> i ∈ nearby ->
    (forall j h', j <> i -> houses g !! j = Some h' ->
                  Envelope.checkHouse e h' = false) ->
    scan_houses E nearby e g
    = (Envelope.set_alive false e, register_hit E i h g).
Proof.
  induction nearby as [|j rest IH]; intros g Hi Hh Hc Hin Hothers.
  - inversion Hin.
  - cbn. destruct (Nat.eq_dec j i) as [->|Hne].
    + now rewrite Hi, Hh, Hc.
    + assert (Hin' : i ∈ rest).
      { apply elem_of_cons in Hin. destruct Hin; [congruence|assumption]. }
      specialize (IH g Hi Hh Hc Hin' Hothers).
      destruct (houses g !! j) as [h'|] eqn:Hj; [|exact IH].
      rewrite (Hothers j h' Hne Hj).
      destruct (House.isHit h'); exact IH.
Qed.

Lemma square_bounds (u v : Q) : (u * u + v * v < 3 * 3 -> -3 < u < 3)%Q.
Proof. intros H. split; nra. Qed.

Lemma far_from_square (w : Q) : (36 <= w * w -> w <= -6 \/ 6 <= w)%Q.
Proof.
  intros H. destruct (Qlt_le_dec w 0); [left|right]; nra.
Qed.

Lemma near_plus_far (u w : Q) :
  (-3 < u < 3 -> 36 <= w * w -> 3 * 3 <= (u + w) * (u + w))%Q.
Proof.
  intros Hu Hw. destruct (far_from_square w Hw); nra.
Qed.

(** Houses in different rows (6 apart along Z) or on opposite sides of the
    street (14 apart along X) cannot both be within 3 of one envelope. *)
Lemma spaced_houses_single_overlap (e : Envelope.t) (h h' : House.t) :
  Envelope.checkHouse e h = true ->
  (let dz := Vector3.z (House.position h) - Vector3.z (House.position h') in
   let dx := Vector3.x (House.position h) - Vector3.x (House.position h') in
   36 <= dz * dz \/ 36 <= dx * dx)%Q ->
  Envelope.checkHouse e h' = false.
Proof.
  unfold Envelope.checkHouse.
  destruct (negb (Envelope.alive e) || House.isHit h); [discriminate|].
  destruct (negb (Envelope.alive e) || House.isHit h'); [reflexivity|].
  unfold sqrt_lt, ENVELOPE.COLLISION_THRESHOLD.
  intros H Hfar. apply andb_true_iff in H. destruct H as [_ H].
  apply Qltb_lt in H.
  apply andb_false_iff. right. apply Qltb_ge.
  destruct (Envelope.position e) as [ex ey ez].
  destruct (House.position h) as [hx hy hz].
  destruct (House.position h') as [kx ky kz].
  cbn [Vector3.x Vector3.z] in *.
  pose proof (square_bounds _ _ H) as Hx.
  assert (H' : ((ez - hz) * (ez - hz) + (ex - hx) * (ex - hx) < 3 * 3)%Q)
    by (clear - H; nra).
  pose proof (square_bounds _ _ H') as Hz.
  destruct Hfar as [Hfar|Hfar].
  - pose proof (near_plus_far _ _ Hz Hfar) as Hn.
    pose proof (sum_of_squares_nonneg (ex - kx) 0) as Hsq.
    clear - Hn Hsq. lra.
  - pose proof (near_plus_far _ _ Hx Hfar) as Hn.
    pose proof (sum_of_squares_nonneg (ez - kz) 0) as Hsq.
    clear - Hn Hsq. lra.
Qed.

Lemma count_hit_insert (hs : list House.t) :
  forall (i : nat) (h : House.t),
    hs !! i = Some h -> House.isHit h = false ->
    count_hit (<[i := House.hit h]> hs) = S (count_hit hs).
Proof.
  unfold count_hit.
  induction hs as [|k hs IH]; intros i h Hi Hh; [discriminate|].
  destruct i as [|i]; cbn in Hi.
  - injection Hi as ->. cbn. rewrite hit_isHit, Hh. reflexivity.
  - cbn. specialize (IH i h Hi Hh).
    destruct (House.isHit k); cbn [length]; [f_equal|]; exact IH.
Qed.

(** One live envelope against the houses in reach: either nothing changes,
    or the envelope dies, one more house is hit and one more HOUSE_HIT is
    on record. *)
Lemma scan_houses_accounts (e : Envelope.t) (nearby : list nat) :
  forall g : Game.t,
    Envelope.alive e = true ->
    scan_houses E nearby e g = (e, g)
    \/ (Envelope.alive (fst (scan_houses E nearby e g)) = false
        /\ count_hit (houses (snd (scan_houses E nearby e g)))
           = S (count_hit (houses g))
        /\ count_topic Events.HOUSE_HIT
             (events (snd (scan_houses E nearby e g)))
           = S (count_topic Events.HOUSE_HIT (events g))).
Proof.
  induction nearby as [|j rest IH]; intros g Ha; cbn [scan_houses];
    [now left|].
  destruct (houses g !! j) as [h|] eqn:Hj; [|now apply IH].
  destruct (House.isHit h) eqn:Hh; [now apply IH|].
  destruct (Envelope.checkHouse e h); [|now apply IH].
  right. cbn [fst snd]. split; [reflexivity|].
  split; [|apply register_hit_events].
  rewrite register_hit_houses. now apply count_hit_insert.
Qed.

(** Over a whole pass, the envelopes retired, the houses newly hit and the
    HOUSE_HIT events emitted are equally many. *)
Lemma scan_envelopes_accounts (nearby : list nat) (es : list Envelope.t) :
  forall g : Game.t,
    (count_alive (fst (scan_envelopes E nearby es g))
     + count_hit (houses (snd (scan_envelopes E nearby es g)))
     = count_alive es + count_hit (houses g))%nat
    /\ (count_alive (fst (scan_envelopes E nearby es g))
        + count_topic Events.HOUSE_HIT
            (events (snd (scan_envelopes E nearby es g)))
        = count_alive es + count_topic Events.HOUSE_HIT (events g))%nat.
Proof.
  induction es as [|e es IH]; intros g; cbn [scan_envelopes];
    [split; reflexivity|].
  destruct (Envelope.alive e) eqn:Ha; cbn [negb].
  - destruct (scan_houses_accounts e nearby g Ha) as [Hmiss|(Hd & Hh & Hev)].
    + rewrite Hmiss. specialize (IH g).
      destruct (scan_envelopes E nearby es g) as [es' g'].
      cbn [fst snd] in *. unfold count_alive in *. cbn. rewrite Ha. cbn. lia.
    + destruct (scan_houses E nearby e g) as [e' g1]. cbn [fst snd] in *.
      specialize (IH g1).
      destruct (scan_envelopes E nearby es g1) as [es' g2].
      cbn [fst snd] in *. unfold count_alive in *. cbn. rewrite Ha, Hd. cbn.
      lia.
  - specialize (IH g). destruct (scan_envelopes E nearby es g) as [es' g'].
    cbn [fst snd] in *. unfold count_alive in *. cbn. rewrite Ha. lia.
Qed.

(** Two houses of the street that are both unhit are in different rows or
    across the street from each other. *)
Lemma street_unhit_spaced (hs : list House.t) (i j : nat) (h h' : House.t) :
  Layout.street hs -> i <> j ->
  hs !! i = Some h -> hs !! j = Some h' ->
  House.isHit h = false -> House.isHit h' = false ->
  (let dz := Vector3.z (House.position h) - Vector3.z (House.position h') in
   let dx := Vector3.x (House.position h) - Vector3.x (House.position h') in
   36 <= dz * dz \/ 36 <= dx * dx)%Q.
Proof.
  intros [Hrest Hrows] Hne Hi Hj Hh Hh'. cbv zeta.
  rewrite Forall_lookup in Hrest.
  destruct (Hrest i h Hi Hh) as [_ Hx].
  destruct (Hrest j h' Hj Hh') as [_ Hx'].
  assert (Hap : Layout.apart h h' \/ Layout.apart h' h).
  { destruct (Nat.lt_ge_cases i j) as [Hlt|Hge].
    - left. eapply rows_apart_lookup; eassumption.
    - right. eapply (rows_apart_lookup hs Hrows j i); [lia| |];
        eassumption. }
  unfold Layout.apart, HOUSE.SPACING_Z in Hap.
  destruct Hap as [[Hz|Hs]|[Hz|Hs]].
  - left. nra.
  - right. rewrite Hx, Hx'.
    destruct (House.side h), (House.side h'); try congruence;
      vm_compute; discriminate.
  - left. nra.
  - right. rewrite Hx, Hx'.
    destruct (House.side h), (House.side h'); try congruence;
      vm_compute; discriminate.
Qed.

(** On the street an envelope overlaps at most one unhit house. *)
Lemma street_single_overlap (hs : list House.t) (e : Envelope.t) (i : nat)
  (h : House.t) :
  Layout.street hs -> hs !! i = Some h -> Envelope.checkHouse e h = true ->
  forall j h', j <> i -> hs !! j = Some h' ->
               Envelope.checkHouse e h' = false.
Proof.
  intros Hstreet Hi Hc j h' Hne Hj.
  destruct (House.isHit h') eqn:Hh'.
  - unfold Envelope.checkHouse. rewrite Hh', orb_true_r. reflexivity.
  - apply (spaced_houses_single_overlap e h h' Hc).
    apply (street_unhit_spaced hs i j h h' Hstreet); try assumption;
      [congruence|].
    unfold Envelope.checkHouse in Hc.
    destruct (House.isHit h); [|reflexivity].
    rewrite orb_true_r in Hc. discriminate.
Qed.

Lemma scan_houses_later (e : Envelope.t) (nearby : list nat) :
  forall g : Game.t,
    Forall2 Layout.later (houses g) (houses (snd (scan_houses E nearby e g))).
Proof.
  induction nearby as [|j rest IH]; intros g; cbn [scan_houses];
    [apply Forall2_later_refl|].
  destruct (houses g !! j) as [h|] eqn:Hj; [|apply IH].
  destruct (House.isHit h); [apply IH|].
  destruct (Envelope.checkHouse e h); [|apply IH].
  cbn [snd]. rewrite register_hit_houses.
  now apply insert_hit_later.
Qed.

Lemma scan_envelopes_later (nearby : list nat) (es : list Envelope.t) :
  forall g : Game.t,
    Forall2 Layout.later (houses g)
            (houses (snd (scan_envelopes E nearby es g))).
Proof.
  induction es as [|e es IH]; intros g; cbn [scan_envelopes];
    [apply Forall2_later_refl|].
  destruct (negb (Envelope.alive e)).
  - specialize (IH g). destruct (scan_envelopes E nearby es g). exact IH.
  - pose proof (scan_houses_later e nearby g) as H1.
    destruct (scan_houses E nearby e g) as [e' g1]. cbn [snd] in H1.
    specialize (IH g1). destruct (scan_envelopes E nearby es g1) as [es' g2].
    cbn [snd] in *. eapply Forall2_later_trans; eassumption.
Qed.

(** A collision pass leaves the street laid out as it was. *)
Lemma checkEnvelopeHits_street (g : Game.t) :
  Layout.street (houses g) -> Layout.street (houses (_checkEnvelopeHits E g)).
Proof.
  apply street_later. unfold _checkEnvelopeHits.
  set (nearby := StreetGenerator.getHousesInRange _ _ _).
  pose proof (scan_envelopes_later nearby (envelopes g) g) as H.
  destruct (scan_envelopes E nearby (envelopes g) g) as [es g'].
  exact H.
Qed.

Lemma checkEnvelopeHits_accounts (g : Game.t) :
  (count_alive (envelopes (_checkEnvelopeHits E g))
   + count_hit (houses (_checkEnvelopeHits E g))
   = count_alive (envelopes g) + count_hit (houses g))%nat
  /\ (count_alive (envelopes (_checkEnvelopeHits E g))
      + count_topic Events.HOUSE_HIT (events (_checkEnvelopeHits E g))
      = count_alive (envelopes g)
        + count_topic Events.HOUSE_HIT (events g))%nat.
Proof.
  unfold _checkEnvelopeHits.
  set (nearby := StreetGenerator.getHousesInRange _ _ _).
  pose proof (scan_envelopes_accounts nearby (envelopes g) g) as H.
  destruct (scan_envelopes E nearby (envelopes g) g) as [es g'].
  exact H.
Qed.

(** Two envelopes whose only overlap is one and the same unhit house in
    reach: the first one hits it and is retired, the second one finds it hit
    and flies on. *)
Lemma two_envelopes_single_overlap
  (g : Game.t) (e1 e2 : Envelope.t) (i : nat) (h : House.t) :
  envelopes g = [e1; e2] ->
  houses g !! i = Some h ->
  Qltb (Math_abs (Vector3.z (House.position h) - Vector3.z (playerPos g))) 50
  = true ->
  Envelope.checkHouse e1 h = true ->
  Envelope.checkHouse e2 h = true ->
  (forall j h', j <> i -> houses g !! j = Some h' ->
                Envelope.checkHouse e1 h' = false
                /\ Envelope.checkHouse e2 h' = false) ->
  (forall h0, House.isHit h0 = true -> House.hit h0 = h0)
  /\ House.isHit h = false
  /\ houses (_checkEnvelopeHits E g) = <[i := House.hit h]> (houses g)
  /\ House.isHit (House.hit h) = true
  /\ count_topic Events.HOUSE_HIT (events (_checkEnvelopeHits E g))
     = S (count_topic Events.HOUSE_HIT (events g))
  /\ envelopes (_checkEnvelopeHits E g) = [Envelope.set_alive false e1; e2]
  /\ Envelope.alive e2 = true
  /\ length (homeowners (_checkEnvelopeHits E g)) = S (length (homeowners g))
  /\ (forall g0 : Game.t,
        (count_alive (envelopes (_checkEnvelopeHits E g0))
         + count_hit (houses (_checkEnvelopeHits E g0))
         = count_alive (envelopes g0) + count_hit (houses g0))%nat
        /\ (count_alive (envelopes (_checkEnvelopeHits E g0))
            + count_topic Events.HOUSE_HIT (events (_checkEnvelopeHits E g0))
            = count_alive (envelopes g0)
              + count_topic Events.HOUSE_HIT (events g0))%nat).
Proof.
  intros Hes Hi Hrange Hc1 Hc2 Hothers.
  assert (Hacc := checkEnvelopeHits_accounts).
  assert (Hh : House.isHit h = false).
  { unfold Envelope.checkHouse in Hc1.
    destruct (House.isHit h); [|reflexivity].
    rewrite orb_true_r in Hc1. discriminate. }
  assert (Ha1 : Envelope.alive e1 = true).
  { unfold Envelope.checkHouse in Hc1.
    destruct (Envelope.alive e1); [reflexivity|discriminate]. }
  assert (Ha2 : Envelope.alive e2 = true).
  { unfold Envelope.checkHouse in Hc2.
    destruct (Envelope.alive e2); [reflexivity|discriminate]. }
  pose proof (getHousesInRange_lookup _ _ _ _ Hi Hh Hrange) as Hin.
  unfold _checkEnvelopeHits. rewrite Hes.
  set (nearby := StreetGenerator.getHousesInRange _ _ _) in *.
  cbn [scan_envelopes]. rewrite Ha1, Ha2. cbn [negb].
  rewrite (scan_houses_hit e1 i h nearby g Hi Hh Hc1 Hin)
    by (intros j h' Hne Hj; apply (Hothers j h' Hne Hj)).
  rewrite (scan_houses_miss e2 nearby (register_hit E i h g)).
  2:{ intros j h' _ Hj. rewrite register_hit_houses in Hj.
      destruct (Nat.eq_dec j i) as [->|Hne].
      - rewrite list_lookup_insert_eq in Hj
          by (eapply lookup_lt_Some; eassumption).
        injection Hj as <-. left. apply hit_isHit.
      - rewrite list_lookup_insert_ne in Hj by congruence.
        right. apply (Hothers j h' Hne Hj). }
  cbn [set_envelopes houses events envelopes homeowners].
  split; [exact hit_already_hit|].
  split; [exact Hh|].
  split; [apply register_hit_houses|].
  split; [apply hit_isHit|].
  split; [apply register_hit_events|].
  split; [reflexivity|].
  split; [reflexivity|].
  split; [|exact Hacc].
  destruct (register_hit_homeowners i h g) as [rng ->].
  rewrite length_app. cbn. lia.
Qed.

(** C2: [hit()] on a house that is already hit changes nothing, and when two
    live envelopes both overlap the same unhit house of the street, in
    reach, in one collision pass, the house becomes hit, exactly one
    HOUSE_HIT event is emitted, the first envelope is retired and the second
    one stays alive and unchanged.  In any pass the envelopes retired, the
    houses that become hit and the HOUSE_HIT events emitted are equally
    many.  (The houses of the generator are always laid out as
    [Layout.street] says: [history_street].) *)
Theorem envelope_pass_hits_house_once
  (g : Game.t) (e1 e2 : Envelope.t) (i : nat) (h : House.t) :
  Layout.street (houses g) ->
  envelopes g = [e1; e2] ->
  houses g !! i = Some h ->
  Qltb (Math_abs (Vector3.z (House.position h) - Vector3.z (playerPos g))) 50
  = true ->
  Envelope.checkHouse e1 h = true ->
  Envelope.checkHouse e2 h = true ->
  (forall h0, House.isHit h0 = true -> House.hit h0 = h0)
  /\ House.isHit h = false
  /\ houses (_checkEnvelopeHits E g) = <[i := House.hit h]> (houses g)
  /\ House.isHit (House.hit h) = true
  /\ count_topic Events.HOUSE_HIT (events (_checkEnvelopeHits E g))
     = S (count_topic Events.HOUSE_HIT (events g))
  /\ envelopes (_checkEnvelopeHits E g) = [Envelope.set_alive false e1; e2]
  /\ Envelope.alive e2 = true
  /\ length (homeowners (_checkEnvelopeHits E g)) = S (length (homeowners g))
  /\ (forall g0 : Game.t,
        (count_alive (envelopes (_checkEnvelopeHits E g0))
         + count_hit (houses (_checkEnvelopeHits E g0))
         = count_alive (envelopes g0) + count_hit (houses g0))%nat
        /\ (count_alive (envelopes (_checkEnvelopeHits E g0))
            + count_topic Events.HOUSE_HIT (events (_checkEnvelopeHits E g0))
            = count_alive (envelopes g0)
              + count_topic Events.HOUSE_HIT (events g0))%nat).
Proof.
  intros Hstreet Hes Hi Hrange Hc1 Hc2.
  apply two_envelopes_single_overlap; try assumption.
  intros j h' Hne Hj. split.
  - exact (street_single_overlap (houses g) e1 i h Hstreet Hi Hc1 j h' Hne Hj).
  - exact (street_single_overlap (houses g) e2 i h Hstreet Hi Hc2 j h' Hne Hj).
Qed.

End CheckEnvelopeHitsSpec.

(** The theorem on [Scenario.game] and [Scenario.env]: both envelopes are
    within 3 units of the house; one HOUSE_HIT is emitted, the first
    envelope dies and the second survives. *)
Lemma envelope_pass_hits_house_once_witness :
  Game.count_topic Events.HOUSE_HIT
    (Game.events (Game._checkEnvelopeHits Scenario.env Scenario.game))
  = 1%nat
  /\ map Envelope.alive
       (Game.envelopes (Game._checkEnvelopeHits Scenario.env Scenario.game))
     = [false; true]
  /\ map House.isHit
       (Game.houses (Game._checkEnvelopeHits Scenario.env Scenario.game))
     = [true].
Proof.
  destruct (envelope_pass_hits_house_once Scenario.env Scenario.game
              (Scenario.envelope 6 1 (-19))
              (Scenario.envelope 5.5 2.5 (-20.5)) 0%nat Scenario.house)
    as (_ & _ & Hhouses & _ & Hcount & Henv & _ & _ & _).
  - split; [|split; constructor].
    constructor; [|constructor]. intros _. split; reflexivity.
  - reflexivity.
  - reflexivity.
  - vm_compute. reflexivity.
  - vm_compute. reflexivity.
  - vm_compute. reflexivity.
  - rewrite Hcount, Henv, Hhouses. repeat split.
Defined.

(** ** Near-miss slow motion *)

Section SlowMotionSpec.
Import SpectacleSystem.

Lemma step_running (s0 : Q) (a : action) (st : t * GameState.state) :
  running s0 st ->
  (expired st (step a st) = true
   /\ GameState.currentSpeed (snd (step a st)) = s0)
  \/ (expired st (step a st) = false /\ running s0 (step a st)).
Proof.
  intros [Ht Hs]. destruct st as [sp gs]. cbn [fst snd] in *.
  unfold expired. cbn [fst].
  assert (Hgt : Qgtb (_slowMoTimer sp) 0 = true) by now apply Qgtb_gt.
  assert (Hle : Qleb (_slowMoTimer sp) 0 = false) by now apply Qleb_gt.
  rewrite Hgt. cbn [andb].
  destruct a as [delta| |delta pos]; cbn [step fst snd].
  - right. rewrite Hle. split; [reflexivity|]. split; assumption.
  - right. unfold _onNearMiss.
    destruct (_lastPlayerPos sp); rewrite ?Hle; cbn [fst];
      rewrite Hle; (split; [reflexivity|]); split; assumption.
  - unfold update. rewrite Hgt. cbn [fst snd _slowMoTimer].
    destruct (Qleb (_slowMoTimer sp - delta) 0) eqn:He.
    + left. split; [reflexivity|]. cbn. exact Hs.
    + right. split; [reflexivity|]. split; cbn; [|exact Hs].
      now apply Qleb_gt.
Qed.

Lemma speed_at_expiry_running (s0 : Q) (acts : list action) :
  forall (st : t * GameState.state) (v : Q),
    running s0 st -> speed_at_expiry acts st = Some v -> v = s0.
Proof.
  induction acts as [|a acts IH]; intros st v Hrun Hv; [discriminate|].
  cbn [speed_at_expiry] in Hv.
  destruct (step_running s0 a st Hrun) as [[He Hs]|[He Hrun']];
    rewrite He in Hv.
  - injection Hv as <-. exact Hs.
  - eapply IH; eassumption.
Qed.

(** C8: a near miss with no slow motion running (and the player seen
    before) multiplies [currentSpeed] by the slow-motion factor and saves
    the old value; whatever speed ramps, further near misses and updates
    follow, the update in which the timer runs out assigns [currentSpeed]
    the saved value, and an update of at least the effect's duration does so
    at once. *)
Theorem slowmo_restores_saved_speed
  (sp : t) (gs : GameState.state) (p : Vector3.t) (acts : list action)
  (v : Q) :
  (_slowMoTimer sp <= 0)%Q ->
  _lastPlayerPos sp = Some p ->
  GameState.currentSpeed (snd (_onNearMiss sp gs))
  = (GameState.currentSpeed gs * SPECTACLE.NEAR_MISS_SLOWMO_FACTOR)%Q
  /\ _slowMoOriginalSpeed (fst (_onNearMiss sp gs))
     = GameState.currentSpeed gs
  /\ (speed_at_expiry acts (_onNearMiss sp gs) = Some v ->
      v = GameState.currentSpeed gs)
  /\ (forall delta pos,
        (SPECTACLE.NEAR_MISS_SLOWMO_DURATION <= delta)%Q ->
        speed_at_expiry [Update delta pos] (_onNearMiss sp gs)
        = Some (GameState.currentSpeed gs)).
Proof.
  intros Ht Hp. apply Qleb_le in Ht.
  unfold _onNearMiss. rewrite Hp, Ht. cbn [fst snd].
  split; [reflexivity|]. split; [reflexivity|]. split.
  - apply speed_at_expiry_running. split; [reflexivity|reflexivity].
  - intros delta pos Hd. cbn [speed_at_expiry step fst snd].
    unfold update, expired. cbn [fst snd _slowMoTimer _slowMoOriginalSpeed].
    change (Qgtb SPECTACLE.NEAR_MISS_SLOWMO_DURATION 0) with true.
    cbn [andb fst _slowMoTimer].
    assert (He : Qleb (SPECTACLE.NEAR_MISS_SLOWMO_DURATION - delta) 0 = true).
    { apply Qleb_le. lra. }
    rewrite He. reflexivity.
Qed.

(** The theorem on [Scenario.frames]: from speed 8 the near miss slows to
    5.6; the speed ramps during the effect; the second update ends the
    effect and the speed is 8 again. *)
Lemma slowmo_restores_saved_speed_witness :
  speed_at_expiry Scenario.frames
    (_onNearMiss Scenario.spectacle (GameState.new None)) = Some 8%Q
  /\ 8%Q = GameState.currentSpeed (GameState.new None).
Proof.
  split; [vm_compute; reflexivity|].
  apply (proj1 (proj2 (proj2
    (slowmo_restores_saved_speed Scenario.spectacle (GameState.new None)
       (Vector3.mk 0 0 0) Scenario.frames 8%Q
       ltac:(vm_compute; discriminate) eq_refl)))).
  vm_compute. reflexivity.
Defined.

End SlowMotionSpec.

(** ** Lives *)

Section LivesSpec.
Import GameState.

Lemma updateComboTimer_lives (d : Q) (s : state) :
  lives (snd (updateComboTimer d s)) = lives s
  /\ gameOver (snd (updateComboTimer d s)) = gameOver s.
Proof.
  unfold updateComboTimer.
  destruct ((0 <? combo s) && Qgtb (_comboTimer s) 0); [|split; reflexivity].
  cbn [set_comboTimer _comboTimer].
  destruct (Qleb (_comboTimer s - d) 0); split; reflexivity.
Qed.

Lemma increase_speed_lives (d : Q) (s : state) :
  lives (Player.increase_speed d s) = lives s
  /\ gameOver (Player.increase_speed d s) = gameOver s.
Proof.
  unfold Player.increase_speed.
  destruct (Qltb (currentSpeed s) GAMEPLAY.MAX_SPEED); split; reflexivity.
Qed.

Lemma startGame_lives_inv (ls : Storage) (gs : state) :
  Session.lives_inv (Session.startGame ls gs).
Proof.
  split; cbn; unfold GAMEPLAY.LIVES; intros; lia.
Qed.

Lemma gate_not_over (st : Session.state) :
  Session.gate st = true -> gameOver (snd st) = false.
Proof.
  unfold Session.gate. intros H. apply andb_true_iff in H.
  destruct H as [_ H]. now apply negb_true_iff in H.
Qed.

Lemma player_update_same_lives (r : bool) (d : Q) (st : Session.state) :
  Session.same_lives st (Session.player_update r d st).
Proof.
  unfold Session.player_update, Session.same_lives.
  destruct r; [|split; reflexivity]. cbn [snd].
  destruct (updateComboTimer_lives (d * 1000)
              (Player.increase_speed d (snd st))) as [-> ->].
  apply increase_speed_lives.
Qed.

Lemma iter_same_lives (f : Session.state -> Session.state)
  (Hf : forall st, Session.same_lives st (f st)) (n : nat) :
  forall st, Session.same_lives st (Nat.iter n f st).
Proof.
  induction n as [|n IH]; intros st; [split; reflexivity|].
  change (Nat.iter (S n) f st) with (f (Nat.iter n f st)).
  destruct (Hf (Nat.iter n f st)) as [H1 H2].
  destruct (IH st) as [H3 H4].
  unfold Session.same_lives. rewrite H1, H2. split; assumption.
Qed.

Lemma house_hit_same_lives (st : Session.state) :
  Session.same_lives st (Session.house_hit st).
Proof. split; reflexivity. Qed.

Lemma panic_collected_same_lives (st : Session.state) :
  Session.same_lives st (Session.panic_collected st).
Proof. split; reflexivity. Qed.

Lemma same_lives_inv (st st' : Session.state) :
  Session.same_lives st st' -> Session.lives_inv st -> Session.lives_inv st'.
Proof.
  intros [Hl Hg] [H0 H1]. unfold Session.lives_inv. rewrite Hl, Hg.
  split; assumption.
Qed.

(** The one place where a life is lost: it is only reached with at least
    one life left, and it ends the game when none is left. *)
Lemma agent_collision_lives_inv (st : Session.state) :
  1 <= lives (snd st) -> Session.lives_inv (Session.agent_collision st).
Proof.
  intros H1. destruct st as [pl gs]. cbn [snd] in H1.
  unfold Session.agent_collision. cbn [fst snd].
  destruct (Qgtb (Player._invincibleTimer pl) 0) eqn:Hinvinc;
    [split; cbn; [lia | intros; lia]|].
  unfold Player.takeDamage. rewrite Hinvinc.
  unfold loseLife. cbv zeta. cbn iota.
  destruct (Z.leb_spec (lives gs - 1) 0) as [Hdead|Halive].
  - split; cbn; [lia | discriminate].
  - split; cbn; intros; lia.
Qed.

Lemma animate_lives_inv (f : Session.frame) (st : Session.state) :
  Session.lives_inv st -> Session.lives_inv (Session.animate f st).
Proof.
  intros Hinv. unfold Session.animate.
  destruct (Session.gate st) eqn:Hgate; [|exact Hinv].
  apply gate_not_over in Hgate.
  set (st1 := Session.player_update _ _ st).
  set (st2 := Nat.iter (Session.houseHits f) Session.house_hit st1).
  assert (H12 : Session.same_lives st st2).
  { destruct (player_update_same_lives (Session.ready f) (Session.delta f) st)
      as [Ha Hb].
    destruct (iter_same_lives _ house_hit_same_lives (Session.houseHits f) st1)
      as [Hc Hd].
    fold st1 in Ha, Hb. fold st2 in Hc, Hd. split; congruence. }
  eapply same_lives_inv;
    [apply (iter_same_lives _ panic_collected_same_lives)|].
  destruct (Session.agentOverlap f).
  - apply agent_collision_lives_inv.
    destruct H12 as [-> _]. destruct Hinv as [_ H1]. now apply H1.
  - now apply (same_lives_inv st).
Qed.

Lemma step_lives_inv (ls : Storage) (st : Session.state) (a : Session.action) :
  Session.lives_inv st -> Session.lives_inv (Session.step ls st a).
Proof.
  intros Hinv. destruct a as [f|]; cbn [Session.step].
  - now apply animate_lives_inv.
  - apply startGame_lives_inv.
Qed.

Lemma run_lives_inv (ls : Storage) (acts : list Session.action) :
  forall st,
    Session.lives_inv st -> Session.lives_inv (Session.run ls acts st).
Proof.
  induction acts as [|a acts IH]; intros st Hinv; cbn; [exact Hinv|].
  apply IH. now apply step_lives_inv.
Qed.

(** C3, as the code has it: [loseLife()] decrements [lives] by exactly one,
    with no floor, and returns whether the new count is [<= 0]: at
    [lives = 1] it returns [true] and leaves 0; called again at [lives = 0]
    it returns [true] and leaves -1.  In a play session [lives] still never becomes
    negative: [loseLife] is only called from [takeDamage], at most once in
    a frame and behind the frame gate [started && !gameOver], and
    [takeDamage] sets [gameOver] as soon as [loseLife] returns [true]. *)
Theorem loseLife_decrements_without_floor
  (ls : Storage) (s : state) (acts : list Session.action) :
  lives (snd (loseLife s)) = lives s - 1
  /\ fst (loseLife s) = (lives s - 1 <=? 0)
  /\ loseLife (set_lives 1 s) = (true, set_lives 0 s)
  /\ loseLife (set_lives 0 s) = (true, set_lives (-1) s)
  /\ 0 <= lives (snd (Session.run ls acts (Session.boot ls))).
Proof.
  split; [reflexivity|]. split; [reflexivity|].
  split; [reflexivity|]. split; [reflexivity|].
  apply (run_lives_inv ls acts (Session.boot ls)).
  apply startGame_lives_inv.
Qed.

End LivesSpec.

(** * Further properties of the code *)

(** ** core/GameState.js: high-water marks and scoring *)

Section BestMarksSpec.
Import GameState.
Variable ls : Storage.

Lemma best_inv_new : BestMarks.inv (new ls).
Proof. unfold BestMarks.inv. cbn. lia. Qed.

Lemma best_inv_step (s : state) (o : op) :
  BestMarks.inv s -> BestMarks.inv (step ls s o).
Proof.
  unfold BestMarks.inv. intros (Hs & Hb & Hc & Hbc).
  destruct o as [|p| | |d|]; cbn -[or_zero Z.max Z.min Z.mul].
  - rewrite !or_zero_Some. lia.
  - match goal with |- context [?a <? ?b] => destruct (Z.ltb_spec a b) end;
      lia.
  - match goal with |- context [?a <? ?b] => destruct (Z.ltb_spec a b) end;
      lia.
  - lia.
  - unfold updateComboTimer.
    destruct ((0 <? combo s) && Qgtb (_comboTimer s) 0); cbn; [|lia].
    destruct (Qleb (_comboTimer s - d) 0); cbn; lia.
  - lia.
Qed.

Lemma best_inv_run (ops : list op) :
  forall s, BestMarks.inv s -> BestMarks.inv (run ls ops s).
Proof.
  induction ops as [|o ops IH]; intros s Hs; cbn; [exact Hs|].
  apply IH. now apply best_inv_step.
Qed.

Lemma bests_step_monotone (s : state) (o : op) :
  bestScore s <= bestScore (step ls s o)
  /\ bestCombo s <= bestCombo (step ls s o).
Proof.
  destruct o as [|p| | |d|]; cbn -[or_zero Z.max Z.min Z.mul].
  - rewrite !or_zero_Some. lia.
  - match goal with |- context [?a <? ?b] => destruct (Z.ltb_spec a b) end;
      lia.
  - match goal with |- context [?a <? ?b] => destruct (Z.ltb_spec a b) end;
      lia.
  - lia.
  - unfold updateComboTimer.
    destruct ((0 <? combo s) && Qgtb (_comboTimer s) 0); cbn; [|lia].
    destruct (Qleb (_comboTimer s - d) 0); cbn; lia.
  - lia.
Qed.

(** X1 (core/GameState.js).  Whatever sequence of mutators is called on a
    new [GameState], the score never exceeds [bestScore] and the combo never
    exceeds [bestCombo]; and no mutator, [reset()] included, ever lowers
    [bestScore] or [bestCombo]. *)
Theorem bests_dominate_and_never_drop (ops : list op) (o : op) :
  score (run ls ops (new ls)) <= bestScore (run ls ops (new ls))
  /\ combo (run ls ops (new ls)) <= bestCombo (run ls ops (new ls))
  /\ bestScore (run ls ops (new ls))
     <= bestScore (step ls (run ls ops (new ls)) o)
  /\ bestCombo (run ls ops (new ls))
     <= bestCombo (step ls (run ls ops (new ls)) o).
Proof.
  destruct (best_inv_run ops (new ls) best_inv_new) as (Hs & _ & Hc & _).
  destruct (bests_step_monotone (run ls ops (new ls)) o) as [H1 H2].
  repeat split; assumption.
Qed.

(** X2 (core/GameState.js, systems/SpectacleSystem.js).  [addScore(0)],
    which the spectacle system's HOUSE_HIT handler calls to read the
    multiplier, returns 0 and changes no field in any state that a sequence
    of mutators can reach from a new [GameState]. *)
Theorem addScore_zero_changes_nothing (ops : list op) :
  addScore 0 (run ls ops (new ls)) = (0, run ls ops (new ls)).
Proof.
  destruct (best_inv_run ops (new ls) best_inv_new) as (Hs & _).
  destruct (run ls ops (new ls)) as [sc bs st go lv co bc sp hh tt mu ct].
  cbn in Hs. unfold addScore. cbn.
  rewrite Z.add_0_r.
  destruct (bs <? sc) eqn:E; [apply Z.ltb_lt in E; lia|reflexivity].
Qed.

End BestMarksSpec.

(** ** core/Game.js and core/GameState.js: a streak of hits *)

Section StreakSpec.
Import GameState.
Variable ls : Storage.

Lemma streak_state (n : nat) :
  combo (snd (Nat.iter n Session.house_hit (Session.boot ls))) = Z.of_nat n
  /\ housesHit (snd (Nat.iter n Session.house_hit (Session.boot ls)))
     = Z.of_nat n
  /\ 2 * score (snd (Nat.iter n Session.house_hit (Session.boot ls)))
     = Streak.twice_score (Z.of_nat n).
Proof.
  induction n as [|n IH].
  - cbn. repeat split; reflexivity.
  - change (Nat.iter (S n) Session.house_hit (Session.boot ls))
      with (Session.house_hit (Nat.iter n Session.house_hit (Session.boot ls))).
    destruct IH as (Hc & Hh & Hs).
    set (st := Nat.iter n Session.house_hit (Session.boot ls)) in *.
    unfold Session.house_hit.
    cbn -[Z.max Z.min Z.mul Z.of_nat].
    rewrite Hc, Hh.
    repeat split; try lia.
    unfold Streak.twice_score in *. unfold COMBO.MULTIPLIER_CAP in *.
    rewrite Nat2Z.inj_succ. unfold Z.succ.
    assert (Hx : 0 <= Z.of_nat n) by lia.
    generalize dependent (Z.of_nat n). intros x Hc Hh Hs Hx.
    destruct (Z.leb_spec x 10), (Z.leb_spec (x + 1) 10); nia.
Qed.

(** X4 (core/Game.js, core/GameState.js).  In a new session, [n] house hits
    in a row with no combo timeout in between leave [combo = n],
    [housesHit = n], and a score of [n (n + 1) / 2] for [n] up to the
    multiplier cap of 10, growing by 10 per hit from there on. *)
Theorem streak_scores_triangular_then_capped (n : nat) :
  combo (snd (Nat.iter n Session.house_hit (Session.boot ls))) = Z.of_nat n
  /\ housesHit (snd (Nat.iter n Session.house_hit (Session.boot ls)))
     = Z.of_nat n
  /\ 2 * score (snd (Nat.iter n Session.house_hit (Session.boot ls)))
     = (if Z.of_nat n <=? 10 then Z.of_nat n * (Z.of_nat n + 1)
        else 110 + 20 * (Z.of_nat n - 10)).
Proof. exact (streak_state n). Qed.

End StreakSpec.

(** ** gameplay/Player.js: the invincibility window *)

Section DamageSpec.
Import Player Damage.





End DamageSpec.


(** ** core/Game.js: the flags of a session *)

Section SessionFlagsSpec.
Import GameState SessionFlags.

Lemma same_flags_refl (st : Session.state) : same_flags st st.
Proof. repeat split; reflexivity. Qed.

Lemma same_flags_trans (a b c : Session.state) :
  same_flags a b -> same_flags b c -> same_flags a c.
Proof.
  intros (H1 & H2 & H3) (H4 & H5 & H6). repeat split; congruence.
Qed.

Lemma updateComboTimer_flags (d : Q) (s : state) :
  started (snd (updateComboTimer d s)) = started s
  /\ lives (snd (updateComboTimer d s)) = lives s
  /\ gameOver (snd (updateComboTimer d s)) = gameOver s.
Proof.
  unfold updateComboTimer.
  destruct ((0 <? combo s) && Qgtb (_comboTimer s) 0);
    [|repeat split; reflexivity].
  cbn [set_comboTimer _comboTimer].
  destruct (Qleb (_comboTimer s - d) 0); repeat split; reflexivity.
Qed.

Lemma increase_speed_flags (d : Q) (s : state) :
  started (Player.increase_speed d s) = started s
  /\ lives (Player.increase_speed d s) = lives s
  /\ gameOver (Player.increase_speed d s) = gameOver s.
Proof.
  unfold Player.increase_speed.
  destruct (Qltb (currentSpeed s) GAMEPLAY.MAX_SPEED);
    repeat split; reflexivity.
Qed.

Lemma player_update_same_flags (r : bool) (d : Q) (st : Session.state) :
  same_flags st (Session.player_update r d st).
Proof.
  unfold Session.player_update, same_flags.
  destruct r; [|repeat split; reflexivity]. cbn [snd].
  destruct (updateComboTimer_flags (d * 1000)
              (Player.increase_speed d (snd st))) as (-> & -> & ->).
  apply increase_speed_flags.
Qed.

Lemma iter_same_flags (f : Session.state -> Session.state)
  (Hf : forall st, same_flags st (f st)) (n : nat) :
  forall st, same_flags st (Nat.iter n f st).
Proof.
  induction n as [|n IH]; intros st; [apply same_flags_refl|].
  change (Nat.iter (S n) f st) with (f (Nat.iter n f st)).
  eapply same_flags_trans; [apply IH|apply Hf].
Qed.

Lemma same_flags_inv (st st' : Session.state) :
  same_flags st st' -> flags_inv st -> flags_inv st'.
Proof.
  intros (Hs & Hl & Hg) (H1 & H2 & H3). unfold flags_inv.
  rewrite Hs, Hl, Hg. repeat split; tauto.
Qed.

Lemma agent_collision_flags_inv (st : Session.state) :
  flags_inv st -> gameOver (snd st) = false ->
  flags_inv (Session.agent_collision st).
Proof.
  intros (Hs & Hl & Hg) Hgo. destruct st as [pl gs]. cbn [snd] in *.
  assert (H1 : 1 <= lives gs).
  { destruct (Z.eq_dec (lives gs) 0) as [E|E]; [|lia].
    apply Hg in E. congruence. }
  unfold Session.agent_collision. cbn [fst snd].
  unfold flags_inv, GAMEPLAY.LIVES in *.
  destruct (Qgtb (Player._invincibleTimer pl) 0) eqn:Hinvinc;
    [repeat split; cbn; tauto || lia|].
  unfold Player.takeDamage. rewrite Hinvinc.
  unfold loseLife. cbv zeta. cbn iota.
  destruct (Z.leb_spec (lives gs - 1) 0) as [Hdead|Halive];
    repeat split; cbn; intros; try assumption; try reflexivity; try lia;
    congruence.
Qed.

Lemma animate_flags_inv (f : Session.frame) (st : Session.state) :
  flags_inv st -> flags_inv (Session.animate f st).
Proof.
  intros Hinv. unfold Session.animate.
  destruct (Session.gate st) eqn:Hgate; [|exact Hinv].
  unfold Session.gate in Hgate. apply andb_true_iff in Hgate.
  destruct Hgate as [_ Hgate]. apply negb_true_iff in Hgate.
  set (st1 := Session.player_update _ _ st).
  set (st2 := Nat.iter (Session.houseHits f) Session.house_hit st1).
  assert (H12 : same_flags st st2).
  { eapply same_flags_trans; [apply player_update_same_flags|].
    apply iter_same_flags. intros s. repeat split; reflexivity. }
  eapply same_flags_inv.
  { apply iter_same_flags. intros s. repeat split; reflexivity. }
  destruct (Session.agentOverlap f).
  - apply agent_collision_flags_inv; [now apply (same_flags_inv st)|].
    destruct H12 as (_ & _ & ->). exact Hgate.
  - now apply (same_flags_inv st).
Qed.

Lemma run_flags_inv (ls : Storage) (acts : list Session.action) :
  forall st, flags_inv st -> flags_inv (Session.run ls acts st).
Proof.
  induction acts as [|a acts IH]; intros st Hinv; cbn; [exact Hinv|].
  apply IH. destruct a as [f|]; cbn [Session.step].
  - now apply animate_flags_inv.
  - unfold flags_inv, GAMEPLAY.LIVES. cbn. repeat split; try lia; discriminate.
Qed.

(** X6 (core/Game.js, gameplay/Player.js, core/GameState.js).  At every
    point of a play session (frames and restarts in any order, from the
    constructor of [Game] on) the game is started, the lives are between 0
    and 3, and the game is over exactly when no life is left; and once the
    game is over, a frame changes neither the player's damage state nor
    [gameState]. *)
Theorem game_over_exactly_without_lives (ls : Storage)
  (acts : list Session.action) (f : Session.frame) :
  started (snd (Session.run ls acts (Session.boot ls))) = true
  /\ 0 <= lives (snd (Session.run ls acts (Session.boot ls))) <= 3
  /\ (gameOver (snd (Session.run ls acts (Session.boot ls))) = true
      <-> lives (snd (Session.run ls acts (Session.boot ls))) = 0)
  /\ (gameOver (snd (Session.run ls acts (Session.boot ls))) = true ->
      Session.animate f (Session.run ls acts (Session.boot ls))
      = Session.run ls acts (Session.boot ls)).
Proof.
  assert (Hinv : flags_inv (Session.run ls acts (Session.boot ls))).
  { apply run_flags_inv. unfold flags_inv, GAMEPLAY.LIVES. cbn.
    repeat split; try lia; discriminate. }
  destruct Hinv as (Hs & Hl & Hg).
  split; [exact Hs|]. split; [exact Hl|]. split; [exact Hg|].
  intros Hover. unfold Session.animate, Session.gate.
  rewrite Hover, andb_false_r. reflexivity.
Qed.

End SessionFlagsSpec.

(** ** The speed under ramps, slow motions and restarts *)

Section SpeedBandSpec.
Import GameState SpectacleSystem Replay.

Lemma increase_speed_bounds (d : Q) (gs : state) :
  (currentSpeed gs <= GAMEPLAY.MAX_SPEED ->
   currentSpeed (Player.increase_speed d gs) <= GAMEPLAY.MAX_SPEED)%Q
  /\ (0 <= d -> currentSpeed gs <= currentSpeed (Player.increase_speed d gs))%Q.
Proof.
  unfold Player.increase_speed, GAMEPLAY.MAX_SPEED,
    GAMEPLAY.SPEED_INCREASE_RATE.
  destruct (Qltb (currentSpeed gs) 25) eqn:E1; [|split; intros; lra].
  apply Qltb_lt in E1. cbn [currentSpeed set_currentSpeed].
  destruct (Qgtb (currentSpeed gs + 0.15 * d) 25) eqn:E2.
  - split; intros; lra.
  - apply Qgtb_le in E2. split; intros; lra.
Qed.

Lemma speed_inv_step (ls : Storage) (st : SpectacleSystem.t * state)
  (e : event) :
  forward e -> speed_inv st -> speed_inv (Replay.step ls st e).
Proof.
  destruct st as [sp gs]. unfold speed_inv. cbn [fst snd].
  unfold GAMEPLAY.MAX_SPEED, GAMEPLAY.AUTO_SPEED,
    SPECTACLE.NEAR_MISS_SLOWMO_FACTOR.
  intros Hfw [Hmax Hband].
  destruct e as [[d| |d pos]|]; cbn [Replay.step SpectacleSystem.step fst snd].
  - (* the speed ramp *)
    cbn in Hfw.
    destruct (increase_speed_bounds d gs) as [H1 H2].
    unfold GAMEPLAY.MAX_SPEED in H1.
    specialize (H1 Hmax). specialize (H2 Hfw).
    split; [exact H1|].
    destruct (Qgtb (_slowMoTimer sp) 0); [|lra].
    destruct Hband as [Hsaved Hlow]. split; [exact Hsaved|lra].
  - (* a near miss *)
    unfold _onNearMiss.
    destruct (_lastPlayerPos sp); [|split; assumption].
    destruct (Qleb (_slowMoTimer sp) 0) eqn:E; [|split; assumption].
    apply Qleb_le in E.
    assert (E' : Qgtb (_slowMoTimer sp) 0 = false).
    { destruct (Qgtb (_slowMoTimer sp) 0) eqn:E'; [|reflexivity].
      apply Qgtb_gt in E'. lra. }
    rewrite E' in Hband.
    cbn [fst snd _slowMoTimer _slowMoOriginalSpeed currentSpeed
         set_currentSpeed].
    change (Qgtb SPECTACLE.NEAR_MISS_SLOWMO_DURATION 0) with true.
    unfold SPECTACLE.NEAR_MISS_SLOWMO_FACTOR.
    split; [lra|]. split; lra.
  - (* an update of the spectacle system *)
    unfold SpectacleSystem.update.
    destruct (Qgtb (_slowMoTimer sp) 0) eqn:E.
    + destruct Hband as [Hsaved Hlow].
      cbn [fst snd _slowMoTimer _slowMoOriginalSpeed].
      destruct (Qleb (_slowMoTimer sp - d) 0) eqn:E2.
      * apply Qleb_le in E2.
        assert (E' : Qgtb (_slowMoTimer sp - d) 0 = false).
        { destruct (Qgtb (_slowMoTimer sp - d) 0) eqn:E'; [|reflexivity].
          apply Qgtb_gt in E'. lra. }
        rewrite E'. cbn [currentSpeed set_currentSpeed]. split; lra.
      * apply Qleb_gt in E2.
        assert (E' : Qgtb (_slowMoTimer sp - d) 0 = true)
          by (apply Qgtb_gt; lra).
        rewrite E'. split; [exact Hmax|]. split; assumption.
    + cbn [fst snd _slowMoTimer]. rewrite E. split; assumption.
  - (* a restart *)
    unfold Replay.restart, spectacle_reset, Session.startGame. cbn.
    unfold GAMEPLAY.AUTO_SPEED. change (Qgtb 0 0) with false.
    split; lra.
Qed.

Lemma speed_inv_run (ls : Storage) (es : list event) :
  forall st, Forall forward es -> speed_inv st -> speed_inv (Replay.run ls es st).
Proof.
  induction es as [|e es IH]; intros st Hf Hinv; cbn; [exact Hinv|].
  inversion Hf as [|e' es' He Hes]; subst.
  apply IH; [exact Hes|]. now apply speed_inv_step.
Qed.

(** X7 (systems/SpectacleSystem.js, gameplay/Player.js, core/Game.js).
    Slow motions never stack: through any interleaving of speed ramps (with
    non-negative frame times), near-miss events, spectacle updates and
    restarts, [currentSpeed] stays between 0.7 times [AUTO_SPEED] (5.6) and
    [MAX_SPEED] (25). *)
Theorem speed_stays_in_band (ls : Storage) (es : list event) :
  Forall forward es ->
  (SPECTACLE.NEAR_MISS_SLOWMO_FACTOR * GAMEPLAY.AUTO_SPEED
   <= currentSpeed (snd (Replay.run ls es (Replay.boot ls)))
   <= GAMEPLAY.MAX_SPEED)%Q.
Proof.
  intros Hf.
  assert (Hinv : speed_inv (Replay.run ls es (Replay.boot ls))).
  { apply speed_inv_run; [exact Hf|].
    unfold speed_inv, Replay.boot, Session.boot, Session.startGame. cbn.
    change (Qgtb 0 0) with false.
    unfold GAMEPLAY.MAX_SPEED, GAMEPLAY.AUTO_SPEED. split; lra. }
  destruct Hinv as [Hmax Hband]. split; [|exact Hmax].
  unfold SPECTACLE.NEAR_MISS_SLOWMO_FACTOR, GAMEPLAY.AUTO_SPEED in *.
  destruct (Qgtb _ 0); lra.
Qed.

Lemma calm_step (a : SpectacleSystem.action) (st : SpectacleSystem.t * state) :
  calm a -> (_slowMoTimer (fst st) <= 0)%Q ->
  (_slowMoTimer (fst (SpectacleSystem.step a st)) <= 0)%Q
  /\ expired st (SpectacleSystem.step a st) = false
  /\ snd (SpectacleSystem.step a st)
     = ramps_only [a] (snd st).
Proof.
  intros Hcalm Ht. destruct st as [sp gs]. cbn [fst snd] in *.
  assert (E : Qgtb (_slowMoTimer sp) 0 = false).
  { destruct (Qgtb (_slowMoTimer sp) 0) eqn:E; [|reflexivity].
    apply Qgtb_gt in E. lra. }
  unfold expired. cbn [fst]. rewrite E.
  destruct a as [d| |d pos]; cbn in Hcalm; [|contradiction|].
  - cbn. split; [exact Ht|]. split; reflexivity.
  - cbn [SpectacleSystem.step fst snd]. unfold SpectacleSystem.update.
    rewrite E. cbn. split; [exact Ht|]. split; reflexivity.
Qed.

Lemma calm_run (acts : list SpectacleSystem.action) :
  forall st : SpectacleSystem.t * state,
    Forall calm acts -> (_slowMoTimer (fst st) <= 0)%Q ->
    speed_at_expiry acts st = None
    /\ snd (fold_left (fun st a => SpectacleSystem.step a st) acts st)
       = ramps_only acts (snd st).
Proof.
  induction acts as [|a rest IH]; intros st Hc Ht; cbn [speed_at_expiry fold_left].
  - split; reflexivity.
  - inversion Hc as [|a' rest' Ha Hrest]; subst.
    destruct (calm_step a st Ha Ht) as (Ht' & Hexp & Hgs).
    rewrite Hexp.
    destruct (IH (SpectacleSystem.step a st) Hrest Ht') as [H1 H2].
    split; [exact H1|]. rewrite H2, Hgs. reflexivity.
Qed.

(** X8 (core/Game.js, systems/SpectacleSystem.js).  A restart cancels a
    pending slow motion: after [Game.restart()], whatever the saved speed
    was, no later update of the spectacle system writes it back.  Until the
    next near miss no slow motion expires, and [gameState] is what the
    player's speed ramps alone make of the freshly reset state. *)
Theorem restart_cancels_slow_motion (ls : Storage)
  (st : SpectacleSystem.t * state) (acts : list SpectacleSystem.action) :
  Forall calm acts ->
  speed_at_expiry acts (Replay.restart ls st) = None
  /\ snd (fold_left (fun st a => SpectacleSystem.step a st) acts
            (Replay.restart ls st))
     = ramps_only acts (set_started true (reset ls (Some (snd st)))).
Proof.
  intros Hc. apply (calm_run acts (Replay.restart ls st) Hc). cbn. lra.
Qed.

End SpeedBandSpec.

Lemma speed_stays_in_band_witness :
  Forall Replay.forward Replay.replay
  /\ (5.6 <= GameState.currentSpeed
               (snd (Replay.run None Replay.replay (Replay.boot None)))
      <= 25)%Q.
Proof.
  assert (Hf : Forall Replay.forward Replay.replay)
    by (repeat constructor; cbn; lra).
  split; [exact Hf|].
  pose proof (speed_stays_in_band None Replay.replay Hf) as H.
  unfold SPECTACLE.NEAR_MISS_SLOWMO_FACTOR, GAMEPLAY.AUTO_SPEED,
    GAMEPLAY.MAX_SPEED in H.
  split; [|exact (proj2 H)].
  eapply Qle_trans; [|exact (proj1 H)]. lra.
Defined.

Lemma restart_cancels_slow_motion_witness :
  Forall Replay.calm
    [SpectacleSystem.Update 0.05 None; SpectacleSystem.PlayerSpeedRamp 0.05;
     SpectacleSystem.Update 0.05 None; SpectacleSystem.Update 0.05 None]
  /\ (GameState.currentSpeed
        (snd (fold_left (fun st a => SpectacleSystem.step a st)
                [SpectacleSystem.Update 0.05 None;
                 SpectacleSystem.PlayerSpeedRamp 0.05;
                 SpectacleSystem.Update 0.05 None;
                 SpectacleSystem.Update 0.05 None]
                (Replay.restart None
                   (SpectacleSystem.mk 0.1 0.1 20 None,
                    GameState.set_currentSpeed 14 (GameState.new None)))))
      == 8.0075)%Q.
Proof.
  assert (Hc : Forall Replay.calm
                 [SpectacleSystem.Update 0.05 None;
                  SpectacleSystem.PlayerSpeedRamp 0.05;
                  SpectacleSystem.Update 0.05 None;
                  SpectacleSystem.Update 0.05 None])
    by (repeat constructor).
  split; [exact Hc|].
  rewrite (proj2 (restart_cancels_slow_motion None
                    (SpectacleSystem.mk 0.1 0.1 20 None,
                     GameState.set_currentSpeed 14 (GameState.new None))
                    _ Hc)).
  reflexivity.
Defined.

(** ** entities/Envelope.js: the flight of an envelope *)

Section FlightSpec.
Import Envelope Flight.

Lemma update_dead (delta : Q) (e : Envelope.t) :
  alive e = false -> update delta e = e.
Proof. intros H. unfold update. now rewrite H. Qed.



Lemma update_alive (delta : Q) (e : Envelope.t) :
  alive e = true ->
  distanceTraveled (update delta e)
  = (distanceTraveled e + ENVELOPE.SPEED * delta)%Q
  /\ (alive (update delta e) = true
      <-> (distanceTraveled e + ENVELOPE.SPEED * delta
           < ENVELOPE.MAX_DISTANCE)%Q).
Proof.
  intros H. unfold update. rewrite H. cbn [negb alive distanceTraveled].
  split; [reflexivity|].
  unfold Qgeb.
  destruct (Qleb ENVELOPE.MAX_DISTANCE
              (distanceTraveled e + ENVELOPE.SPEED * delta)) eqn:E.
  - apply Qleb_le in E. split; [intros; discriminate|intros; lra].
  - apply Qleb_gt in E. split; [intros; exact E|intros; reflexivity].
Qed.



Lemma arc_bounds (t : Q) :
  (0 <= t <= 1 ->
   0 <= 4 * ENVELOPE.ARC_HEIGHT * t * (1 - t) <= ENVELOPE.ARC_HEIGHT)%Q.
Proof.
  unfold ENVELOPE.ARC_HEIGHT. intros [H0 H1].
  pose proof (sum_of_squares_nonneg (2 * t - 1) 0) as Hsq.
  split; nra.
Qed.

Lemma ratio_bounds (a b : Q) :
  (0 <= a -> 0 < b ->
   0 <= Math_min (a / b) 1 <= 1
   /\ (b <= a -> Math_min (a / b) 1 == 1))%Q.
Proof.
  intros Ha Hb.
  assert (Hinv : (0 < / b)%Q) by now apply Qinv_lt_0_compat.
  assert (Hq : (0 <= a / b)%Q) by (unfold Qdiv; nra).
  unfold Math_min.
  destruct (Qleb (a / b) 1) eqn:E.
  - apply Qleb_le in E. split; [split; lra|].
    intros Hba.
    assert (H1 : (1 <= a / b)%Q).
    { apply Qle_shift_div_l; [exact Hb|lra]. }
    lra.
  - split; [split; lra|]. intros _. reflexivity.
Qed.

(** X10 (entities/Envelope.js).  The lob of a targeted envelope: when an
    update moves a live envelope that has a target and a positive flight
    distance, the new height is between the launch height and the launch
    height plus [ARC_HEIGHT]; and once the envelope has covered its flight
    distance it is back at launch height. *)
Theorem lob_stays_within_arc_height (delta : Q) (e : Envelope.t)
  (target : Vector3.t) :
  alive e = true -> targetPos e = Some target ->
  (0 < totalFlightDist e)%Q ->
  (0 <= distanceTraveled e + ENVELOPE.SPEED * delta)%Q ->
  (Vector3.y (startPos e) <= Vector3.y (position (update delta e))
   <= Vector3.y (startPos e) + ENVELOPE.ARC_HEIGHT)%Q
  /\ ((totalFlightDist e <= distanceTraveled e + ENVELOPE.SPEED * delta)%Q ->
      (Vector3.y (position (update delta e)) == Vector3.y (startPos e))%Q).
Proof.
  intros Ha Ht Hpos Hd. unfold update. rewrite Ha, Ht. cbn [negb position].
  apply Qgtb_gt in Hpos. rewrite Hpos. apply Qgtb_gt in Hpos.
  cbn [Vector3.set_y Vector3.y].
  destruct (ratio_bounds _ _ Hd Hpos) as [Hr Hone].
  pose proof (arc_bounds _ Hr) as Harc.
  split; [split; lra|].
  intros Hfar. specialize (Hone Hfar).
  rewrite Hone. unfold ENVELOPE.ARC_HEIGHT. ring.
Qed.

End FlightSpec.


Lemma lob_stays_within_arc_height_witness :
  (1 <= Vector3.y
          (Envelope.position
             (Flight.update 0.05
                (Flight.new (fun _ => 20%Q) (Vector3.mk 0 0 0)
                   (Vector3.mk 7 0 (-19)) (Some (Vector3.mk 7 0 (-19))))))
   <= 1 + 1.5)%Q.
Proof.
  exact (proj1 (lob_stays_within_arc_height 0.05
                  (Flight.new (fun _ => 20%Q) (Vector3.mk 0 0 0)
                     (Vector3.mk 7 0 (-19)) (Some (Vector3.mk 7 0 (-19))))
                  (Vector3.mk 7 1 (-19))
                  eq_refl eq_refl ltac:(cbn; lra)
                  ltac:(cbn; unfold ENVELOPE.SPEED; lra))).
Defined.

(** ** gameplay/Player.js: position, visibility, envelopes and throws *)

Section PlayerObjectSpec.
Import PlayerObject.
Variable sqrt : Q -> Q.

Lemma clamp_bounds (v : Q) :
  (STREET.LANE_MIN <= Math_max STREET.LANE_MIN (Math_min STREET.LANE_MAX v)
   <= STREET.LANE_MAX)%Q.
Proof.
  unfold Math_max, Math_min, STREET.LANE_MIN, STREET.LANE_MAX.
  destruct (Qleb 4 v) eqn:E1.
  - destruct (Qleb (-4) 4) eqn:E2; [lra|]. apply Qleb_gt in E2. lra.
  - apply Qleb_gt in E1.
    destruct (Qleb (-4) v) eqn:E2; [apply Qleb_le in E2|]; lra.
Qed.

Lemma flying_in_range (delta : Q) (es : list Envelope.t) :
  Forall (fun e => Envelope.alive e = true
                   /\ (Envelope.distanceTraveled e < ENVELOPE.MAX_DISTANCE)%Q)
         (List.filter Envelope.alive (map (Flight.update delta) es)).
Proof.
  induction es as [|e rest IH]; cbn [map List.filter]; [constructor|].
  destruct (Envelope.alive (Flight.update delta e)) eqn:E; [|exact IH].
  constructor; [|exact IH]. split; [exact E|].
  destruct (Envelope.alive e) eqn:Ha.
  - destruct (update_alive delta e Ha) as [Hd Hiff].
    rewrite Hd. now apply Hiff.
  - rewrite update_dead in E by exact Ha. congruence.
Qed.

Lemma takeDamage_timer (d : Player.t) (gs : GameState.state) :
  Qgtb (Player._invincibleTimer (fst (fst (Player.takeDamage d gs)))) 0 = false ->
  fst (fst (Player.takeDamage d gs)) = d.
Proof.
  unfold Player.takeDamage.
  destruct (Qgtb (Player._invincibleTimer d) 0) eqn:E; [reflexivity|].
  destruct (GameState.loseLife gs) as [isDead gs1].
  destruct isDead; cbn; discriminate.
Qed.

Lemma inv_step (st : t * GameState.state) (o : op) :
  inv (fst st) -> inv (fst (fst (step sqrt st o))).
Proof.
  destruct st as [p gs]. intros (Hx & Hv & He). cbn [fst snd] in *.
  destruct o as [|tgt|delta i| | |k]; cbn [step fst snd].
  - exact (conj Hx (conj Hv He)).
  - unfold throwEnvelope.
    destruct (Qgtb (_throwCooldown p) 0); [exact (conj Hx (conj Hv He))|].
    destruct (GameState.gameOver gs); [exact (conj Hx (conj Hv He))|].
    cbn [fst]. unfold inv. cbn [position visible envelopes].
    split; [exact Hx|]. split; [exact Hv|].
    apply Forall_app. split; [exact He|].
    constructor; [|constructor]. cbn. unfold ENVELOPE.MAX_DISTANCE. lra.
  - unfold update.
    destruct (ready p); cbn [negb]; [|exact (conj Hx (conj Hv He))].
    destruct (GameState.updateComboTimer (delta * 1000)
                (Player.increase_speed delta gs)) as [expired gs2].
    cbn [fst]. unfold inv, isInvincible.
    cbn [position visible envelopes damage Vector3.x].
    split; [|split].
    + destruct (steer i =? 0); [exact Hx|apply clamp_bounds].
    + intros Hinv. unfold isInvincible in Hv.
      unfold Player.tick_invincibility in *.
      destruct (Qgtb (Player._invincibleTimer (damage p)) 0) eqn:E.
      * cbn [Player._invincibleTimer] in *.
        assert (Hle : Qleb (Player._invincibleTimer (damage p) - delta) 0
                      = true).
        { apply Qleb_le. apply Qgtb_le. exact Hinv. }
        now rewrite Hle.
      * now apply Hv.
    + eapply Forall_impl; [apply flying_in_range|].
      intros e [_ H]. exact H.
  - unfold takeDamage.
    destruct (Player.takeDamage (damage p) gs) as [[d gs1] evs] eqn:E.
    cbn [fst]. unfold inv, isInvincible.
    cbn [position visible envelopes damage].
    split; [exact Hx|]. split; [|exact He].
    intros Hinv. apply Hv. unfold isInvincible.
    pose proof (takeDamage_timer (damage p) gs) as Ht.
    rewrite E in Ht. cbn [fst] in Ht. rewrite <- (Ht Hinv). exact Hinv.
  - unfold inv, reset, isInvincible. cbn.
    unfold STREET.LANE_MIN, STREET.LANE_MAX, PLAYER.START_X.
    split; [lra|]. split; [reflexivity|constructor].
  - unfold inv, isInvincible. cbn [position visible envelopes damage].
    split; [exact Hx|]. split; [exact Hv|].
    destruct (envelopes p !! k) as [e|] eqn:Ek; [|exact He].
    apply Forall_insert; [exact He|].
    rewrite Forall_lookup in He. exact (He k e Ek).
Qed.

Lemma inv_run (ops : list op) :
  forall st : t * GameState.state,
    inv (fst st) -> inv (fst (fst (run sqrt ops st))).
Proof.
  induction ops as [|o rest IH]; intros st Hinv; cbn [run fst]; [exact Hinv|].
  pose proof (inv_step st o Hinv) as H1.
  destruct (step sqrt st o) as [[p gs] evs]. cbn [fst] in H1.
  specialize (IH (p, gs) H1).
  destruct (run sqrt rest (p, gs)) as [[p' gs'] evs']. exact IH.
Qed.

(** X11 (gameplay/Player.js).  Whatever is done to a player after its
    construction (frames with any input and frame time, throws, damage,
    [reset()]), it stays between the street boundaries [LANE_MIN] and
    [LANE_MAX], and it is visible whenever it is not invincible: the
    flashing never leaves it hidden. *)
Theorem player_stays_on_street_and_reappears (ops : list op)
  (gs : GameState.state) :
  (STREET.LANE_MIN
   <= Vector3.x (position (fst (fst (run sqrt ops (new, gs)))))
   <= STREET.LANE_MAX)%Q
  /\ (isInvincible (fst (fst (run sqrt ops (new, gs)))) = false ->
      visible (fst (fst (run sqrt ops (new, gs)))) = true).
Proof.
  assert (H : inv (fst (fst (run sqrt ops (new, gs))))).
  { apply inv_run. unfold inv, isInvincible. cbn.
    unfold STREET.LANE_MIN, STREET.LANE_MAX, PLAYER.START_X.
    split; [lra|]. split; [reflexivity|constructor]. }
  destruct H as (Hx & Hv & _). split; assumption.
Qed.

(** X12 (gameplay/Player.js, entities/Envelope.js).  Every envelope in
    [player.envelopes] has travelled less than [MAX_DISTANCE], at every
    point of the player's life; and right after an [update] of a loaded
    player the list holds live envelopes only. *)
Theorem envelopes_in_flight_are_in_range (ops : list op)
  (gs : GameState.state) (delta : Q) (i : input) :
  Forall (fun e => (Envelope.distanceTraveled e < ENVELOPE.MAX_DISTANCE)%Q)
         (envelopes (fst (fst (run sqrt ops (new, gs)))))
  /\ (ready (fst (fst (run sqrt ops (new, gs)))) = true ->
      Forall (fun e => Envelope.alive e = true)
             (envelopes
                (fst (fst (update delta i
                             (fst (fst (run sqrt ops (new, gs))))
                             (snd (fst (run sqrt ops (new, gs))))))))).
Proof.
  split.
  - assert (H : inv (fst (fst (run sqrt ops (new, gs))))).
    { apply inv_run. unfold inv, isInvincible. cbn.
      unfold STREET.LANE_MIN, STREET.LANE_MAX, PLAYER.START_X.
      split; [lra|]. split; [reflexivity|constructor]. }
    destruct H as (_ & _ & H). exact H.
  - intros Hr. unfold update. rewrite Hr. cbn [negb].
    destruct (GameState.updateComboTimer _ _) as [expired gs2].
    cbn [fst envelopes].
    eapply Forall_impl; [apply flying_in_range|].
    intros e [H _]. exact H.
Qed.

Lemma count_thrown_app (l1 l2 : list notice) :
  count_thrown (l1 ++ l2) = count_thrown l1 + count_thrown l2.
Proof.
  unfold count_thrown. rewrite List.filter_app, length_app. lia.
Qed.

Lemma increase_speed_totalThrown (d : Q) (gs : GameState.state) :
  GameState.totalThrown (Player.increase_speed d gs)
  = GameState.totalThrown gs.
Proof.
  unfold Player.increase_speed.
  destruct (Qltb (GameState.currentSpeed gs) GAMEPLAY.MAX_SPEED); reflexivity.
Qed.

Lemma updateComboTimer_totalThrown (d : Q) (gs : GameState.state) :
  GameState.totalThrown (snd (GameState.updateComboTimer d gs))
  = GameState.totalThrown gs.
Proof.
  unfold GameState.updateComboTimer.
  destruct ((0 <? GameState.combo gs) && Qgtb (GameState._comboTimer gs) 0);
    [|reflexivity].
  cbn [GameState.set_comboTimer GameState._comboTimer].
  destruct (Qleb (GameState._comboTimer gs - d) 0); reflexivity.
Qed.

Lemma takeDamage_totalThrown (d : Player.t) (gs : GameState.state) :
  GameState.totalThrown (snd (fst (Player.takeDamage d gs)))
  = GameState.totalThrown gs
  /\ count_thrown (map Published (snd (Player.takeDamage d gs))) = 0.
Proof.
  unfold Player.takeDamage.
  destruct (Qgtb (Player._invincibleTimer d) 0); [split; reflexivity|].
  unfold GameState.loseLife. cbv zeta. cbn iota.
  destruct (GameState.lives gs - 1 <=? 0); split; reflexivity.
Qed.

Lemma step_counts_throws (st : t * GameState.state) (o : op) :
  GameState.totalThrown (snd (fst (step sqrt st o)))
  = GameState.totalThrown (snd st) + count_thrown (snd (step sqrt st o)).
Proof.
  destruct st as [p gs]. cbn [fst snd].
  destruct o as [|tgt|delta i| | |k]; cbn [step fst snd];
    try (unfold count_thrown; cbn; lia).
  - unfold throwEnvelope.
    destruct (Qgtb (_throwCooldown p) 0); [unfold count_thrown; cbn; lia|].
    destruct (GameState.gameOver gs); [unfold count_thrown; cbn; lia|].
    reflexivity.
  - unfold update. destruct (ready p); cbn [negb]; [|unfold count_thrown; cbn; lia].
    pose proof (updateComboTimer_totalThrown (delta * 1000)
                  (Player.increase_speed delta gs)) as H.
    rewrite increase_speed_totalThrown in H.
    destruct (GameState.updateComboTimer (delta * 1000)
                (Player.increase_speed delta gs)) as [expired gs2].
    cbn [fst snd] in *. rewrite H. destruct expired; unfold count_thrown; cbn; lia.
  - unfold takeDamage.
    destruct (takeDamage_totalThrown (damage p) gs) as [H1 H2].
    destruct (Player.takeDamage (damage p) gs) as [[d gs1] evs].
    cbn [fst snd] in *. rewrite H1, H2. lia.
Qed.

Lemma run_counts_throws (ops : list op) :
  forall st : t * GameState.state,
    GameState.totalThrown (snd (fst (run sqrt ops st)))
    = GameState.totalThrown (snd st) + count_thrown (snd (run sqrt ops st)).
Proof.
  induction ops as [|o rest IH]; intros st; cbn [run fst snd].
  - unfold count_thrown. cbn. lia.
  - pose proof (step_counts_throws st o) as H1.
    destruct (step sqrt st o) as [[p gs] evs]. cbn [fst snd] in H1.
    specialize (IH (p, gs)).
    destruct (run sqrt rest (p, gs)) as [[p' gs'] evs'].
    cbn [fst snd] in *. rewrite count_thrown_app. lia.
Qed.

(** X13 (gameplay/Player.js).  [gameState.totalThrown] counts the throws
    that went out: over any sequence of throws, frames, damage and resets it
    grows by exactly the number of ENVELOPE_THROWN events emitted. *)
Theorem totalThrown_counts_thrown_events (ops : list op)
  (st : t * GameState.state) :
  GameState.totalThrown (snd (fst (run sqrt ops st)))
  = GameState.totalThrown (snd st) + count_thrown (snd (run sqrt ops st)).
Proof. apply run_counts_throws. Qed.





End PlayerObjectSpec.


(** ** entities/PanicPoint.js and core/Game.js: the life of a panic point *)

Section PickupsSpec.
Import PanicPoint Pickups.
Variable M : MathEnv.






Lemma checkPlayer_collect (p : PanicPoint.t) (pos : Vector3.t) :
  checkPlayer p pos = true ->
  collected p = false
  /\ fst (collect p) = true
  /\ collected (snd (collect p)) = true
  /\ checkPlayer (snd (collect p)) pos = false.
Proof.
  unfold checkPlayer, collect.
  destruct (collected p); cbn; [discriminate|].
  intros _. repeat split; reflexivity.
Qed.

Lemma checkPlayer_false_collected (p : PanicPoint.t) (pos : Vector3.t) :
  checkPlayer p pos = true -> collected p = false.
Proof. intros H. now destruct (checkPlayer_collect p pos H). Qed.

Lemma panic_pass_spec (pos : Vector3.t) (pps : list PanicPoint.t) :
  forall gs : GameState.state,
    GameState.combo (snd (fst (_checkPanicCollection pos pps gs)))
    = GameState.combo gs
    /\ GameState.score (snd (fst (_checkPanicCollection pos pps gs)))
       = GameState.score gs
         + Z.of_nat (length (List.filter (fun p => checkPlayer p pos) pps))
           * Z.max 1 (Z.min (GameState.combo gs) COMBO.MULTIPLIER_CAP)
    /\ length (snd (_checkPanicCollection pos pps gs))
       = (2 * length (List.filter (fun p => checkPlayer p pos) pps))%nat
    /\ count_collected (fst (fst (_checkPanicCollection pos pps gs)))
       = (count_collected pps
          + length (List.filter (fun p => checkPlayer p pos) pps))%nat
    /\ Forall (fun p => checkPlayer p pos = false)
              (fst (fst (_checkPanicCollection pos pps gs))).
Proof.
  induction pps as [|p rest IH]; intros gs; cbn [_checkPanicCollection].
  - cbn. repeat split; try lia. constructor.
  - cbn [List.filter].
    destruct (checkPlayer p pos) eqn:Hc.
    + destruct (checkPlayer_collect p pos Hc) as (Hnc & Hfresh & Hcol & Hout).
      destruct (collect p) as [fresh p1]. cbn [fst snd] in *. subst fresh.
      unfold GameState.addScore. cbv zeta.
      match goal with
      | |- context [_checkPanicCollection pos rest ?g] =>
          specialize (IH g); destruct (_checkPanicCollection pos rest g)
            as [[rest' gs2] evs]
      end.
      cbn [fst snd GameState.combo GameState.score] in *.
      destruct IH as (I1 & I2 & I3 & I4 & I5).
      unfold count_collected in *. cbn [List.filter length].
      rewrite Hcol, Hnc. cbn [length].
      repeat split; try lia.
      constructor; assumption.
    + specialize (IH gs).
      destruct (_checkPanicCollection pos rest gs) as [[rest' gs2] evs].
      cbn [fst snd] in *.
      destruct IH as (I1 & I2 & I3 & I4 & I5).
      unfold count_collected in *. cbn [List.filter length].
      destruct (collected p); cbn [length];
        (repeat split; try lia; constructor; assumption).
Qed.

Lemma panic_pass_idle (pos : Vector3.t) (pps : list PanicPoint.t) :
  forall gs : GameState.state,
    Forall (fun p => checkPlayer p pos = false) pps ->
    _checkPanicCollection pos pps gs = (pps, gs, []).
Proof.
  induction pps as [|p rest IH]; intros gs H; cbn [_checkPanicCollection];
    [reflexivity|].
  inversion H as [|p' rest' Hp Hrest]; subst.
  rewrite Hp, (IH gs Hrest). reflexivity.
Qed.

(** X16 (core/Game.js).  One pass of [_checkPanicCollection] collects every
    panic point within reach of the player exactly once: with [k] such
    points, the score grows by [k] times the combo multiplier, [2 k] events
    go out, [k] more points are marked collected, and the combo is left
    alone; running the pass again right away changes nothing and emits
    nothing. *)
Theorem panic_pass_scores_each_point_once (pos : Vector3.t)
  (pps : list PanicPoint.t) (gs : GameState.state) :
  GameState.score (snd (fst (_checkPanicCollection pos pps gs)))
  = GameState.score gs
    + Z.of_nat (length (List.filter (fun p => checkPlayer p pos) pps))
      * Z.max 1 (Z.min (GameState.combo gs) COMBO.MULTIPLIER_CAP)
  /\ length (snd (_checkPanicCollection pos pps gs))
     = (2 * length (List.filter (fun p => checkPlayer p pos) pps))%nat
  /\ count_collected (fst (fst (_checkPanicCollection pos pps gs)))
     = (count_collected pps
        + length (List.filter (fun p => checkPlayer p pos) pps))%nat
  /\ GameState.combo (snd (fst (_checkPanicCollection pos pps gs)))
     = GameState.combo gs
  /\ _checkPanicCollection pos
       (fst (fst (_checkPanicCollection pos pps gs)))
       (snd (fst (_checkPanicCollection pos pps gs)))
     = (fst (fst (_checkPanicCollection pos pps gs)),
        snd (fst (_checkPanicCollection pos pps gs)), []).
Proof.
  destruct (panic_pass_spec pos pps gs) as (H1 & H2 & H3 & H4 & H5).
  repeat split; try assumption.
  now apply panic_pass_idle.
Qed.

End PickupsSpec.


(** ** core/Game.js: the player/agent collision pass *)

(** [sqrt_gt] is the comparison [Math.sqrt(s) > r] on the reals. *)
Lemma sqrt_gt_real (s r : Q) :
  (0 <= s)%Q -> sqrt_gt s r = true <-> (Q2R r < sqrt (Q2R s))%R.
Proof.
  intros Hs. unfold sqrt_gt.
  rewrite orb_true_iff, !Qltb_lt.
  apply Qle_Rle in Hs. rewrite Q2R_zero in Hs.
  pose proof (sqrt_pos (Q2R s)) as Hpos.
  pose proof (sqrt_sqrt (Q2R s) Hs) as Hsq.
  split.
  - intros [Hr|Hlt].
    + apply Qlt_Rlt in Hr. rewrite Q2R_zero in Hr. lra.
    + apply Qlt_Rlt in Hlt. rewrite Q2R_mult in Hlt.
      destruct (Rlt_le_dec (Q2R r) 0) as [Hneg|Hnn]; [lra|].
      rewrite <- (sqrt_square (Q2R r)) by lra.
      apply sqrt_lt_1_alt. nra.
  - intros Hlt.
    destruct (Rlt_le_dec (Q2R r) 0) as [Hneg|Hnn].
    + left. apply Rlt_Qlt. rewrite Q2R_zero. exact Hneg.
    + right. apply Rlt_Qlt. rewrite Q2R_mult. rewrite <- Hsq. nra.
Qed.

Section EncountersSpec.
Import Encounters.

Lemma count_collided_insert (l : list Agent.t) :
  forall (i : nat) (a : Agent.t),
    l !! i = Some a -> Agent.hasCollided a = false ->
    count_collided (<[i := collided a]> l) = S (count_collided l).
Proof.
  unfold count_collided.
  induction l as [|k l IH]; intros i a Hi Ha; [discriminate|].
  destruct i as [|i]; cbn in Hi.
  - injection Hi as ->. cbn. rewrite Ha. reflexivity.
  - cbn. specialize (IH i a Hi Ha).
    destruct (Agent.hasCollided k); cbn [length]; [f_equal|]; exact IH.
Qed.

Lemma agent_checkPlayer_fresh (a : Agent.t) (pos : Vector3.t) :
  Agent.checkPlayer a pos = true ->
  Agent.hasCollided a = false
  /\ (Encounters.gap_sq a pos
      < AGENT.COLLISION_RADIUS * AGENT.COLLISION_RADIUS)%Q.
Proof.
  unfold Agent.checkPlayer, Encounters.gap_sq, sqrt_lt.
  destruct (Agent.alive a), (Agent.hasCollided a); cbn; try discriminate.
  intros H. apply andb_true_iff in H. destruct H as [_ H].
  apply Qltb_lt in H. split; [reflexivity|exact H].
Qed.

(** What a hit does, when the player is not invincible. *)
Lemma takeDamage_vulnerable (pl : Player.t) (gs : GameState.state) :
  Qgtb (Player._invincibleTimer pl) 0 = false ->
  GameState.lives (snd (fst (Player.takeDamage pl gs))) = GameState.lives gs - 1
  /\ GameState.currentSpeed (snd (fst (Player.takeDamage pl gs)))
     = GameState.currentSpeed gs
  /\ Player._invincibleTimer (fst (fst (Player.takeDamage pl gs)))
     = PLAYER.INVINCIBILITY_DURATION
  /\ Forall (fun e => topic e <> Events.SPECTACLE_NEAR_MISS)
            (snd (Player.takeDamage pl gs)).
Proof.
  intros H. unfold Player.takeDamage. rewrite H.
  unfold GameState.loseLife. cbv zeta. cbn iota.
  destruct (GameState.lives gs - 1 <=? 0); cbn;
    (repeat split; try reflexivity; repeat constructor; discriminate).
Qed.

Lemma collide_spec (nearby : list nat) :
  forall st : t,
    Qgtb (Player._invincibleTimer (player st)) 0 = false ->
    collide nearby st = (st, [])
    \/ (GameState.lives (gameState (fst (collide nearby st)))
        = GameState.lives (gameState st) - 1
        /\ GameState.combo (gameState (fst (collide nearby st))) = 0
        /\ (0 < Player._invincibleTimer (player (fst (collide nearby st))))%Q
        /\ count_collided (agents (fst (collide nearby st)))
           = S (count_collided (agents st))
        /\ GameState.currentSpeed (gameState (fst (collide nearby st)))
           = GameState.currentSpeed (gameState st)
        /\ spectacle (fst (collide nearby st)) = spectacle st
        /\ Forall (fun e => topic e <> Events.SPECTACLE_NEAR_MISS)
                  (snd (collide nearby st))).
Proof.
  induction nearby as [|i rest IH]; intros st Hv; cbn [collide];
    [left; reflexivity|].
  destruct (agents st !! i) as [agent|] eqn:Hi; [|now apply IH].
  destruct (Agent.checkPlayer agent (playerPos st)) eqn:Hc; [|now apply IH].
  right.
  destruct (agent_checkPlayer_fresh agent (playerPos st) Hc) as [Hfresh _].
  destruct (takeDamage_vulnerable (player st) (gameState st) Hv)
    as (Hl & Hs & Ht & Hev).
  destruct (Player.takeDamage (player st) (gameState st)) as [[pl gs1] evs].
  cbn [fst snd player gameState agents spectacle] in *.
  rewrite Ht. cbn [GameState.resetCombo GameState.lives GameState.combo
                   GameState.currentSpeed].
  repeat split; try assumption; try reflexivity.
  - now apply count_collided_insert.
  - apply Forall_app. split; [exact Hev|].
    repeat constructor; discriminate.
Qed.

Lemma band_bounds (s : Q) :
  in_near_miss_band s = true ->
  (AGENT.COLLISION_RADIUS * AGENT.COLLISION_RADIUS < s < 1.5 * 1.5)%Q.
Proof.
  unfold in_near_miss_band, sqrt_lt, sqrt_gt, AGENT.COLLISION_RADIUS.
  intros H. apply andb_true_iff in H. destruct H as [H1 H2].
  apply andb_true_iff in H1. destruct H1 as [_ H1]. apply Qltb_lt in H1.
  apply orb_true_iff in H2. destruct H2 as [H2|H2]; apply Qltb_lt in H2; lra.
Qed.

Lemma onNearMiss_unarmed (sp : SpectacleSystem.t) (gs : GameState.state) :
  armed sp = false -> SpectacleSystem._onNearMiss sp gs = (sp, gs).
Proof.
  unfold armed, SpectacleSystem._onNearMiss.
  destruct (SpectacleSystem._lastPlayerPos sp); [|reflexivity].
  now intros ->.
Qed.

Lemma onNearMiss_armed (sp : SpectacleSystem.t) (gs : GameState.state) :
  armed sp = true ->
  armed (fst (SpectacleSystem._onNearMiss sp gs)) = false
  /\ snd (SpectacleSystem._onNearMiss sp gs)
     = GameState.set_currentSpeed
         (GameState.currentSpeed gs * SPECTACLE.NEAR_MISS_SLOWMO_FACTOR) gs.
Proof.
  unfold armed, SpectacleSystem._onNearMiss.
  destruct (SpectacleSystem._lastPlayerPos sp) eqn:Hp; [|discriminate].
  intros ->. cbn. split; reflexivity.
Qed.

Lemma near_misses_spec (sqrt : Q -> Q) (nearby : list nat) :
  forall st : t,
    player (fst (near_misses sqrt nearby st)) = player st
    /\ agents (fst (near_misses sqrt nearby st)) = agents st
    /\ GameState.lives (gameState (fst (near_misses sqrt nearby st)))
       = GameState.lives (gameState st)
    /\ GameState.combo (gameState (fst (near_misses sqrt nearby st)))
       = GameState.combo (gameState st)
    /\ Forall (near_miss_in_band sqrt) (snd (near_misses sqrt nearby st)).
Proof.
  induction nearby as [|i rest IH]; intros st; cbn [near_misses].
  - cbn. repeat split. constructor.
  - destruct (agents st !! i) as [agent|]; [|apply IH].
    destruct (negb (Agent.hasCollided agent) && Agent.alive agent);
      [|apply IH].
    destruct (in_near_miss_band (gap_sq agent (playerPos st))) eqn:Hb;
      [|apply IH].
    assert (Hl : GameState.lives
                   (snd (SpectacleSystem._onNearMiss (spectacle st)
                           (gameState st)))
                 = GameState.lives (gameState st)
                 /\ GameState.combo
                      (snd (SpectacleSystem._onNearMiss (spectacle st)
                              (gameState st)))
                    = GameState.combo (gameState st)).
    { destruct (armed (spectacle st)) eqn:Ha.
      - rewrite (proj2 (onNearMiss_armed _ (gameState st) Ha)).
        split; reflexivity.
      - rewrite onNearMiss_unarmed by exact Ha. split; reflexivity. }
    destruct Hl as [Hl Hc].
    destruct (SpectacleSystem._onNearMiss (spectacle st) (gameState st))
      as [sp gs].
    cbn [snd] in Hl, Hc.
    match goal with
    | |- context [near_misses sqrt rest ?s] =>
        specialize (IH s); destruct (near_misses sqrt rest s) as [st' evs]
    end.
    cbn [fst snd player agents gameState] in *.
    destruct IH as (I1 & I2 & I3 & I4 & I5).
    repeat split; try congruence.
    constructor; [|exact I5].
    intros _. exists (gap_sq agent (playerPos st)).
    split; [reflexivity|]. now apply band_bounds.
Qed.

Lemma near_misses_speed (sqrt : Q -> Q) (nearby : list nat) :
  forall st : t,
    (armed (spectacle st) = false ->
     GameState.currentSpeed (gameState (fst (near_misses sqrt nearby st)))
     = GameState.currentSpeed (gameState st))
    /\ (GameState.currentSpeed (gameState (fst (near_misses sqrt nearby st)))
        = GameState.currentSpeed (gameState st)
        \/ GameState.currentSpeed
             (gameState (fst (near_misses sqrt nearby st)))
           = (GameState.currentSpeed (gameState st)
              * SPECTACLE.NEAR_MISS_SLOWMO_FACTOR)%Q).
Proof.
  induction nearby as [|i rest IH]; intros st; cbn [near_misses].
  - cbn. split; [reflexivity|left; reflexivity].
  - destruct (agents st !! i) as [agent|]; [|apply IH].
    destruct (negb (Agent.hasCollided agent) && Agent.alive agent);
      [|apply IH].
    destruct (in_near_miss_band (gap_sq agent (playerPos st))); [|apply IH].
    destruct (armed (spectacle st)) eqn:Ha.
    + destruct (onNearMiss_armed (spectacle st) (gameState st) Ha)
        as [Hoff Hgs].
      destruct (SpectacleSystem._onNearMiss (spectacle st) (gameState st))
        as [sp gs].
      cbn [fst snd] in Hoff, Hgs. subst gs.
      match goal with
      | |- context [near_misses sqrt rest ?s] =>
          destruct (IH s) as [Hquiet _];
            destruct (near_misses sqrt rest s) as [st' evs]
      end.
      cbn [fst snd gameState spectacle] in *.
      split; [discriminate|]. right. now rewrite (Hquiet Hoff).
    + rewrite onNearMiss_unarmed by exact Ha.
      match goal with
      | |- context [near_misses sqrt rest ?s] =>
          destruct (IH s) as [Hquiet _];
            destruct (near_misses sqrt rest s) as [st' evs]
      end.
      cbn [fst snd gameState spectacle] in *.
      specialize (Hquiet Ha).
      split; [intros _; exact Hquiet|left; exact Hquiet].
Qed.

(** X17 (core/Game.js).  One pass of [_checkAgentCollisions] costs at most
    one life.  While the player is invincible the pass does nothing at all
    (no collision, no near-miss event).  Otherwise the life count drops by
    one or stays, it drops exactly when one more agent is marked as
    collided, and never is more than one agent marked; when it drops, the
    combo is reset and the player is invincible afterwards. *)
Theorem agent_pass_costs_at_most_one_life (sqrt : Q -> Q) (st : t) :
  ((0 < Player._invincibleTimer (player st))%Q ->
   _checkAgentCollisions sqrt st = (st, []))
  /\ GameState.lives (gameState st) - 1
     <= GameState.lives (gameState (fst (_checkAgentCollisions sqrt st)))
     <= GameState.lives (gameState st)
  /\ (count_collided (agents (fst (_checkAgentCollisions sqrt st)))
      <= S (count_collided (agents st)))%nat
  /\ (GameState.lives (gameState (fst (_checkAgentCollisions sqrt st)))
      = GameState.lives (gameState st) - 1
      <-> count_collided (agents (fst (_checkAgentCollisions sqrt st)))
          = S (count_collided (agents st)))
  /\ (GameState.lives (gameState (fst (_checkAgentCollisions sqrt st)))
      = GameState.lives (gameState st) - 1 ->
      GameState.combo (gameState (fst (_checkAgentCollisions sqrt st))) = 0
      /\ (0 < Player._invincibleTimer
                (player (fst (_checkAgentCollisions sqrt st))))%Q).
Proof.
  unfold _checkAgentCollisions.
  destruct (Qgtb (Player._invincibleTimer (player st)) 0) eqn:Hv.
  - cbn [fst]. split; [reflexivity|]. split; [lia|]. split; [lia|].
    split; [split; intros; lia|]. intros; lia.
  - split; [intros H; apply Qgtb_gt in H; congruence|].
    set (nearby := StreetGenerator.getAgentsInRange _ _ _).
    destruct (collide_spec nearby st Hv) as [Hnone|Hhit].
    + rewrite Hnone.
      destruct (near_misses_spec sqrt nearby st) as (Hp & Ha & Hl & Hc & _).
      destruct (near_misses sqrt nearby st) as [st2 evs2].
      cbn [fst] in *. rewrite Ha, Hl.
      split; [lia|]. split; [lia|].
      split; [split; intros; lia|]. intros; lia.
    + destruct Hhit as (Hl1 & Hc1 & Ht1 & Hn1 & _).
      destruct (collide nearby st) as [st1 evs1]. cbn [fst snd] in *.
      destruct (near_misses_spec sqrt nearby st1) as (Hp & Ha & Hl & Hc & _).
      destruct (near_misses sqrt nearby st1) as [st2 evs2].
      cbn [fst] in *. rewrite Ha, Hl, Hc, Hp, Hn1, Hl1, Hc1.
      split; [lia|]. split; [lia|].
      split; [split; intros; reflexivity|].
      intros _. split; [reflexivity|exact Ht1].
Qed.

(** X18 (core/Game.js, systems/SpectacleSystem.js).  Near misses and
    contact exclude each other, and however many agents brush past in one
    frame the game slows down once: every SPECTACLE_NEAR_MISS event of a
    pass reports a distance whose square lies strictly between the squares
    of the collision radius 0.7 and of 1.5, and after the pass
    [currentSpeed] is either what it was or 0.7 times that. *)
Theorem near_misses_slow_the_game_once (sqrt : Q -> Q) (st : t) :
  Forall (near_miss_in_band sqrt) (snd (_checkAgentCollisions sqrt st))
  /\ (GameState.currentSpeed
        (gameState (fst (_checkAgentCollisions sqrt st)))
      = GameState.currentSpeed (gameState st)
      \/ GameState.currentSpeed
           (gameState (fst (_checkAgentCollisions sqrt st)))
         = (GameState.currentSpeed (gameState st)
            * SPECTACLE.NEAR_MISS_SLOWMO_FACTOR)%Q).
Proof.
  unfold _checkAgentCollisions.
  destruct (Qgtb (Player._invincibleTimer (player st)) 0) eqn:Hv.
  - cbn [fst snd]. split; [constructor|left; reflexivity].
  - set (nearby := StreetGenerator.getAgentsInRange _ _ _).
    assert (H1 : GameState.currentSpeed (gameState (fst (collide nearby st)))
                 = GameState.currentSpeed (gameState st)
                 /\ Forall (fun e => topic e <> Events.SPECTACLE_NEAR_MISS)
                           (snd (collide nearby st))).
    { destruct (collide_spec nearby st Hv) as [->|Hhit];
        [split; [reflexivity|constructor]|].
      destruct Hhit as (_ & _ & _ & _ & Hs & _ & Hev). split; assumption. }
    destruct H1 as [Hs1 Hev1].
    destruct (collide nearby st) as [st1 evs1]. cbn [fst snd] in *.
    destruct (near_misses_spec sqrt nearby st1) as (_ & _ & _ & _ & Hev2).
    destruct (near_misses_speed sqrt nearby st1) as [_ Hs2].
    destruct (near_misses sqrt nearby st1) as [st2 evs2].
    cbn [fst snd] in *. rewrite <- Hs1. split; [|exact Hs2].
    apply Forall_app. split; [|exact Hev2].
    eapply Forall_impl; [exact Hev1|].
    intros e Hne Heq. contradiction.
Qed.

End EncountersSpec.

(** ** core/Game.js: the throw target *)

Section TargetingSpec.
Import Targeting.

Lemma referenced_indices_where {A : Type} (p : A -> bool) (hs : list A) :
  forall pre : list A,
    omap (fun i => (pre ++ hs) !! i)
         (StreetGenerator.indices_where p hs (length pre))
    = List.filter p hs.
Proof.
  induction hs as [|h rest IH]; intros pre; cbn [StreetGenerator.indices_where
                                                  List.filter];
    [reflexivity|].
  specialize (IH (pre ++ [h])).
  rewrite <- app_assoc in IH. cbn [app] in IH.
  rewrite length_app in IH. cbn [length] in IH.
  rewrite Nat.add_1_r in IH.
  destruct (p h); [|exact IH].
  cbn [omap list_omap]. rewrite list_lookup_middle by reflexivity.
  f_equal. exact IH.
Qed.

Lemma houses_in_range (z range : Q) (hs : list House.t) :
  referenced hs (StreetGenerator.getHousesInRange z range hs)
  = List.filter
      (fun h => negb (House.isHit h)
                && Qltb (Math_abs (Vector3.z (House.position h) - z)) range)
      hs.
Proof. exact (referenced_indices_where _ hs []). Qed.

Lemma ahead_eligible (pos : Vector3.t) (hs : list House.t) (h : House.t) :
  In h (List.filter
          (fun h => Qltb (Vector3.z (House.position h)) (Vector3.z pos))
          (referenced hs
             (StreetGenerator.getHousesInRange (Vector3.z pos)
                                               ENVELOPE.TARGET_RANGE hs)))
  <-> h ∈ hs /\ eligible pos h.
Proof.
  rewrite houses_in_range, !filter_In, list_elem_of_In.
  unfold eligible.
  rewrite andb_true_iff, negb_true_iff, !Qltb_lt. tauto.
Qed.

Lemma In_insert_by (key : House.t -> Q) (h x : House.t) (l : list House.t) :
  In x (insert_by key h l) <-> x = h \/ In x l.
Proof.
  induction l as [|h' rest IH]; cbn [insert_by].
  - cbn. intuition congruence.
  - destruct (Qleb (key h) (key h')); cbn [In] in *;
      [intuition congruence|].
    rewrite IH. intuition congruence.
Qed.

Lemma In_sort_by (key : House.t -> Q) (x : House.t) (l : list House.t) :
  In x (sort_by key l) <-> In x l.
Proof.
  induction l as [|h rest IH]; cbn [sort_by fold_right In]; [tauto|].
  fold (sort_by key rest). rewrite In_insert_by, IH.
  intuition congruence.
Qed.

(** The scan returns a house at the least distance among the ones scanned
    and the best one handed in. *)
Lemma nearest_spec (pos : Vector3.t) (l : list House.t) :
  forall (best : option House.t) (bestDist : option Q),
    bestDist = (fun b => gap_sq b pos) <$> best ->
    match nearest pos l best bestDist with
    | Some h =>
        (In h l \/ best = Some h)
        /\ (forall h', In h' l -> (gap_sq h pos <= gap_sq h' pos)%Q)
        /\ (forall b, best = Some b -> (gap_sq h pos <= gap_sq b pos)%Q)
    | None => l = [] /\ best = None
    end.
Proof.
  induction l as [|house rest IH]; intros best bestDist Hbd; cbn [nearest].
  - destruct best as [b|]; [|split; reflexivity].
    split; [right; reflexivity|]. split; [intros h' []|].
    intros b' E. injection E as ->. lra.
  - cbv zeta.
    destruct (match bestDist with
              | Some b => Qltb (gap_sq house pos) b
              | None => true
              end) eqn:Hcloser.
    + specialize (IH (Some house) (Some (gap_sq house pos)) eq_refl).
      destruct (nearest pos rest (Some house) (Some (gap_sq house pos)))
        as [h|]; [|destruct IH as [_ IH]; discriminate].
      destruct IH as (Hin & Hmin & Hbest).
      specialize (Hbest house eq_refl).
      split; [|split].
      * left. destruct Hin as [Hin|Hin]; [right; exact Hin|].
        injection Hin as ->. left. reflexivity.
      * intros h' [<-|Hh']; [exact Hbest|now apply Hmin].
      * intros b ->. cbn in Hbd. subst bestDist.
        apply Qltb_lt in Hcloser. lra.
    + destruct best as [b|]; cbn in Hbd; subst bestDist; [|discriminate].
      apply Qltb_ge in Hcloser.
      specialize (IH (Some b) (Some (gap_sq b pos)) eq_refl).
      destruct (nearest pos rest (Some b) (Some (gap_sq b pos)))
        as [h|]; [|destruct IH as [_ IH]; discriminate].
      destruct IH as (Hin & Hmin & Hbest).
      specialize (Hbest b eq_refl).
      split; [|split].
      * destruct Hin as [Hin|Hin]; [left; right; exact Hin|right; exact Hin].
      * intros h' [<-|Hh']; [lra|now apply Hmin].
      * intros b' E. injection E as <-. exact Hbest.
Qed.

(** X19 (core/Game.js).  [_findThrowTarget] aims at a nearest eligible
    house: when it returns a position, that is the position of a house of
    the street that is not hit, lies ahead of the player and within
    [TARGET_RANGE] along the street, and no other such house is closer to
    the player in the XZ plane; it returns nothing exactly when there is no
    such house. *)
Theorem throw_target_is_nearest_eligible_house (pos : Vector3.t)
  (hs : list House.t) :
  match _findThrowTarget pos hs with
  | Some target =>
      exists h : House.t,
        h ∈ hs /\ eligible pos h /\ target = House.position h
        /\ forall h', h' ∈ hs -> eligible pos h' ->
                      (gap_sq h pos <= gap_sq h' pos)%Q
  | None => forall h, h ∈ hs -> ~ eligible pos h
  end.
Proof.
  unfold _findThrowTarget. cbv zeta.
  pose proof (ahead_eligible pos hs) as Hahead.
  set (ahead := List.filter _ (referenced hs _)) in *.
  destruct ahead as [|a rest] eqn:Ea.
  - intros h Hh He. apply (Hahead h). split; assumption.
  - rewrite <- Ea in *. clear Ea a rest.
    pose proof (nearest_spec pos (sort_by (ahead_by pos) ahead) None None
                  eq_refl) as Hn.
    destruct (nearest pos (sort_by (ahead_by pos) ahead) None None) as [h|].
    + destruct Hn as (Hin & Hmin & _).
      destruct Hin as [Hin|Hin]; [|discriminate].
      apply In_sort_by in Hin. apply Hahead in Hin. destruct Hin as [Hh He].
      cbn. exists h. repeat split; try assumption; try apply He.
      intros h' Hh' He'. apply Hmin. apply In_sort_by. apply Hahead.
      split; assumption.
    + cbn. destruct Hn as [Hnil _]. intros h Hh He.
      assert (Hin : In h (sort_by (ahead_by pos) ahead)).
      { apply In_sort_by. apply Hahead. split; assumption. }
      rewrite Hnil in Hin. exact Hin.
Qed.

End TargetingSpec.

(** ** entities/Homeowner.js: panic point drops *)

Section HomeownerSpec.
Import Homeowner.
Variable M : MathEnv.
Variable sqrt : Q -> Q.

Lemma inject_nat_succ (n : nat) :
  (inject_Z (Z.of_nat (S n)) == inject_Z (Z.of_nat n) + 1)%Q.
Proof.
  rewrite Nat2Z.inj_succ. unfold Z.succ. rewrite inject_Z_plus. reflexivity.
Qed.

Lemma homeowner_inv_step (st : t * nat * nat) (o : op) :
  frame_time o -> inv st -> inv (step M sqrt st o).
Proof.
  destruct st as [[h consumed] rng].
  unfold inv, dropped, frame_time, HOMEOWNER.DROP_INTERVAL,
    HOMEOWNER.PANIC_DURATION, GAME.MAX_DELTA.
  cbn [fst snd].
  intros Hft (Hdt & Hacc & Hage & Halive).
  destruct o as [delta|]; cbn [step].
  - unfold update.
    destruct (alive h) eqn:Ha; cbn [negb fst snd];
      [|rewrite Ha; repeat split; try assumption; discriminate].
    specialize (Halive eq_refl).
    cbn [alive timeAlive dropTimer pendingDrops].
    unfold Qgeb, HOMEOWNER.DROP_INTERVAL, HOMEOWNER.PANIC_DURATION.
    assert (Hlive : (if Qleb 3 (timeAlive h + delta) then false else true)
                    = true -> (timeAlive h + delta < 3)%Q).
    { destruct (Qleb 3 (timeAlive h + delta)) eqn:E; [discriminate|].
      intros _. now apply Qleb_gt. }
    destruct (Qleb 0.4 (dropTimer h + delta)) eqn:E.
    + apply Qleb_le in E.
      rewrite length_app. cbn [length].
      replace (consumed + (length (pendingDrops h) + 1))%nat
        with (S (consumed + length (pendingDrops h))) by lia.
      rewrite inject_nat_succ.
      repeat split; try lra. exact Hlive.
    + apply Qleb_gt in E. repeat split; try lra. exact Hlive.
  - cbn [consumeDrops fst snd pendingDrops timeAlive dropTimer alive length].
    rewrite Nat.add_0_r. repeat split; assumption.
Qed.

Lemma homeowner_inv_run (ops : list op) :
  forall st, Forall frame_time ops -> inv st -> inv (run M sqrt ops st).
Proof.
  induction ops as [|o rest IH]; intros st Hf Hinv; cbn; [exact Hinv|].
  inversion Hf as [|o' rest' Ho Hrest]; subst.
  apply IH; [exact Hrest|]. now apply homeowner_inv_step.
Qed.

Lemma homeowner_inv_bound (st : t * nat * nat) :
  inv st -> (dropped st <= 7)%nat.
Proof.
  unfold inv, HOMEOWNER.DROP_INTERVAL, HOMEOWNER.PANIC_DURATION,
    GAME.MAX_DELTA.
  intros (Hdt & Hacc & Hage & _).
  destruct (le_lt_dec (dropped st) 7) as [Hle|Hgt]; [exact Hle|exfalso].
  assert (H8 : (8 <= inject_Z (Z.of_nat (dropped st)))%Q).
  { change 8%Q with (inject_Z 8). rewrite <- Zle_Qle. lia. }
  lra.
Qed.

(** X20 (entities/Homeowner.js, core/Game.js).  A homeowner drops at most
    seven panic points: with the frame times [Game.animate] passes on
    (between 0 and [MAX_DELTA]), through any sequence of updates and
    [consumeDrops()] calls on a new homeowner, the drops made so far,
    consumed or pending, are at most 7. *)
Theorem homeowner_drops_at_most_seven (rng : nat) (modelLoaded : bool)
  (housePos : Vector3.t) (side : House.Side) (ops : list op) :
  Forall frame_time ops ->
  (dropped (run M sqrt ops
              (fst (new M sqrt rng modelLoaded housePos side), O,
               snd (new M sqrt rng modelLoaded housePos side)))
   <= 7)%nat.
Proof.
  intros Hf.
  apply homeowner_inv_bound.
  apply homeowner_inv_run; [exact Hf|].
  unfold inv, dropped, HOMEOWNER.DROP_INTERVAL, HOMEOWNER.PANIC_DURATION,
    GAME.MAX_DELTA.
  cbn. repeat split; try lra.
Qed.

End HomeownerSpec.

(** ** core/Game.js: homeowners and their panic points *)

Section PanicSpec.
Import Panic.
Variable M : MathEnv.
Variable sqrt : Q -> Q.

Lemma update_drops_one (rng : nat) (delta : Q) (hw : Homeowner.t) :
  Homeowner.pendingDrops hw = [] ->
  (length (Homeowner.pendingDrops
             (fst (Homeowner.update M sqrt rng delta hw))) <= 1)%nat.
Proof.
  intros Hp. unfold Homeowner.update.
  destruct (Homeowner.alive hw); cbn [negb fst];
    [|rewrite Hp; cbn; lia].
  cbn [Homeowner.pendingDrops]. rewrite Hp.
  destruct (Qgeb _ HOMEOWNER.DROP_INTERVAL); cbn; lia.
Qed.

Lemma visit_backwards_spec (delta : Q) (backwards : list Homeowner.t) :
  forall (pps : list PanicPoint.t) (rng : nat),
    Forall (fun hw => Homeowner.pendingDrops hw = []) backwards ->
    Forall (fun hw => Homeowner.alive hw = true
                      /\ Homeowner.pendingDrops hw = [])
           (fst (fst (visit_backwards M sqrt delta backwards pps rng)))
    /\ (length (fst (fst (visit_backwards M sqrt delta backwards pps rng)))
        <= length backwards)%nat
    /\ exists added : list PanicPoint.t,
         snd (fst (visit_backwards M sqrt delta backwards pps rng))
         = pps ++ added
         /\ (length added <= length backwards)%nat
         /\ Forall (fun p => exists x z, p = PanicPoint.new x z) added.
Proof.
  induction backwards as [|hw rest IH]; intros pps rng Hclean;
    cbn [visit_backwards].
  - cbn. split; [constructor|]. split; [lia|].
    exists []. rewrite app_nil_r. repeat split; [cbn; lia|constructor].
  - inversion Hclean as [|hw' rest' Hhw Hrest]; subst.
    unfold visit.
    pose proof (update_drops_one rng delta hw Hhw) as Hone.
    destruct (Homeowner.update M sqrt rng delta hw) as [hw1 rng1].
    cbn [fst] in Hone.
    cbn [Homeowner.consumeDrops Homeowner.alive].
    match goal with
    | |- context [visit_backwards M sqrt delta rest ?p ?r] =>
        specialize (IH p r Hrest);
          destruct (visit_backwards M sqrt delta rest p r)
            as [[rest' pps2] rng2]
    end.
    cbn [fst snd] in *.
    destruct IH as (Hall & Hlen & added & Hadd & Hladd & Hfresh).
    split; [|split].
    + destruct (Homeowner.alive hw1) eqn:Ha; [|exact Hall].
      constructor; [|exact Hall]. split; reflexivity.
    + destruct (Homeowner.alive hw1); cbn [length]; lia.
    + exists (map (fun drop => PanicPoint.new (fst drop) (snd drop))
                  (Homeowner.pendingDrops hw1) ++ added).
      split; [rewrite Hadd, app_assoc; reflexivity|].
      split; [rewrite length_app, length_map; cbn [length]; lia|].
      apply Forall_app. split; [|exact Hfresh].
      apply Forall_map. apply Forall_forall. intros drop _.
      exists (fst drop), (snd drop). reflexivity.
Qed.

(** X21 (core/Game.js).  After [_updateHomeowners], every homeowner left
    in the list is alive and has no pending drops; no homeowner was added;
    the panic points that were there are still there, in place, followed by
    at most one new one per homeowner, each a new panic point that is
    neither collected nor dead.  (Before the pass no homeowner has pending
    drops, as after the constructor and after every earlier pass.) *)
Theorem updateHomeowners_consumes_all_drops (delta : Q)
  (homeowners : list Homeowner.t) (pps : list PanicPoint.t)
  (rng : nat) :
  Forall (fun hw => Homeowner.pendingDrops hw = []) homeowners ->
  Forall (fun hw => Homeowner.alive hw = true
                    /\ Homeowner.pendingDrops hw = [])
         (fst (fst (_updateHomeowners M sqrt delta homeowners pps rng)))
  /\ (length (fst (fst (_updateHomeowners M sqrt delta homeowners pps rng)))
      <= length homeowners)%nat
  /\ exists added : list PanicPoint.t,
       snd (fst (_updateHomeowners M sqrt delta homeowners pps rng))
       = pps ++ added
       /\ (length added <= length homeowners)%nat
       /\ Forall (fun p => exists x z, p = PanicPoint.new x z) added.
Proof.
  intros Hclean. unfold _updateHomeowners.
  assert (Hrev : Forall (fun hw => Homeowner.pendingDrops hw = [])
                        (rev homeowners)).
  { apply Forall_forall. intros hw Hin.
    rewrite Forall_forall in Hclean. apply Hclean.
    apply list_elem_of_In. apply list_elem_of_In in Hin.
    now apply in_rev. }
  destruct (visit_backwards_spec delta (rev homeowners) pps rng Hrev)
    as (Hall & Hlen & Hadded).
  destruct (visit_backwards M sqrt delta (rev homeowners) pps rng)
    as [[kept pps'] rng'].
  cbn [fst snd] in *. rewrite length_rev in *.
  split; [|split; [exact Hlen|exact Hadded]].
  apply Forall_forall. intros hw Hin.
  rewrite Forall_forall in Hall. apply Hall.
  apply list_elem_of_In. apply list_elem_of_In in Hin.
  now apply in_rev.
Qed.

End PanicSpec.

Lemma homeowner_drops_at_most_seven_witness :
  (Homeowner.dropped
     (Homeowner.run Scenes.math (fun _ => 1%Q) Scenes.nine_frames
        (fst (Homeowner.new Scenes.math (fun _ => 1%Q) 0 true
                (Vector3.mk 7 0 (-20)) House.side_right),
         O,
         snd (Homeowner.new Scenes.math (fun _ => 1%Q) 0 true
                (Vector3.mk 7 0 (-20)) House.side_right)))
   <= 7)%nat.
Proof.
  apply (homeowner_drops_at_most_seven Scenes.math (fun _ => 1%Q) 0%nat
           true (Vector3.mk 7 0 (-20)) House.side_right
           Scenes.nine_frames).
  unfold Scenes.nine_frames. cbn.
  repeat constructor; cbn; unfold GAME.MAX_DELTA; lra.
Defined.

Lemma updateHomeowners_consumes_all_drops_witness :
  Forall (fun hw => Homeowner.pendingDrops hw = [])
    [fst (Homeowner.new Scenes.math (fun _ => 1%Q) 0 true
            (Vector3.mk 7 0 (-20)) House.side_right)]
  /\ (length
        (fst (fst (Panic._updateHomeowners Scenes.math (fun _ => 1%Q) 0.05
                     [fst (Homeowner.new Scenes.math (fun _ => 1%Q) 0
                             true (Vector3.mk 7 0 (-20)) House.side_right)]
                     [] 3)))
      <= 1)%nat.
Proof.
  assert (Hc : Forall (fun hw => Homeowner.pendingDrops hw = [])
                 [fst (Homeowner.new Scenes.math (fun _ => 1%Q) 0 true
                         (Vector3.mk 7 0 (-20)) House.side_right)])
    by (repeat constructor).
  split; [exact Hc|].
  exact (proj1 (proj2 (updateHomeowners_consumes_all_drops Scenes.math
                         (fun _ => 1%Q) 0.05 _ [] 3%nat Hc))).
Defined.

(** ** systems/StreetGenerator.js: what an update leaves behind *)

Section StreetUpdateSpec.
Import StreetGenerator.
Variable M : MathEnv.

Lemma agent_update_alive (delta playerZ : Q) (a : Agent.t) :
  Agent.alive (Agent.update M delta playerZ a) = true ->
  (Vector3.z (Agent.position (Agent.update M delta playerZ a))
   <= playerZ + 10)%Q.
Proof.
  unfold Agent.update.
  destruct (Agent.alive a) eqn:Ha; cbn [negb]; [|congruence].
  cbn [Agent.alive Agent.position Vector3.z].
  destruct (Qgtb (Vector3.z (Agent.position a) + AGENT.SPEED * delta)
                 (playerZ + 10)) eqn:E; [discriminate|].
  intros _. now apply Qgtb_le.
Qed.

(** X22 (systems/StreetGenerator.js, entities/Agent.js).  What
    [update(delta, playerZ)] leaves in the generator's arrays: no house
    more than [CLEANUP_DISTANCE] behind the player, no street piece more
    than 40 behind, and only live agents, none more than 10 behind. *)
Theorem update_leaves_nothing_behind (currentSpeed delta playerZ : Q) (s : t) :
  Forall (fun h => (Vector3.z (House.position h)
                    <= playerZ + HOUSE.CLEANUP_DISTANCE)%Q)
         (houses (update M currentSpeed delta playerZ s))
  /\ Forall (fun a => Agent.alive a = true
                      /\ (Vector3.z (Agent.position a) <= playerZ + 10)%Q)
            (agents (update M currentSpeed delta playerZ s))
  /\ Forall (fun seg => (Vector3.z seg <= playerZ + 40)%Q)
            (streetSegments (update M currentSpeed delta playerZ s)).
Proof.
  unfold update.
  set (s2 := extend_street playerZ _).
  destruct (update_houses M delta (houses s2) (draws s2)) as [hs n].
  set (s4 := spawn_tick M currentSpeed delta playerZ _).
  unfold _cleanup. cbn [houses agents streetSegments set_agents].
  split; [|split]; apply Forall_forall; intros x Hx;
    apply list_elem_of_In in Hx; apply filter_In in Hx; destruct Hx as [Hin Hx].
  - apply negb_true_iff in Hx. now apply Qgtb_le.
  - split; [exact Hx|].
    apply in_map_iff in Hin. destruct Hin as (a & <- & _).
    now apply agent_update_alive.
  - apply negb_true_iff in Hx. now apply Qgtb_le.
Qed.

Lemma spawn_interval_bounds (currentSpeed : Q) :
  (1 <= Math_max AGENT.MIN_SPAWN_INTERVAL
          (AGENT.SPAWN_INTERVAL * (1 - currentSpeed / 25 * 0.5)))%Q.
Proof.
  unfold Math_max, AGENT.MIN_SPAWN_INTERVAL.
  destruct (Qleb 1 _) eqn:E; [now apply Qleb_le in E|lra].
Qed.

(** The spawning part of [update] alone: when the timer runs out it pushes
    one new agent [SPAWN_DISTANCE] ahead and rearms the timer. *)
Lemma spawn_tick_spec (currentSpeed delta playerZ : Q)
  (s : t) :
  Pace.unit_random M ->
  ((_agentTimer s - delta <= 0)%Q ->
   (exists a : Agent.t,
      agents (spawn_tick M currentSpeed delta playerZ s) = agents s ++ [a]
      /\ Agent.alive a = true /\ Agent.hasCollided a = false
      /\ Vector3.z (Agent.position a) = (playerZ - AGENT.SPAWN_DISTANCE)%Q
      /\ (- (4.5) <= Vector3.x (Agent.position a) <= 4.5)%Q)
   /\ (0.75 <= _agentTimer (spawn_tick M currentSpeed delta playerZ s))%Q)
  /\ ((0 < _agentTimer s - delta)%Q ->
      agents (spawn_tick M currentSpeed delta playerZ s) = agents s
      /\ _agentTimer (spawn_tick M currentSpeed delta playerZ s)
         = (_agentTimer s - delta)%Q).
Proof.
  intros Hrand. unfold spawn_tick. split.
  - intros Hout. apply Qleb_le in Hout. rewrite Hout.
    unfold _spawnAgent, Agent.new.
    cbn [agents _agentTimer draws].
    split.
    + eexists. split; [reflexivity|].
      cbn [Agent.alive Agent.hasCollided Agent.position Vector3.z Vector3.x].
      repeat split; try reflexivity;
        destruct (Hrand (draws s)) as [H0 H1]; unfold STREET.WIDTH; lra.
    + pose proof (spawn_interval_bounds currentSpeed) as Hi.
      destruct (Hrand (S (S (draws s)))) as [H0 H1].
      set (interval := Math_max _ _) in *.
      nra.
  - intros Hleft.
    assert (E : Qleb (_agentTimer s - delta) 0 = false).
    { destruct (Qleb (_agentTimer s - delta) 0) eqn:E; [|reflexivity].
      apply Qleb_le in E. lra. }
    rewrite E. split; reflexivity.
Qed.

Lemma generate_rows_agents (fuel : nat) (limit : Q) :
  forall s,
    agents (generate_rows M fuel limit s) = agents s
    /\ _agentTimer (generate_rows M fuel limit s) = _agentTimer s.
Proof.
  induction fuel as [|fuel IH]; intros s; cbn; [split; reflexivity|].
  destruct (Qgtb (_generatedZ s) limit); [|split; reflexivity].
  destruct (IH (set_generatedZ
                  (_generatedZ (_generateRow M (_generatedZ s) s)
                   - HOUSE.SPACING_Z)
                  (_generateRow M (_generatedZ s) s))) as [H1 H2].
  rewrite H1, H2. unfold _generateRow, maybe_house. cbn.
  repeat (destruct (Qgtb (random M _) 0.2); cbn); split; reflexivity.
Qed.

(** X23 (systems/StreetGenerator.js, entities/Agent.js).  Agent spawning in
    [update(delta, playerZ)], for random numbers between 0 and 1.  The
    agents after the update are the agents before it, moved by their own
    [update] and without those that died; when the spawn timer runs out
    in this update, exactly one new agent follows them: alive, not
    collided, within 4.5 of the middle of the street, and (having taken
    its first step in the same update) [SPAWN_DISTANCE - SPEED * delta]
    ahead of the player; the timer is then set to at least 0.75 seconds
    whatever the speed.  When the timer does not run out, no agent is
    added and the timer is lowered by [delta]. *)
Theorem update_spawns_one_agent_ahead (currentSpeed delta playerZ : Q)
  (s : t) :
  Pace.unit_random M ->
  ((_agentTimer s - delta <= 0)%Q ->
   (AGENT.SPEED * delta <= AGENT.SPAWN_DISTANCE + 10)%Q ->
   (exists a : Agent.t,
      agents (update M currentSpeed delta playerZ s)
      = List.filter Agent.alive
          (map (Agent.update M delta playerZ) (agents s)) ++ [a]
      /\ Agent.alive a = true /\ Agent.hasCollided a = false
      /\ Vector3.z (Agent.position a)
         = (playerZ - AGENT.SPAWN_DISTANCE + AGENT.SPEED * delta)%Q
      /\ (- (4.5) <= Vector3.x (Agent.position a) <= 4.5)%Q)
   /\ (0.75 <= _agentTimer (update M currentSpeed delta playerZ s))%Q)
  /\ ((0 < _agentTimer s - delta)%Q ->
      agents (update M currentSpeed delta playerZ s)
      = List.filter Agent.alive
          (map (Agent.update M delta playerZ) (agents s))
      /\ _agentTimer (update M currentSpeed delta playerZ s)
         = (_agentTimer s - delta)%Q).
Proof.
  intros Hrand. unfold update.
  set (s1 := generate_rows_until M _ s).
  destruct (generate_rows_agents
              (passes (_generatedZ s) (playerZ - HOUSE.SPAWN_DISTANCE)
                      HOUSE.SPACING_Z)
              (playerZ - HOUSE.SPAWN_DISTANCE) s) as [Ha1 Ht1].
  fold (generate_rows_until M (playerZ - HOUSE.SPAWN_DISTANCE) s) in Ha1, Ht1.
  fold s1 in Ha1, Ht1.
  assert (H2 : agents (extend_street playerZ s1) = agents s
               /\ _agentTimer (extend_street playerZ s1) = _agentTimer s).
  { unfold extend_street.
    destruct (Qltb (playerZ - 40) (_lastStreetEnd s1)); cbn;
      split; assumption. }
  set (s2 := extend_street playerZ s1) in *.
  destruct H2 as [Ha2 Ht2].
  destruct (update_houses M delta (houses s2) (draws s2)) as [hs n].
  set (s3 := set_houses hs n s2).
  assert (Ha3 : agents s3 = agents s) by exact Ha2.
  assert (Ht3 : _agentTimer s3 = _agentTimer s) by exact Ht2.
  destruct (spawn_tick_spec currentSpeed delta playerZ s3 Hrand)
    as [Hout Hleft].
  rewrite Ht3, Ha3 in Hout, Hleft.
  unfold _cleanup. cbn [agents _agentTimer set_agents].
  split.
  - intros Hzero Hshort.
    destruct (Hout Hzero) as [(a & Hag & Hal & Hco & Hz & Hx) Htimer].
    split; [|exact Htimer].
    exists (Agent.update M delta playerZ a).
    rewrite Hag, map_app, List.filter_app. cbn [map List.filter].
    assert (Hstay : Qgtb (Vector3.z (Agent.position a) + AGENT.SPEED * delta)
                         (playerZ + 10) = false).
    { apply Qgtb_le. rewrite Hz.
      unfold AGENT.SPEED, AGENT.SPAWN_DISTANCE in *. lra. }
    assert (Hstep : Agent.alive (Agent.update M delta playerZ a) = true
                    /\ Agent.hasCollided (Agent.update M delta playerZ a)
                       = Agent.hasCollided a
                    /\ Vector3.z (Agent.position
                                    (Agent.update M delta playerZ a))
                       = (Vector3.z (Agent.position a)
                          + AGENT.SPEED * delta)%Q
                    /\ Vector3.x (Agent.position
                                    (Agent.update M delta playerZ a))
                       = Vector3.x (Agent.position a)).
    { unfold Agent.update. rewrite Hal. cbn [negb].
      cbn [Agent.alive Agent.hasCollided Agent.position Vector3.x Vector3.z].
      rewrite Hstay. repeat split; reflexivity. }
    destruct Hstep as (Hal' & Hco' & Hz' & Hx').
    rewrite Hal'.
    split; [reflexivity|]. split; [reflexivity|].
    split; [now rewrite Hco'|].
    split; [now rewrite Hz', Hz|now rewrite Hx'].
  - intros Hpos. destruct (Hleft Hpos) as [Hag Htimer].
    rewrite Hag. split; [reflexivity|exact Htimer].
Qed.

Lemma generate_rows_lastStreetEnd (fuel : nat) (limit : Q) :
  forall s, _lastStreetEnd (generate_rows M fuel limit s) = _lastStreetEnd s.
Proof.
  induction fuel as [|fuel IH]; intros s; cbn; [reflexivity|].
  destruct (Qgtb (_generatedZ s) limit); [|reflexivity].
  rewrite IH. unfold _generateRow, maybe_house. cbn.
  repeat (destruct (Qgtb (random M _) 0.2); cbn); reflexivity.
Qed.

Lemma update_lastStreetEnd (currentSpeed delta playerZ : Q) (s : t) :
  _lastStreetEnd (update M currentSpeed delta playerZ s)
  = if Qltb (playerZ - 40) (_lastStreetEnd s)
    then (_lastStreetEnd s - STREET.SEGMENT_LENGTH)%Q
    else _lastStreetEnd s.
Proof.
  unfold update.
  set (s1 := generate_rows_until M _ s).
  assert (H1 : _lastStreetEnd s1 = _lastStreetEnd s)
    by apply generate_rows_lastStreetEnd.
  assert (H2 : _lastStreetEnd (extend_street playerZ s1)
               = if Qltb (playerZ - 40) (_lastStreetEnd s)
                 then (_lastStreetEnd s - STREET.SEGMENT_LENGTH)%Q
                 else _lastStreetEnd s).
  { unfold extend_street. rewrite H1.
    destruct (Qltb (playerZ - 40) (_lastStreetEnd s)); [reflexivity|exact H1]. }
  set (s2 := extend_street playerZ s1) in *.
  destruct (update_houses M delta (houses s2) (draws s2)) as [hs n].
  set (s3 := set_houses hs n s2).
  assert (H4 : _lastStreetEnd (spawn_tick M currentSpeed delta playerZ s3)
               = _lastStreetEnd s3).
  { unfold spawn_tick. destruct (Qleb _ _); reflexivity. }
  cbn. rewrite H4. cbn. exact H2.
Qed.

Lemma street_end_run (frames : list frame) :
  forall (prev : Q) (s : t),
    Pace.paced prev frames ->
    (_lastStreetEnd s <= prev - 40)%Q ->
    (_lastStreetEnd (run_updates M frames s)
     <= Pace.last_playerZ prev frames - 40)%Q
    /\ (_lastStreetEnd (run_updates M frames s) <= _lastStreetEnd s)%Q.
Proof.
  induction frames as [|f rest IH]; intros prev s Hp Hs;
    cbn [run_updates fold_left Pace.last_playerZ].
  - cbn. split; lra.
  - destruct Hp as [Hstep Hp]. unfold STREET.SEGMENT_LENGTH in Hstep.
    fold (run_updates M rest
            (update M (frame_speed f) (frame_delta f) (frame_playerZ f) s)).
    pose proof (update_lastStreetEnd (frame_speed f) (frame_delta f)
                  (frame_playerZ f) s) as Hend.
    unfold STREET.SEGMENT_LENGTH in Hend.
    assert (Hnew : (_lastStreetEnd
                      (update M (frame_speed f) (frame_delta f)
                              (frame_playerZ f) s)
                    <= frame_playerZ f - 40)%Q
                   /\ (_lastStreetEnd
                         (update M (frame_speed f) (frame_delta f)
                                 (frame_playerZ f) s)
                       <= _lastStreetEnd s)%Q).
    { rewrite Hend.
      destruct (Qltb (frame_playerZ f - 40) (_lastStreetEnd s)) eqn:E;
        [apply Qltb_lt in E|apply Qltb_ge in E]; split; lra. }
    destruct Hnew as [Hn1 Hn2].
    destruct (IH (frame_playerZ f) _ Hp Hn1) as [I1 I2].
    split; [exact I1|lra].
Qed.

(** X24 (systems/StreetGenerator.js).  The street surface stays ahead of
    the player: if the player never advances by more than one segment
    length (40) between two frames, then after any sequence of updates of a
    new generator the surface reaches at least 40 beyond the player's last
    position, and [_lastStreetEnd] has never moved back. *)
Theorem street_surface_stays_ahead (n : nat) (frames : list frame) :
  Pace.paced 0 frames ->
  (_lastStreetEnd (run_updates M frames (new M n))
   <= Pace.last_playerZ 0 frames - 40)%Q
  /\ (_lastStreetEnd (run_updates M frames (new M n))
      <= - HOUSE.SPAWN_DISTANCE - 20)%Q.
Proof.
  intros Hp.
  assert (H0 : _lastStreetEnd (new M n) = (- HOUSE.SPAWN_DISTANCE - 20)%Q).
  { unfold new, _generateInitial, generate_rows_until.
    cbn [_lastStreetEnd _generateStreetSurface set_streetSegments].
    now rewrite generate_rows_lastStreetEnd. }
  destruct (street_end_run frames 0 (new M n) Hp) as [H1 H2].
  - rewrite H0. unfold HOUSE.SPAWN_DISTANCE. lra.
  - split; [exact H1|]. rewrite <- H0. exact H2.
Qed.

End StreetUpdateSpec.

Section StreetLayoutSpec.
Variable M : MathEnv.

(** X25 (systems/StreetGenerator.js, entities/House.js).  The generator
    keeps the houses apart: at every point of the history of a generator
    (updates, resets, houses being hit), any two different houses of its
    array that are not hit are at least a row spacing (6) apart along the
    street, or across the street from each other (14 apart). *)
Theorem generated_houses_keep_their_distance (n : nat)
  (cs : list Layout.change) (i j : nat) (h h' : House.t) :
  i <> j ->
  StreetGenerator.houses (Layout.history M n cs) !! i = Some h ->
  StreetGenerator.houses (Layout.history M n cs) !! j = Some h' ->
  House.isHit h = false -> House.isHit h' = false ->
  (36 <= (Vector3.z (House.position h) - Vector3.z (House.position h'))
         * (Vector3.z (House.position h) - Vector3.z (House.position h'))
   \/ 36 <= (Vector3.x (House.position h) - Vector3.x (House.position h'))
            * (Vector3.x (House.position h) - Vector3.x (House.position h')))%Q.
Proof.
  intros Hne Hi Hj Hh Hh'.
  exact (street_unhit_spaced _ i j h h' (history_street M n cs) Hne Hi Hj
           Hh Hh').
Qed.

End StreetLayoutSpec.

Lemma unit_random_math : Pace.unit_random Scenes.math.
Proof. intros n. cbn. lra. Qed.

Lemma update_spawns_one_agent_ahead_witness :
  (0.75 <= StreetGenerator._agentTimer
             (StreetGenerator.update Scenes.math 8 3 0
                (StreetGenerator.blank 0)))%Q
  /\ length (StreetGenerator.agents
               (StreetGenerator.update Scenes.math 8 3 0
                  (StreetGenerator.blank 0)))
     = 1%nat.
Proof.
  destruct (proj1 (update_spawns_one_agent_ahead Scenes.math 8 3 0
                     (StreetGenerator.blank 0) unit_random_math))
    as [(a & Hag & _) Htimer].
  - cbn. unfold AGENT.SPAWN_INTERVAL. lra.
  - unfold AGENT.SPEED, AGENT.SPAWN_DISTANCE. lra.
  - split; [exact Htimer|]. rewrite Hag. reflexivity.
Defined.

Lemma street_surface_stays_ahead_witness :
  Pace.paced 0 Scenes.jog
  /\ (StreetGenerator._lastStreetEnd
        (StreetGenerator.run_updates Scenes.math Scenes.jog
           (StreetGenerator.new Scenes.math 0))
      <= Pace.last_playerZ 0 Scenes.jog - 40)%Q.
Proof.
  assert (Hp : Pace.paced 0 Scenes.jog).
  { cbn. unfold STREET.SEGMENT_LENGTH. repeat split; lra. }
  split; [exact Hp|].
  exact (proj1 (street_surface_stays_ahead Scenes.math 0 Scenes.jog Hp)).
Defined.

Lemma generated_houses_keep_their_distance_witness :
  StreetGenerator.houses (Layout.history Scenes.math 0 []) !! 0%nat
  = Some Scenes.first_left
  /\ StreetGenerator.houses (Layout.history Scenes.math 0 []) !! 1%nat
     = Some Scenes.first_right
  /\ (36 <= (10 - 10) * (10 - 10) \/ 36 <= (-7 - 7) * (-7 - 7))%Q.
Proof.
  assert (H0 : StreetGenerator.houses (Layout.history Scenes.math 0 [])
               !! 0%nat = Some Scenes.first_left)
    by (vm_compute; reflexivity).
  assert (H1 : StreetGenerator.houses (Layout.history Scenes.math 0 [])
               !! 1%nat = Some Scenes.first_right)
    by (vm_compute; reflexivity).
  split; [exact H0|]. split; [exact H1|].
  exact (generated_houses_keep_their_distance Scenes.math 0 [] 0 1
           Scenes.first_left Scenes.first_right ltac:(discriminate) H0 H1
           eq_refl eq_refl).
Defined.

(** ** core/EventBus.js: unsubscribing, and names that cannot be used *)

Section BusHistorySpec.
Context {Data App : Type}.
Import EventBus.

Lemma off_subscribers (event : string) (cb : callback) (b : t) :
  inherited event = false ->
  subscribers (fst (off event cb b)) event
  = filter (fun c => c <> cb) (subscribers b event).
Proof.
  intros Hin. unfold off, subscribers, get. rewrite Hin.
  destruct (listeners b !! event) as [arr|] eqn:E; cbn.
  - rewrite lookup_insert_eq. reflexivity.
  - rewrite E. reflexivity.
Qed.

Lemma filter_other_id (cb : callback) (arr : list callback) :
  cb ∉ arr -> filter (fun c => c <> cb) arr = arr.
Proof.
  induction arr as [|c rest IH]; intros Hnot; [reflexivity|].
  apply not_elem_of_cons in Hnot. destruct Hnot as [Hne Hrest].
  rewrite filter_cons_True by congruence. now rewrite IH.
Qed.

(** X26 (core/EventBus.js).  After [off(event, callback)], an [emit] of the
    event calls the other subscribers, in their order, and never the
    callback, however often it had been subscribed; subscribing a callback
    that was not subscribed and unsubscribing it again restores the
    subscriptions; and a callback subscribed twice is called twice.  (For
    any event name that is not a property name of [Object.prototype].) *)
Theorem off_silences_callback
  (run : behaviour (Data:=Data) (App:=App)) (event : string) (data : Data)
  (cb : callback) (b : t) (a : App) (log : list (string * string)) :
  inherited event = false ->
  snd (emit run event data (mkWorld (fst (off event cb b)) a log))
  = filter (fun c => c <> cb) (subscribers b event)
  /\ (cb ∉ snd (emit run event data (mkWorld (fst (off event cb b)) a log)))
  /\ (cb ∉ subscribers b event ->
      subscribers (fst (off event cb (fst (on event cb b)))) event
      = subscribers b event)
  /\ snd (emit run event data
            (mkWorld (fst (on event cb (fst (on event cb b)))) a log))
     = subscribers b event ++ [cb; cb].
Proof.
  intros Hin.
  destruct (emit_calls_subscribers run event data
              (mkWorld (fst (off event cb b)) a log) Hin) as [_ Hcalls].
  cbn [bus] in Hcalls.
  rewrite Hcalls, off_subscribers by exact Hin.
  split; [reflexivity|]. split; [|split].
  - intros Hel. apply list_elem_of_filter in Hel. destruct Hel as [Hne _].
    now apply Hne.
  - intros Hnot.
    rewrite off_subscribers, on_subscribers by exact Hin.
    rewrite filter_app, filter_other_id by exact Hnot.
    rewrite filter_cons_False by (intros H; now apply H).
    now rewrite app_nil_r.
  - destruct (emit_calls_subscribers run event data
                (mkWorld (fst (on event cb (fst (on event cb b)))) a log) Hin)
      as [_ Hcalls2].
    cbn [bus] in Hcalls2.
    rewrite Hcalls2, !on_subscribers, <- app_assoc by exact Hin.
    reflexivity.
Qed.

Lemma on_other (event other : string) (cb : callback) (b : t) :
  event <> other -> get (fst (on event cb b)) other = get b other.
Proof.
  intros Hne. unfold on.
  destruct (get b event) as [|arr|]; cbn [fst]; [| |reflexivity];
    unfold get; cbn [listeners]; now rewrite lookup_insert_ne.
Qed.

Lemma off_other (event other : string) (cb : callback) (b : t) :
  event <> other -> get (fst (off event cb b)) other = get b other.
Proof.
  intros Hne. unfold off.
  destruct (get b event) as [|arr|]; cbn [fst]; [reflexivity| |reflexivity].
  unfold get; cbn [listeners]; now rewrite lookup_insert_ne.
Qed.

(** [emit] calls the subscribers of the event, whatever the name. *)
Lemma emit_calls (run : behaviour (Data:=Data) (App:=App))
  (event : string) (data : Data) (w : world (App:=App)) :
  snd (emit run event data w) = subscribers (bus w) event.
Proof.
  unfold emit, subscribers.
  destruct (get (bus w) event) as [|arr|]; [reflexivity| |reflexivity].
  apply forEach_total. intros c w0. apply try_catch_console_error_normal.
Qed.

(** X31 (core/EventBus.js).  Events do not interfere: [on] and [off] for
    one event name leave the subscribers of every other event name, and the
    callbacks an [emit] of it calls, exactly as they were. *)
Theorem other_events_are_untouched
  (run : behaviour (Data:=Data) (App:=App)) (event other : string)
  (data : Data) (cb : callback) (b : t) (a : App)
  (log : list (string * string)) :
  event <> other ->
  snd (emit run other data (mkWorld (fst (on event cb b)) a log))
  = snd (emit run other data (mkWorld b a log))
  /\ snd (emit run other data (mkWorld (fst (off event cb b)) a log))
     = snd (emit run other data (mkWorld b a log))
  /\ get (fst (on event cb b)) other = get b other
  /\ get (fst (off event cb b)) other = get b other.
Proof.
  intros Hne.
  pose proof (on_other event other cb b Hne) as Hon.
  pose proof (off_other event other cb b Hne) as Hoff.
  rewrite !emit_calls. cbn [bus]. unfold subscribers.
  rewrite Hon, Hoff. repeat split; reflexivity.
Qed.

Lemma history_no_inherited (ops : list BusHistory.op) (event : string) :
  inherited event = true ->
  listeners (BusHistory.run ops) !! event = None.
Proof.
  intros Hin. unfold BusHistory.run.
  assert (H : forall b : t,
             listeners b !! event = None ->
             listeners (fold_left BusHistory.step ops b) !! event = None).
  { induction ops as [|o rest IH]; intros b Hb; cbn [fold_left];
      [exact Hb|].
    apply IH.
    destruct o as [e c|e c|]; cbn [BusHistory.step].
    - unfold on.
      destruct (get b e) as [|arr|] eqn:Hget; cbn [fst listeners];
        [| |exact Hb];
        (destruct (String.eqb_spec e event) as [->|Hne];
         [unfold get in Hget; rewrite Hb, Hin in Hget; discriminate
         |now rewrite lookup_insert_ne]).
    - unfold off.
      destruct (get b e) as [|arr|] eqn:Hget; cbn [fst listeners];
        [exact Hb| |exact Hb].
      destruct (String.eqb_spec e event) as [->|Hne];
        [unfold get in Hget; rewrite Hb, Hin in Hget; discriminate
        |now rewrite lookup_insert_ne].
    - cbn. apply lookup_empty. }
  apply H. cbn. apply lookup_empty.
Qed.

(** X27 (core/EventBus.js).  Event names that are property names of
    [Object.prototype] ("toString", "constructor" and the like) can never
    be used: on the bus after any history of [on], [off] and [removeAll]
    calls, [on], [off] and [emit] with such a name throw a TypeError
    instead of returning, call no callback, and leave the bus as it is. *)
Theorem prototype_names_always_throw
  (run : behaviour (Data:=Data) (App:=App)) (ops : list BusHistory.op)
  (event : string) (data : Data) (cb : callback) (a : App)
  (log : list (string * string)) :
  inherited event = true ->
  on event cb (BusHistory.run ops)
  = (BusHistory.run ops, Throw "TypeError: push is not a function")
  /\ off event cb (BusHistory.run ops)
     = (BusHistory.run ops, Throw "TypeError: filter is not a function")
  /\ emit run event data (mkWorld (BusHistory.run ops) a log)
     = ((mkWorld (BusHistory.run ops) a log,
         Throw "TypeError: forEach is not a function"), []).
Proof.
  intros Hin.
  pose proof (history_no_inherited ops event Hin) as Hnone.
  unfold on, off, emit, get. cbn [bus]. rewrite Hnone, Hin.
  repeat split; reflexivity.
Qed.

End BusHistorySpec.

Lemma off_silences_callback_witness :
  EventBus.inherited Events.HOUSE_HIT = false
  /\ snd (EventBus.emit Scenario.behaviour Events.HOUSE_HIT 7%nat
            (EventBus.mkWorld
               (fst (EventBus.off Events.HOUSE_HIT 20%nat
                       (EventBus.bus Scenario.bus_world)))
               [] []))
     = [10; 30]%nat.
Proof.
  split; [reflexivity|].
  exact (proj1 (off_silences_callback Scenario.behaviour Events.HOUSE_HIT
                  7%nat 20%nat (EventBus.bus Scenario.bus_world) [] []
                  eq_refl)).
Defined.

Lemma other_events_are_untouched_witness :
  snd (EventBus.emit Scenario.behaviour Events.HOUSE_HIT 7%nat
         (EventBus.mkWorld
            (fst (EventBus.off Events.GAME_OVER 20%nat
                    (EventBus.bus Scenario.bus_world)))
            [] []))
  = [10; 20; 30]%nat.
Proof.
  rewrite (proj1 (proj2 (other_events_are_untouched Scenario.behaviour
                           Events.GAME_OVER Events.HOUSE_HIT 7%nat 20%nat
                           (EventBus.bus Scenario.bus_world) [] []
                           ltac:(discriminate)))).
  reflexivity.
Defined.

Lemma prototype_names_always_throw_witness :
  EventBus.inherited "toString" = true
  /\ snd (EventBus.on "toString" 1%nat
            (BusHistory.run [BusHistory.On "house:hit" 1%nat;
                             BusHistory.RemoveAll;
                             BusHistory.On "toString" 2%nat]))
     = EventBus.Throw "TypeError: push is not a function".
Proof.
  split; [reflexivity|].
  rewrite (proj1 (prototype_names_always_throw
                    (App:=unit) (Data:=unit)
                    (fun _ _ w => (w, EventBus.Normal))
                    [BusHistory.On "house:hit" 1%nat; BusHistory.RemoveAll;
                     BusHistory.On "toString" 2%nat]
                    "toString" tt 1%nat tt [] eq_refl)).
  reflexivity.
Defined.

(** ** entities/House.js: a hit house settles *)

Section SoldSpec.
Import House Sold.
Variable M : MathEnv.
Hypothesis Hrandom : Pace.unit_random M.




End SoldSpec.


(** ** systems/InputSystem.js: one throw per press *)

Section InputSystemSpec.
Import InputSystem.

Lemma input_step_budget (s : t) (o : op) :
  ((if snd (step s o) then 1 else 0) + pending (fst (step s o))
   <= pending s + releases [o] + touches [o])%nat.
Proof.
  unfold pending, releases, touches.
  destruct o as [code|code| |active|touchX maxDelta|];
    cbn [step fst snd List.filter length].
  - unfold keydown. cbn [_throwJustPressed _throwConsumed].
    destruct (String.eqb code "Space"), (_throwConsumed s),
      (_throwJustPressed s); cbn; lia.
  - unfold keyup. cbn [_throwJustPressed _throwConsumed].
    destruct (String.eqb code "Space"), (_throwConsumed s),
      (_throwJustPressed s); cbn; lia.
  - unfold throw_touchstart. cbn [_throwJustPressed _throwConsumed].
    destruct (_gameActive s), (_throwConsumed s), (_throwJustPressed s);
      cbn; lia.
  - cbn. lia.
  - cbn. lia.
  - unfold throwPressed.
    destruct (_throwJustPressed s) eqn:E; cbn [fst snd _throwJustPressed
                                               _throwConsumed];
      [|rewrite E]; destruct (_throwConsumed s); cbn; lia.
Qed.

Lemma input_run_budget (ops : list op) :
  forall s : t,
    (snd (run ops s) + pending (fst (run ops s))
     <= pending s + releases ops + touches ops)%nat.
Proof.
  induction ops as [|o rest IH]; intros s; cbn [run].
  - cbn. lia.
  - pose proof (input_step_budget s o) as H1.
    destruct (step s o) as [s1 pressed]. cbn [fst snd] in H1.
    specialize (IH s1).
    destruct (run rest s1) as [s2 n]. cbn [fst snd] in *.
    assert (Hr : releases (o :: rest) = (releases [o] + releases rest)%nat).
    { unfold releases. cbn [List.filter].
      destruct o as [code|code| | | |]; cbn [length]; try lia.
      destruct (String.eqb code "Space"); cbn [length]; lia. }
    assert (Ht : touches (o :: rest) = (touches [o] + touches rest)%nat).
    { unfold touches. cbn [List.filter].
      destruct o; cbn [length]; lia. }
    rewrite Hr, Ht. destruct pressed; lia.
Qed.

(** X29 (systems/InputSystem.js).  A press of the space bar throws once,
    however long the key is held: over any history of key events, touches
    of the throw button and reads of [throwPressed], the reads that return
    [true] are at most one more than the releases of the space bar and the
    touches of the throw button taken together; and a press is not lost:
    after a [keydown] of the space bar while it was up, the next read
    returns [true], and the one after that [false]. *)
Theorem one_throw_per_press (ops : list op) (s : t) :
  (snd (run ops new) <= 1 + releases ops + touches ops)%nat
  /\ (_throwConsumed s = false ->
      fst (throwPressed (keydown "Space" s)) = true
      /\ fst (throwPressed (snd (throwPressed (keydown "Space" s)))) = false
      /\ fst (throwPressed
                (keydown "Space" (snd (throwPressed (keydown "Space" s)))))
         = false).
Proof.
  split.
  - pose proof (input_run_budget ops new) as H.
    change (pending new) with 1%nat in H. lia.
  - intros Hup. unfold keydown, throwPressed.
    cbn [_throwJustPressed _throwConsumed String.eqb]. rewrite Hup.
    cbn. repeat split; reflexivity.
Qed.

End InputSystemSpec.

(** ** audio/AudioBridge.js and core/GameState.js: the mute preference *)

Section MuteSpec.
Import GameState AudioBridge.

Lemma read_muted_setItem (b : bool) (m : gmap string string) :
  read_muted (Some (<[MUTED_KEY := String_of_bool b]> m)) = b.
Proof.
  unfold read_muted. rewrite lookup_insert_eq.
  destruct b; cbn; [apply bool_decide_eq_true|apply bool_decide_eq_false];
    congruence.
Qed.

(** X30 (audio/AudioBridge.js, core/GameState.js).  The mute preference
    survives a reload and a restart: where [localStorage] is available, a
    [GameState] constructed after the mute toggle starts with the toggled
    value, toggling twice brings back the value that was there, and
    [reset()] keeps whatever the toggle set; where it is not available, a
    new [GameState] starts unmuted. *)
Theorem mute_preference_survives_reload (gs : state)
  (m : gmap string string) :
  isMuted (new (snd (toggle_mute (gs, Some m)))) = negb (isMuted gs)
  /\ isMuted (new (snd (toggle_mute (toggle_mute (gs, Some m)))))
     = isMuted gs
  /\ isMuted (reset (snd (toggle_mute (gs, Some m)))
                (Some (fst (toggle_mute (gs, Some m)))))
     = negb (isMuted gs)
  /\ isMuted (new (snd (toggle_mute (gs, None)))) = false.
Proof.
  unfold new, reset, toggle_mute, setItem.
  cbn [fst snd isMuted fmap option_fmap option_map].
  rewrite !read_muted_setItem.
  repeat split; try reflexivity. apply negb_involutive.
Qed.

End MuteSpec.
